(** * Contact form validation, submission and notification toasts of script.js

    A shallow embedding of the contact-form and notification code of
    [src/script.js] (lines 461-682): [validateForm], [validateField],
    [showFieldError], [removeFieldError], [handleContactSubmit],
    [showNotification] and [dismissNotification], over an explicit model of
    the part of the browser they talk to (strings, the regular expression
    engine, the document, timers, tweens and [fetch]). *)

From Stdlib Require Import NArith String Ascii.
From stdpp Require Import gmap list.

Open Scope N_scope.

(** ** JavaScript strings

    A JavaScript string is a sequence of UTF-16 code units. String literals
    of the source are written as Rocq strings and read through [js]. *)

Module JsString.

Definition jsstring : Type := list N.

Definition js (s : string) : jsstring :=
  map N_of_ascii (list_ascii_of_string s).

(** ECMAScript WhiteSpace and LineTerminator code points: the set that
    [String.prototype.trim] strips and that [\s] matches. *)
Definition isWhiteSpace (c : N) : bool :=
  (c =? 9) || (c =? 10) || (c =? 11) || (c =? 12) || (c =? 13) ||
  (c =? 32) || (c =? 160) || (c =? 5760) ||
  ((8192 <=? c) && (c <=? 8202)) ||
  (c =? 8232) || (c =? 8233) || (c =? 8239) || (c =? 8287) ||
  (c =? 12288) || (c =? 65279).

Fixpoint trimStart (s : jsstring) : jsstring :=
  match s with
  | c :: s' => if isWhiteSpace c then trimStart s' else s
  | [] => []
  end.

Definition trimEnd (s : jsstring) : jsstring :=
  rev (trimStart (rev s)).

(** [s.trim()] *)
Definition trim (s : jsstring) : jsstring :=
  trimEnd (trimStart s).

(** Truthiness of a string: [!value] is true exactly on the empty string. *)
Definition truthy (s : jsstring) : bool :=
  match s with [] => false | _ :: _ => true end.

(** [a === b] on strings *)
Definition str_eqb (a b : jsstring) : bool := bool_decide (a = b).

End JsString.
Import JsString.

(** ** Regular expressions

    The source's only regular expression is anchored on both sides and is
    used through [RegExp.prototype.test], so testing is membership of the
    whole string in the expression's language. The matcher below decides
    it by taking derivatives code unit by code unit. *)

Module Regex.

Inductive regex : Type :=
| Void : regex
| Eps : regex
| Class (p : N → bool) : regex
| Cat (r1 r2 : regex) : regex
| Alt (r1 r2 : regex) : regex
| Star (r : regex) : regex.

(** [r+] *)
Definition Plus (r : regex) : regex := Cat r (Star r).

(** A literal code unit, as in [@] or [\.] *)
Definition Lit (c : N) : regex := Class (N.eqb c).

Fixpoint nullable (r : regex) : bool :=
  match r with
  | Void => false
  | Eps => true
  | Class _ => false
  | Cat r1 r2 => nullable r1 && nullable r2
  | Alt r1 r2 => nullable r1 || nullable r2
  | Star _ => true
  end.

Fixpoint deriv (c : N) (r : regex) : regex :=
  match r with
  | Void => Void
  | Eps => Void
  | Class p => if p c then Eps else Void
  | Cat r1 r2 =>
      if nullable r1
      then Alt (Cat (deriv c r1) r2) (deriv c r2)
      else Cat (deriv c r1) r2
  | Alt r1 r2 => Alt (deriv c r1) (deriv c r2)
  | Star r1 => Cat (deriv c r1) (Star r1)
  end.

(** [/^r$/.test(s)] *)
Fixpoint test (r : regex) (s : jsstring) : bool :=
  match s with
  | [] => nullable r
  | c :: s' => test (deriv c r) s'
  end.

(** The language of an expression, as the usual inductive relation. *)
Inductive Matches : regex → jsstring → Prop :=
| MEps : Matches Eps []
| MClass p c : p c = true → Matches (Class p) [c]
| MCat r1 r2 s1 s2 :
    Matches r1 s1 → Matches r2 s2 → Matches (Cat r1 r2) (s1 ++ s2)
| MAltL r1 r2 s : Matches r1 s → Matches (Alt r1 r2) s
| MAltR r1 r2 s : Matches r2 s → Matches (Alt r1 r2) s
| MStarNil r : Matches (Star r) []
| MStarApp r s1 s2 :
    Matches r s1 → Matches (Star r) s2 → Matches (Star r) (s1 ++ s2).

(** [[^\s@]]: any code unit that is neither white space nor [@] *)
Definition notSpaceAt (c : N) : bool :=
  negb (isWhiteSpace c) && negb (c =? 64).

(** [/^[^\s@]+@[^\s@]+\.[^\s@]+$/] (script.js line 540) *)
Definition emailRegex : regex :=
  Cat (Plus (Class notSpaceAt))
    (Cat (Lit 64)
       (Cat (Plus (Class notSpaceAt))
          (Cat (Lit 46)
             (Plus (Class notSpaceAt))))).

End Regex.
Import Regex.

(** The e-mail pattern in the words of the specification: one or more
    characters that are neither white space nor [@], an [@], one or more
    such characters, a literal dot, one or more such characters. *)
Definition email_shape (v : jsstring) : Prop :=
  ∃ l d t : jsstring,
    v = l ++ [64] ++ d ++ [46] ++ t ∧
    l ≠ [] ∧ d ≠ [] ∧ t ≠ [] ∧
    Forall (λ c, notSpaceAt c = true) l ∧
    Forall (λ c, notSpaceAt c = true) d ∧
    Forall (λ c, notSpaceAt c = true) t.


(** ** The document

    The part of the page that the contact form and the notifications read
    and write. *)

(** A double quote, for the attribute values inside HTML templates. *)
Definition dq : jsstring := [34].

(** A form control: an enabled [input] or [textarea] of the contact form.
    [f_value] is what the getter [field.value] returns, that is, the value
    after the sanitization the browser applies for the type of the control;
    for a checkbox, a radio button or a file input the record does not say
    whether it is checked or which files it holds. *)
Record field : Type := Field {
  f_name : jsstring;          (* field.name; empty when there is no name *)
  f_type : jsstring;          (* field.type *)
  f_required : bool;          (* field.hasAttribute('required') *)
  f_value : jsstring;         (* field.value *)
  f_defaultValue : jsstring;  (* the value form.reset() restores *)
  f_classList : list jsstring;
  f_borderColor : jsstring;   (* field.style.borderColor *)
  f_boxShadow : jsstring;     (* field.style.boxShadow *)
  f_parentNode : nat          (* the container element the field sits in *)
}.

(** An element created by the script: an inline error message or a
    notification. [el_id] stands for the identity of the JavaScript object. *)
Record element : Type := Element {
  el_id : nat;
  el_className : jsstring;
  el_cssText : jsstring;
  el_innerHTML : jsstring
}.

Record button : Type := Button {
  b_disabled : bool;
  b_innerHTML : jsstring
}.

(** A request handed to [fetch]. *)
Record request : Type := Request {
  rq_url : jsstring;
  rq_method : jsstring;
  rq_body : list (jsstring * jsstring);
  rq_accept : jsstring
}.

(** What the browser has queued for later: a [setTimeout] callback that
    dismisses a notification, or the end of a gsap tween on a notification
    (with or without the [onComplete] callback of [dismissNotification]).
    A timer is due when its delay has passed; when a tween ends is for the
    environment to say. *)
Inductive task : Type :=
| Timeout (timer : nat) (notification : nat)
| TweenEnd (target : nat) (onComplete : bool).

(** What the surroundings of the script decide and the script cannot
    change.

    [tweenEnd start duration]: gsap advances its tweens on the ticks of its
    own clock (animation frames), so when a tween of a nominal duration
    (ms) that is started at a time (ms) completes, and its [onComplete]
    runs, is up to that clock: near [start + duration], and possibly
    before or after it.

    [inherited key]: the string form of [Object.prototype[key]], which a
    lookup [object[key]] falls back to when [object] has no own property
    [key]; [None] when there is no such property either ([undefined]). *)
Record environment : Type := Environment {
  tweenEnd : N → N → N;
  inherited : jsstring → option jsstring
}.

Record page : Type := Page {
  fields : gmap nat field;
  (* Of the element tree only what the script can see is kept. For each
     container (the parentNode of a control): its descendants matching
     '.error-message', in document order, which is what querySelector
     searches; an element appended to the container comes last. Containers
     of different ids are disjoint subtrees. *)
  errorMessages : gmap nat (list element);
  formAction : jsstring;
  formElements : list nat;          (* the form's controls, in document order *)
  submitButton : button;
  body : list element;              (* the notifications attached to document.body *)
  clickListeners : gmap nat nat;    (* notification -> the timer its click listener clears *)
  agenda : list (N * task);         (* queued tasks with the time (ms) they are due *)
  now : N;                          (* the clock, in ms *)
  nextId : nat;                     (* identity of the next object created *)
  requests : list request;          (* the calls made to fetch, oldest first *)
  env : environment                 (* what the surroundings decide *)
}.

Definition set_fields (x : gmap nat field) (s : page) : page :=
  Page x (errorMessages s) (formAction s) (formElements s) (submitButton s)
    (body s) (clickListeners s) (agenda s) (now s) (nextId s) (requests s) (env s).
Definition set_errorMessages (x : gmap nat (list element)) (s : page) : page :=
  Page (fields s) x (formAction s) (formElements s) (submitButton s)
    (body s) (clickListeners s) (agenda s) (now s) (nextId s) (requests s) (env s).
Definition set_submitButton (x : button) (s : page) : page :=
  Page (fields s) (errorMessages s) (formAction s) (formElements s) x
    (body s) (clickListeners s) (agenda s) (now s) (nextId s) (requests s) (env s).
Definition set_body (x : list element) (s : page) : page :=
  Page (fields s) (errorMessages s) (formAction s) (formElements s)
    (submitButton s) x (clickListeners s) (agenda s) (now s) (nextId s)
    (requests s) (env s).
Definition set_clickListeners (x : gmap nat nat) (s : page) : page :=
  Page (fields s) (errorMessages s) (formAction s) (formElements s)
    (submitButton s) (body s) x (agenda s) (now s) (nextId s) (requests s) (env s).
Definition set_agenda (x : list (N * task)) (s : page) : page :=
  Page (fields s) (errorMessages s) (formAction s) (formElements s)
    (submitButton s) (body s) (clickListeners s) x (now s) (nextId s)
    (requests s) (env s).
Definition set_now (x : N) (s : page) : page :=
  Page (fields s) (errorMessages s) (formAction s) (formElements s)
    (submitButton s) (body s) (clickListeners s) (agenda s) x (nextId s)
    (requests s) (env s).
Definition set_nextId (x : nat) (s : page) : page :=
  Page (fields s) (errorMessages s) (formAction s) (formElements s)
    (submitButton s) (body s) (clickListeners s) (agenda s) (now s) x
    (requests s) (env s).
Definition set_requests (x : list request) (s : page) : page :=
  Page (fields s) (errorMessages s) (formAction s) (formElements s)
    (submitButton s) (body s) (clickListeners s) (agenda s) (now s)
    (nextId s) x (env s).

Definition set_classList (x : list jsstring) (f : field) : field :=
  Field (f_name f) (f_type f) (f_required f) (f_value f) (f_defaultValue f)
    x (f_borderColor f) (f_boxShadow f) (f_parentNode f).
Definition set_style (border shadow : jsstring) (f : field) : field :=
  Field (f_name f) (f_type f) (f_required f) (f_value f) (f_defaultValue f)
    (f_classList f) border shadow (f_parentNode f).
Definition set_value (x : jsstring) (f : field) : field :=
  Field (f_name f) (f_type f) (f_required f) x (f_defaultValue f)
    (f_classList f) (f_borderColor f) (f_boxShadow f) (f_parentNode f).
Definition set_innerHTML (x : jsstring) (e : element) : element :=
  Element (el_id e) (el_className e) (el_cssText e) x.

(** [classList.remove(c)] and [classList.add(c)] *)
Definition classList_remove (c : jsstring) (l : list jsstring) : list jsstring :=
  filter (λ x, x ≠ c) l.
Definition classList_add (c : jsstring) (l : list jsstring) : list jsstring :=
  if decide (c ∈ l) then l else l ++ [c].

(** [parent.querySelectorAll('.error-message')] for a container *)
Definition errorElements (p : nat) (s : page) : list element :=
  default [] (errorMessages s !! p).

(** ** Field validation (script.js lines 509-589) *)

Definition msgRequired : jsstring := js "This field is required.".
Definition msgEmail : jsstring := js "Please enter a valid email address.".

Definition errorCssText : jsstring := js "
      color: #ef4444;
      font-size: 0.875rem;
      margin-top: 0.25rem;
      display: flex;
      align-items: center;
      gap: 0.25rem;
    ".

Definition errorIcon : jsstring :=
  js "<i class=" ++ dq ++ js "fas fa-exclamation-circle" ++ dq ++
  js " aria-hidden=" ++ dq ++ js "true" ++ dq ++ js "></i>".

(** [removeFieldError(field)] *)
Definition removeFieldError (f : nat) (s : page) : page :=
  match fields s !! f with
  | None => s
  | Some field =>
      let parentNode := f_parentNode field in
      let errorElement := head (errorElements parentNode s) in
      let s1 :=
        match errorElement with
        | Some _ =>
            (* errorElement.remove() *)
            set_errorMessages
              (<[parentNode := tail (errorElements parentNode s)]> (errorMessages s)) s
        | None => s
        end in
      (* Reset field styling *)
      set_fields (<[f := set_style [] [] field]> (fields s1)) s1
  end.

(** [showFieldError(field, message)] *)
Definition showFieldError (f : nat) (message : jsstring) (s : page) : page :=
  match fields s !! f with
  | None => s
  | Some field =>
      let field1 := set_classList (classList_add (js "error") (f_classList field)) field in
      let parentNode := f_parentNode field in
      let html := errorIcon ++ message in
      let s1 :=
        match errorElements parentNode s with
        | errorElement :: rest =>
            set_errorMessages
              (<[parentNode := set_innerHTML html errorElement :: rest]> (errorMessages s)) s
        | [] =>
            (* createElement('div'), className, cssText, appendChild *)
            let errorElement := Element (nextId s) (js "error-message") errorCssText [] in
            set_nextId (S (nextId s))
              (set_errorMessages
                 (<[parentNode := [set_innerHTML html errorElement]]> (errorMessages s)) s)
        end in
      set_fields
        (<[f := set_style (js "#ef4444") (js "0 0 0 3px rgba(239, 68, 68, 0.1)") field1]>
           (fields s1)) s1
  end.

(** Lines 524-545 of [validateField]: the value of [isValid] and
    [errorMessage] once both checks have run. *)
Definition validateField_checks (field : field) : bool * jsstring :=
  let value := trim (f_value field) in
  let '(isValid, errorMessage) := (true, []) in
  (* Required field validation *)
  let '(isValid, errorMessage) :=
    if f_required field && negb (truthy value)
    then (false, msgRequired)
    else (isValid, errorMessage) in
  (* Email validation *)
  let '(isValid, errorMessage) :=
    if str_eqb (f_type field) (js "email") && truthy value
    then
      if negb (test emailRegex value)
      then (false, msgEmail)
      else (isValid, errorMessage)
    else (isValid, errorMessage) in
  (isValid, errorMessage).

(** [validateField({ target: field })] *)
Definition validateField (f : nat) (s : page) : bool * page :=
  match fields s !! f with
  | None => (true, s)
  | Some field =>
      let '(isValid, errorMessage) := validateField_checks field in
      (* Remove existing error styling *)
      let s1 :=
        set_fields
          (<[f := set_classList (classList_remove (js "error") (f_classList field)) field]>
             (fields s)) s in
      let s2 := removeFieldError f s1 in
      (* Show error if validation failed *)
      let s3 := if negb isValid then showFieldError f errorMessage s2 else s2 in
      (isValid, s3)
  end.

(** [form.querySelectorAll('[required]')] *)
Definition hasRequired (s : page) (f : nat) : bool :=
  match fields s !! f with
  | Some field => f_required field
  | None => false
  end.

Definition requiredFields (s : page) : list nat :=
  filter (λ f, hasRequired s f = true) (formElements s).

(** [validateForm(form)] *)
Definition validateForm (s : page) : bool * page :=
  fold_left
    (λ (acc : bool * page) (f : nat),
       let '(isValid, s0) := acc in
       let '(ok, s1) := validateField f s0 in
       (if negb ok then false else isValid, s1))
    (requiredFields s) (true, s).

(** ** Notifications (script.js lines 603-682) *)

(** The own properties of the objects [icons] and [colors]. *)
Definition icons (type : jsstring) : option jsstring :=
  if str_eqb type (js "success") then Some (js "fas fa-check-circle")
  else if str_eqb type (js "error") then Some (js "fas fa-exclamation-circle")
  else if str_eqb type (js "info") then Some (js "fas fa-info-circle")
  else if str_eqb type (js "warning") then Some (js "fas fa-exclamation-triangle")
  else None.

Definition colors (type : jsstring) : option jsstring :=
  if str_eqb type (js "success") then Some (js "linear-gradient(135deg, #10b981, #059669)")
  else if str_eqb type (js "error") then Some (js "linear-gradient(135deg, #ef4444, #dc2626)")
  else if str_eqb type (js "info") then Some (js "linear-gradient(135deg, #3b82f6, #2563eb)")
  else if str_eqb type (js "warning") then Some (js "linear-gradient(135deg, #f59e0b, #d97706)")
  else None.

(** [object[key]] on an object with the own properties [own]: the own
    property, else what [Object.prototype] has for the key, else
    [undefined] ([None]). *)
Definition getProperty (own : jsstring → option jsstring) (e : environment)
    (key : jsstring) : option jsstring :=
  match own key with
  | Some v => Some v
  | None => inherited e key
  end.

(** A value interpolated into a template literal. *)
Definition interpolate (v : option jsstring) : jsstring :=
  default (js "undefined") v.

(** The markup and the style text of a notification, given what
    [icons[type]] and [colors[type]] evaluate to. *)
Definition notificationHTML (message : jsstring) (icon : option jsstring) : jsstring :=
  js "<i class=" ++ dq ++ interpolate icon ++ dq ++
  js " aria-hidden=" ++ dq ++ js "true" ++ dq ++ js "></i> " ++ message.

Definition notificationCssText (color : option jsstring) : jsstring :=
  js "
    position: fixed;
    top: 100px;
    right: 20px;
    background: " ++ interpolate color ++ js ";
    color: white;
    padding: 16px 24px;
    border-radius: 12px;
    z-index: 10000;
    font-size: 14px;
    font-weight: 600;
    box-shadow: 0 10px 30px rgba(0,0,0,0.3);
    transform: translateX(400px);
    opacity: 0;
    display: flex;
    align-items: center;
    gap: 8px;
    max-width: 350px;
    pointer-events: auto;
    cursor: pointer;
  ".

(** The delay handed to [setTimeout]: [type === 'error' ? 5000 : 3000] *)
Definition dismissDelay (type : jsstring) : N :=
  if str_eqb type (js "error") then 5000 else 3000.

(** Durations of the entry tween (0.5 s) and of the exit tween (0.4 s), in ms. *)
Definition enterDuration : N := 500.
Definition exitDuration : N := 400.

(** [dismissNotification(notification)]: starts the exit tween; its
    [onComplete] runs when the tween ends, which gsap's clock decides. *)
Definition dismissNotification (notification : nat) (s : page) : page :=
  set_agenda
    (agenda s ++ [(tweenEnd (env s) (now s) exitDuration, TweenEnd notification true)]) s.

(** [showNotification(message, type)] *)
Definition showNotification (message type : jsstring) (s : page) : page :=
  let notification :=
    Element (nextId s) [] (notificationCssText (getProperty colors (env s) type))
      (notificationHTML message (getProperty icons (env s) type)) in
  let dismissTimeout := S (nextId s) in
  (* document.body.appendChild(notification) *)
  let s1 := set_body (body s ++ [notification]) s in
  (* Animate in *)
  let s2 :=
    set_agenda
      (agenda s1 ++
       [(tweenEnd (env s1) (now s1) enterDuration, TweenEnd (el_id notification) false)]) s1 in
  (* Auto-dismiss *)
  let s3 :=
    set_agenda
      (agenda s2 ++ [(now s2 + dismissDelay type, Timeout dismissTimeout (el_id notification))]) s2 in
  (* Manual dismiss on click *)
  let s4 := set_clickListeners (<[el_id notification := dismissTimeout]> (clickListeners s3)) s3 in
  set_nextId (S (S (nextId s))) s4.

(** [clearTimeout(id)]: a timer that already ran or was cleared is left alone. *)
Definition isTimer (timer : nat) (e : N * task) : bool :=
  match snd e with
  | Timeout t _ => bool_decide (t = timer)
  | TweenEnd _ _ => false
  end.

Definition clearTimeout (timer : nat) (s : page) : page :=
  set_agenda (filter (λ e, isTimer timer e = false) (agenda s)) s.

(** The click listener installed by [showNotification]. *)
Definition click (notification : nat) (s : page) : page :=
  match clickListeners s !! notification with
  | Some dismissTimeout => dismissNotification notification (clearTimeout dismissTimeout s)
  | None => s
  end.

(** [notification.parentNode] is non-null *)
Definition attached (notification : nat) (s : page) : bool :=
  bool_decide (notification ∈ map el_id (body s)).

(** [document.body.removeChild(notification)]; throws (here: [None]) when
    the node is not a child of the body. *)
Definition removeChild (notification : nat) (s : page) : option page :=
  if attached notification s
  then Some (set_body (filter (λ e, el_id e ≠ notification) (body s)) s)
  else None.

(** The [onComplete] callback of the exit tween. *)
Definition onComplete (notification : nat) (s : page) : option page :=
  if attached notification s then removeChild notification s else Some s.

(** ** The event loop: timers and tween ends run when they are due *)

Definition runTask (tk : task) (s : page) : option page :=
  match tk with
  | Timeout _ notification => Some (dismissNotification notification s)
  | TweenEnd target true => onComplete target s
  | TweenEnd _ false => Some s
  end.

(** The task that runs next, the earliest one (among equals, the one queued
    first), and the agenda without it. *)
Fixpoint popEarliest (a : list (N * task)) : option ((N * task) * list (N * task)) :=
  match a with
  | [] => None
  | e :: a' =>
      match popEarliest a' with
      | Some (e', rest) => if fst e' <? fst e then Some (e', e :: rest) else Some (e, a')
      | None => Some (e, a')
      end
  end.

Fixpoint runFuel (fuel : nat) (t : N) (s : page) : option page :=
  match fuel with
  | O => Some (set_now (N.max (now s) t) s)
  | S fuel' =>
      match popEarliest (agenda s) with
      | Some ((d, tk), rest) =>
          if d <=? t
          then runTask tk (set_now (N.max (now s) d) (set_agenda rest s)) ≫= runFuel fuel' t
          else Some (set_now (N.max (now s) t) s)
      | None => Some (set_now (N.max (now s) t) s)
      end
  end.

(** A timer can queue one tween end; a tween end queues nothing. *)
Definition weight (a : list (N * task)) : nat :=
  sum_list_with (λ e, match snd e with Timeout _ _ => 2 | TweenEnd _ _ => 1 end)%nat a.

(** Let time pass until [t], running every task that falls due. [None]
    means that a callback threw. *)
Definition advanceTo (t : N) (s : page) : option page :=
  runFuel (weight (agenda s)) t s.

(** ** Submission (script.js lines 474-507) *)

Definition busyLabel : jsstring :=
  js "<i class=" ++ dq ++ js "fas fa-spinner fa-spin" ++ dq ++ js "></i> Sending...".
Definition msgSuccess : jsstring := js "Thank you! Your message has been sent.".
Definition msgServerRejected : jsstring :=
  js "Sorry, there was an error sending your message. Please try again.".
Definition msgNetworkFailure : jsstring := js "Network error. Please try again later.".

(** A string as a sequence of Unicode scalar values: every surrogate code
    unit that is not part of a pair becomes U+FFFD. *)
Definition isHighSurrogate (c : N) : bool := (55296 <=? c) && (c <=? 56319).
Definition isLowSurrogate (c : N) : bool := (56320 <=? c) && (c <=? 57343).

Fixpoint toUSVString (v : list N) : list N :=
  match v with
  | [] => []
  | c :: v' =>
      if isHighSurrogate c
      then
        match v' with
        | d :: v'' =>
            if isLowSurrogate d then c :: d :: toUSVString v'' else 65533 :: toUSVString v'
        | [] => [65533]
        end
      else if isLowSurrogate c then 65533 :: toUSVString v'
      else c :: toUSVString v'
  end.

(** The types of the inputs that are buttons; without a submitter none of
    them contributes to the form data. *)
Definition buttonTypes : list jsstring :=
  [js "submit"; js "button"; js "reset"; js "image"].

(** The types of the inputs whose contribution to the form data depends on
    more than their value. *)
Definition valuelessTypes : list jsstring :=
  [js "checkbox"; js "radio"; js "file"].

(** The entry of a control in the form data: none for a control without a
    name and for a button; else its name and its value, as scalar value
    strings. *)
Definition formDataEntry (field : field) : option (jsstring * jsstring) :=
  if negb (truthy (f_name field)) || bool_decide (f_type field ∈ buttonTypes)
  then None
  else Some (toUSVString (f_name field), toUSVString (f_value field)).

(** [new FormData(form)], its entry list, for a form whose controls are
    text controls: none of a type in [valuelessTypes]. *)
Definition FormData (s : page) : list (jsstring * jsstring) :=
  omap (λ f, fields s !! f ≫= formDataEntry) (formElements s).

(** [form.reset()] *)
Definition form_reset (s : page) : page :=
  set_fields
    (foldr (λ f m, alter (λ field, set_value (f_defaultValue field) field) f m)
       (fields s) (formElements s)) s.

(** How the promise returned by [fetch] settles. *)
Inductive settlement : Type :=
| Response (status : N)
| Rejected.

(** [response.ok] *)
Definition ok (status : N) : bool := (200 <=? status) && (status <=? 299).

(** What [handleContactSubmit] keeps across its [await]. *)
Record suspended : Type := Suspended {
  originalButtonContent : jsstring
}.

(** [handleContactSubmit(e)] up to the [await]: [None] when validation
    stopped it before anything was sent. *)
Definition handleContactSubmit_begin (s : page) : option suspended * page :=
  let originalButtonContent := b_innerHTML (submitButton s) in
  (* Validate form *)
  let '(valid, s1) := validateForm s in
  if negb valid then (None, s1) else
  let s2 := set_submitButton (Button true busyLabel) s1 in
  let formData := FormData s2 in
  let s3 :=
    set_requests
      (requests s2 ++ [Request (formAction s2) (js "POST") formData (js "application/json")])
      s2 in
  (Some (Suspended originalButtonContent), s3).

(** [handleContactSubmit(e)] from the [await] on, once [fetch] has settled. *)
Definition handleContactSubmit_resume (k : suspended) (r : settlement) (s : page) : page :=
  let s1 :=
    match r with
    | Response status =>
        if ok status
        then form_reset (showNotification msgSuccess (js "success") s)
        else showNotification msgServerRejected (js "error") s
    | Rejected => showNotification msgNetworkFailure (js "error") s
    end in
  (* finally *)
  set_submitButton (Button false (originalButtonContent k)) s1.


(** ** Reading the outcome of a validation *)

(** The field-level failure reasons of the specification, and the message
    the script shows for each. *)
Inductive reason : Type := MissingValue | InvalidFormat.

Definition reasonMessage (r : reason) : jsstring :=
  match r with
  | MissingValue => msgRequired
  | InvalidFormat => msgEmail
  end.

(** The inline message of a field: the content of the error element that
    [field.parentNode.querySelector('.error-message')] finds. *)
Definition inlineError (f : nat) (s : page) : option jsstring :=
  field ← fields s !! f;
  el_innerHTML <$> head (errorElements (f_parentNode field) s).

(** Validating field [f] in page [s] fails and shows the message of [r]. *)
Definition failsWith (f : nat) (s : page) (r : reason) : Prop :=
  fst (validateField f s) = false ∧
  inlineError f (snd (validateField f s)) = Some (errorIcon ++ reasonMessage r).

(** The parts of the page that validation never touches. *)
Definition surroundings (s : page) :=
  (formAction s, formElements s, submitButton s, body s,
   clickListeners s, agenda s, now s, requests s, env s).

(** The attributes of a control that validation reads and never writes. *)
Definition fieldData (field : field) :=
  (f_name field, f_type field, f_required field, f_value field,
   f_defaultValue field, f_parentNode field).

(** [validateForm] once more, recording each call it makes to
    [validateField] with the verdict the call returned, oldest first. *)
Definition validateForm_calls (s : page) : list (nat * bool) * page :=
  fold_left
    (λ (acc : list (nat * bool) * page) (f : nat),
       let '(calls, s0) := acc in
       let '(ok, s1) := validateField f s0 in
       (calls ++ [(f, ok)], s1))
    (requiredFields s) ([], s).

(** ** Events

    What can happen to the page: the user edits or leaves a control or
    submits the form, a pending [fetch] settles, somebody asks for a
    notification, the user clicks one, time passes. *)
Inductive event : Type :=
| Input (f : nat) (value : jsstring)
| Blur (f : nat)
| Submit
| Settle (k : suspended) (r : settlement)
| Notify (message type : jsstring)
| Click (notification : nat)
| Elapse (t : N).

(** The handlers [initContactForm] and [showNotification] install, and the
    event loop. [None] means that a callback threw. *)
Definition handle (e : event) (s : page) : option page :=
  match e with
  | Input f value =>
      Some (snd (validateField f (set_fields (alter (set_value value) f (fields s)) s)))
  | Blur f => Some (snd (validateField f s))
  | Submit => Some (snd (handleContactSubmit_begin s))
  | Settle k r => Some (handleContactSubmit_resume k r s)
  | Notify message type => Some (showNotification message type s)
  | Click notification => Some (click notification s)
  | Elapse t => advanceTo t s
  end.

(** The field validations an event runs, with their verdicts, oldest first. *)
Definition validations (e : event) (s : page) : list (nat * bool) :=
  match e with
  | Input f value =>
      let s1 := set_fields (alter (set_value value) f (fields s)) s in
      match fields s !! f with
      | Some _ => [(f, fst (validateField f s1))]
      | None => []
      end
  | Blur f =>
      match fields s !! f with
      | Some _ => [(f, fst (validateField f s))]
      | None => []
      end
  | Submit => fst (validateForm_calls s)
  | _ => []
  end.

(** The most recent verdict of each field, after some more validations. *)
Definition record (calls : list (nat * bool)) (last : gmap nat bool) : gmap nat bool :=
  fold_left (λ m c, <[fst c := snd c]> m) calls last.

(** Running a sequence of events, keeping the most recent verdict of each
    field alongside the page. *)
Fixpoint run (es : list event) (s : page) (last : gmap nat bool) :
    option (page * gmap nat bool) :=
  match es with
  | [] => Some (s, last)
  | e :: es' =>
      match handle e s with
      | Some s' => run es' s' (record (validations e s) last)
      | None => None
      end
  end.

(** The submission outcomes of the specification. *)
Inductive outcome : Type := Success | ServerRejected | NetworkFailure.

Definition classify (r : settlement) : outcome :=
  match r with
  | Response status => if ok status then Success else ServerRejected
  | Rejected => NetworkFailure
  end.

(** The notification [showNotification(message, type)] attaches when the
    next free identity is [id], for a [type] that the lookups in [icons]
    and [colors] settle without [Object.prototype]: one of their four keys,
    or a key that [Object.prototype] does not have either. *)
Definition notificationElement (id : nat) (message type : jsstring) : element :=
  Element id [] (notificationCssText (colors type)) (notificationHTML message (icons type)).

(** ** Vocabulary of the statements *)

(** Two pages whose controls carry the same data. *)
Definition sameData (s s' : page) : Prop :=
  ∀ g, fieldData <$> fields s' !! g = fieldData <$> fields s !! g.

(** Validating the controls of a list one after the other. *)
Fixpoint validateAll (l : list nat) (s : page) : list (nat * bool) * page :=
  match l with
  | [] => ([], s)
  | f :: l' =>
      let '(ok, s1) := validateField f s in
      let '(calls, s2) := validateAll l' s1 in
      ((f, ok) :: calls, s2)
  end.

(** One validation of a control, together with the bookkeeping of [run]. *)
Definition validateStep (f : nat) (x : page * gmap nat bool) : page * gmap nat bool :=
  (snd (validateField f (fst x)), <[f := fst (validateField f (fst x))]> (snd x)).

(** The visual error state of a control after a validation with verdict
    [ok]: the class [error] and the red border and shadow are there exactly
    when the validation failed. *)
Definition markedAs (ok : bool) (field : field) : Prop :=
  (js "error" ∈ f_classList field ↔ ok = false) ∧
  f_borderColor field = (if ok then [] else js "#ef4444") ∧
  f_boxShadow field = (if ok then [] else js "0 0 0 3px rgba(239, 68, 68, 0.1)").

(** What a control looks like and where it sits. *)
Definition look (field : field) :=
  (f_classList field, f_borderColor field, f_boxShadow field, f_parentNode field).

(** Two pages whose controls look the same and that show the same inline
    error messages. *)
Definition sameLook (s s' : page) : Prop :=
  (∀ g, look <$> fields s' !! g = look <$> fields s !! g) ∧
  errorMessages s' = errorMessages s.

(** Every control sits in a container of its own. *)
Definition ownContainers (s : page) : Prop :=
  ∀ f g a b,
    fields s !! f = Some a → fields s !! g = Some b →
    f_parentNode a = f_parentNode b → f = g.

(** No container of a control holds an error message. *)
Definition noErrorMessages (s : page) : Prop :=
  ∀ f field, fields s !! f = Some field → errorElements (f_parentNode field) s = [].

(** The visual error state of each control is that of its most recent
    validation. *)
Definition markInvariant (x : page * gmap nat bool) : Prop :=
  ∀ f ok, snd x !! f = Some ok →
    ∃ field, fields (fst x) !! f = Some field ∧ markedAs ok field.

(** The container of a control whose most recent validation failed holds
    exactly one error element, with some content; the container of any
    other control holds none. *)
Definition messageInvariant (x : page * gmap nat bool) : Prop :=
  ownContainers (fst x) ∧
  ∀ f field, fields (fst x) !! f = Some field →
    match snd x !! f with
    | Some false =>
        ∃ e, errorElements (f_parentNode field) (fst x) = [e] ∧ el_innerHTML e ≠ []
    | _ => errorElements (f_parentNode field) (fst x) = []
    end.

(** The parts of the page that belong to the form or to the surroundings. *)
Definition formPart (s : page) :=
  (fields s, errorMessages s, formAction s, formElements s, submitButton s,
   requests s, env s, nextId s).


(** The page once [validateField] has taken the class [error] off the control. *)
Definition withoutErrorClass (f : nat) (field : field) (s : page) : page :=
  set_fields
    (<[f := set_classList (classList_remove (js "error") (f_classList field)) field]>
       (fields s)) s.

(** ** The life of one notification *)

(** The queued tasks that concern notification [n]: the timers that will
    dismiss it, and the ends of its exit tweens. *)
Definition isTimeoutFor (n : nat) (e : N * task) : bool :=
  match snd e with
  | Timeout _ m => bool_decide (m = n)
  | TweenEnd _ _ => false
  end.

Definition isExitFor (n : nat) (e : N * task) : bool :=
  match snd e with
  | TweenEnd m true => bool_decide (m = n)
  | _ => false
  end.

Definition timersOf (n : nat) (a : list (N * task)) : list (N * task) :=
  filter (λ e, isTimeoutFor n e = true) a.

Definition exitsOf (n : nat) (a : list (N * task)) : list (N * task) :=
  filter (λ e, isExitFor n e = true) a.

(** A notification waits for its timer, then leaves (its exit tween runs),
    then is gone from the document. *)
Inductive phase : Type := Waiting | Leaving | Gone.

(** Notification [n], whose timer is due at [D] and whose exit tween, once
    the timer has started it, completes at [E], is in the given phase. *)
Definition inPhase (n : nat) (D E : N) (s : page) (p : phase) : Prop :=
  match p with
  | Waiting =>
      attached n s = true ∧
      timersOf n (agenda s) = [(D, Timeout (S n) n)] ∧
      exitsOf n (agenda s) = []
  | Leaving =>
      attached n s = true ∧
      timersOf n (agenda s) = [] ∧
      exitsOf n (agenda s) ≠ [] ∧
      Forall (λ e, fst e = E) (exitsOf n (agenda s))
  | Gone => attached n s = false ∧ timersOf n (agenda s) = []
  end.

(** When the exit tween completes that the timer due at [D] starts. *)
Definition exitEnd (s : page) (D : N) : N := tweenEnd (env s) D exitDuration.

(** Nothing created later can be mistaken for [n] or for its timer, and no
    other notification's click listener clears the timer of [n]. *)
Definition settled (n : nat) (s : page) : Prop :=
  (S n < nextId s)%nat ∧
  ∀ m t, clickListeners s !! m = Some t → m ≠ n → t ≠ S n.

(** Between two events: the phase of [n] is the one the clock says. *)
Definition onTime (n : nat) (D : N) (s : page) : Prop :=
  settled n s ∧
  ((inPhase n D (exitEnd s D) s Waiting ∧ now s < D) ∨
   (inPhase n D (exitEnd s D) s Leaving ∧ D ≤ now s < exitEnd s D) ∨
   (inPhase n D (exitEnd s D) s Gone ∧ D ≤ now s ∧ exitEnd s D ≤ now s)).

(** While the event loop runs the tasks due until [t], having started at
    time [t0]. *)
Definition underway (n : nat) (D t0 t : N) (s : page) : Prop :=
  settled n s ∧
  now s ≤ N.max t0 t ∧
  ((inPhase n D (exitEnd s D) s Waiting ∧ now s ≤ D ∧ t0 < D) ∨
   (inPhase n D (exitEnd s D) s Leaving ∧ D ≤ N.max t0 t ∧
    (t0 < exitEnd s D ∨ t0 < D)) ∨
   (inPhase n D (exitEnd s D) s Gone ∧ D ≤ N.max t0 t ∧ exitEnd s D ≤ N.max t0 t)).

(** Every identity in use was handed out before [nextId]. *)
Definition freshIds (s : page) : Prop :=
  Forall (λ e, (el_id e < nextId s)%nat) (body s) ∧
  Forall (λ e, match snd e with
               | Timeout t m => (t < nextId s)%nat ∧ (m < nextId s)%nat
               | TweenEnd m _ => (m < nextId s)%nat
               end) (agenda s) ∧
  map_Forall (λ m t, (m < nextId s)%nat ∧ (t < nextId s)%nat) (clickListeners s).

(** The user never clicks notification [n] during the events [es]. *)
Definition isClickOn (n : nat) (e : event) : bool :=
  match e with
  | Click m => bool_decide (m = n)
  | _ => false
  end.

Definition untouched (n : nat) (es : list event) : Prop :=
  forallb (λ e, negb (isClickOn n e)) es = true.

(** Timer [t] is not queued (it ran, was cleared, or was never set). *)
Definition notQueued (t : nat) (s : page) : Prop :=
  Forall (λ e, isTimer t e = false) (agenda s).

(** Timer [t] was handed out and is not queued: nothing can queue it again. *)
Definition cancelled (t : nat) (s : page) : Prop :=
  notQueued t s ∧ (t < nextId s)%nat.

(** Every timer on the agenda is the one that the click listener of the
    notification it dismisses clears. *)
Definition listenersMatch (s : page) : Prop :=
  Forall (λ e, match snd e with
               | Timeout t m => clickListeners s !! m = Some t
               | TweenEnd _ _ => True
               end) (agenda s).

(** The controls of the form are text controls. *)
Definition textControls (s : page) : Prop :=
  ∀ f field, f ∈ formElements s → fields s !! f = Some field →
    f_type field ∉ valuelessTypes.

(** No code unit of the string is a surrogate. *)
Definition noSurrogates (v : list N) : Prop :=
  Forall (λ c, isHighSurrogate c = false ∧ isLowSurrogate c = false) v.

(** An event of the page other than the passing of time. *)
Definition isElapse (e : event) : bool :=
  match e with
  | Elapse _ => true
  | _ => false
  end.

(** A container holds at most one inline error element. *)
Definition atMostOne (s : page) : Prop :=
  ∀ p, (length (errorElements p s) ≤ 1)%nat.

(** ** A sample page

    A contact form with a name, an e-mail address and a message, each
    control in a container of its own; used to evaluate the definitions. *)

Definition sampleField (name type : string) (required : bool) (value : jsstring)
    (parentNode : nat) : field :=
  Field (js name) (js type) required value [] [] [] [] parentNode.

(** [Object.prototype] as Chrome prints its properties. *)
Definition nativeFunctions : list string :=
  ["__defineGetter__"; "__defineSetter__"; "__lookupGetter__"; "__lookupSetter__";
   "hasOwnProperty"; "isPrototypeOf"; "propertyIsEnumerable"; "toLocaleString";
   "toString"; "valueOf"]%string.

Definition sampleInherited (key : jsstring) : option jsstring :=
  if str_eqb key (js "__proto__") then Some (js "[object Object]")
  else if str_eqb key (js "constructor") then Some (js "function Object() { [native code] }")
  else if bool_decide (key ∈ map js nativeFunctions)
       then Some (js "function " ++ key ++ js "() { [native code] }")
       else None.

(** A clock on which every tween takes just its nominal duration. *)
Definition exactClock : environment :=
  Environment (λ start duration, start + duration) sampleInherited.

(** A clock that ticks every 16 ms: a tween starts with the last tick
    before the call and completes with the first tick at which its
    duration has passed. *)
Definition frameClock : environment :=
  Environment
    (λ start duration, 16 * ((16 * (start / 16) + duration + 15) / 16))
    sampleInherited.

Definition samplePageIn (e : environment) (name email message : jsstring) : page :=
  Page
    (<[1%nat := sampleField "name" "text" true name 10]>
       (<[2%nat := sampleField "email" "email" true email 20]>
          (<[3%nat := sampleField "message" "textarea" true message 30]> ∅)))
    ∅ (js "https://formspree.io/f/contact") [1%nat; 2%nat; 3%nat]
    (Button false (js "Send Message")) [] ∅ [] 0 100 [] e.

Definition samplePage (name email message : jsstring) : page :=
  samplePageIn exactClock name email message.


(** ** Functions beside the claims' code *)

(** [clearFieldError({ target: field })] (script.js lines 591-597) *)
Definition clearFieldError (f : nat) (s : page) : page :=
  match fields s !! f with
  | None => s
  | Some field =>
      if bool_decide (js "error" ∈ f_classList field) && truthy (trim (f_value field))
      then
        removeFieldError f
          (set_fields
             (<[f := set_classList (classList_remove (js "error") (f_classList field)) field]>
                (fields s)) s)
      else s
  end.

Definition msgCvStarted : jsstring :=
  js "CV download started! Check your downloads folder.".
Definition msgCvFailed : jsstring :=
  js "Download failed. Please contact me directly for my CV.".

(** The temporary link of [downloadCV]; its [href] and [download]
    attributes have no counterpart in [element]. *)
Definition cvLink (id : nat) : element :=
  Element id [] (js "display: none;") [].

(** [downloadCV()] (script.js lines 688-719), called from a click whose
    target has [downloadBtn] as closest [.btn-primary] (if any);
    [clickThrows] says whether [link.click()] throws. [None] means that
    the function itself threw. *)
Definition downloadCV (downloadBtn : option nat) (clickThrows : bool) (s : page) :
    option page :=
  (* Create download notification *)
  let s1 := showNotification msgCvStarted (js "success") s in
  (* Animate button: 0.3 s there and 0.3 s back *)
  let s2 :=
    match downloadBtn with
    | Some b =>
        set_agenda (agenda s1 ++ [(tweenEnd (env s1) (now s1) 600, TweenEnd b false)]) s1
    | None => s1
    end in
  (* Create a temporary link for download *)
  let link := cvLink (nextId s2) in
  let s3 := set_nextId (S (nextId s2)) (set_body (body s2 ++ [link]) s2) in
  (* Trigger download: try / catch *)
  let s4 := if clickThrows then showNotification msgCvFailed (js "error") s3 else s3 in
  (* finally *)
  removeChild (el_id link) s4.

(** The code units of a string that are [@]. *)
Definition atSigns (v : list N) : list N := filter (λ c, c = 64) v.

(** Every identity in use was handed out, and no two elements attached to
    the body share one. *)
Definition wellNumbered (s : page) : Prop :=
  freshIds s ∧ NoDup (map el_id (body s)).

(** Notification [n] has the click listener that [showNotification] gave
    it, on a page that is well numbered and whose timers are those that
    the click listeners clear. *)
Definition listening (n : nat) (s : page) : Prop :=
  wellNumbered s ∧ listenersMatch s ∧ clickListeners s !! n = Some (S n).

(** ** debounce (script.js lines 9-19)

    The closure [debounce(func, wait)] returns owns the variable
    [timeout]. Its state is kept with the browser's timers and with the
    world [func] acts on; [func] itself does not touch the timers. *)

Record debounceState (A W : Type) : Type := DebounceState {
  db_timeout : option nat;            (* the variable [timeout]; [None] is undefined *)
  db_timers : list (N * (nat * A));   (* pending timers: due time, identity, args of [later] *)
  db_now : N;                         (* the clock, in ms *)
  db_nextTimer : nat;                 (* identity of the next timer *)
  db_world : W                        (* what [func] reads and writes *)
}.
Arguments DebounceState {A W}.
Arguments db_timeout {A W}.
Arguments db_timers {A W}.
Arguments db_now {A W}.
Arguments db_nextTimer {A W}.
Arguments db_world {A W}.

Definition db_set_timers {A W} (x : list (N * (nat * A))) (st : debounceState A W) :
    debounceState A W :=
  DebounceState (db_timeout st) x (db_now st) (db_nextTimer st) (db_world st).
Definition db_set_world {A W} (x : W) (st : debounceState A W) : debounceState A W :=
  DebounceState (db_timeout st) (db_timers st) (db_now st) (db_nextTimer st) x.
Definition db_set_now {A W} (x : N) (st : debounceState A W) : debounceState A W :=
  DebounceState (db_timeout st) (db_timers st) x (db_nextTimer st) (db_world st).

(** [clearTimeout(timeout)]; clearing [undefined], or a timer that already
    ran, does nothing. *)
Definition db_clearTimeout {A W} (timeout : option nat) (st : debounceState A W) :
    debounceState A W :=
  match timeout with
  | Some i => db_set_timers (filter (λ e, fst (snd e) ≠ i) (db_timers st)) st
  | None => st
  end.

(** [later]: the callback handed to [setTimeout] *)
Definition later {A W} (func : A → W → W) (args : A) (st : debounceState A W) :
    debounceState A W :=
  let st1 := db_clearTimeout (db_timeout st) st in
  db_set_world (func args (db_world st1)) st1.

(** [executedFunction(...args)]: the function [debounce] returns *)
Definition executedFunction {A W} (wait : N) (args : A) (st : debounceState A W) :
    debounceState A W :=
  let st1 := db_clearTimeout (db_timeout st) st in
  (* timeout = setTimeout(later, wait) *)
  DebounceState (Some (db_nextTimer st1))
    (db_timers st1 ++ [(db_now st1 + wait, (db_nextTimer st1, args))])
    (db_now st1) (S (db_nextTimer st1)) (db_world st1).

(** The entry that is due first (among equals, the one queued first), and
    the list without it. *)
Fixpoint popDue {B} (a : list (N * B)) : option ((N * B) * list (N * B)) :=
  match a with
  | [] => None
  | e :: a' =>
      match popDue a' with
      | Some (e', rest) => if fst e' <? fst e then Some (e', e :: rest) else Some (e, a')
      | None => Some (e, a')
      end
  end.

Fixpoint db_runFuel {A W} (func : A → W → W) (fuel : nat) (t : N)
    (st : debounceState A W) : debounceState A W :=
  match fuel with
  | O => db_set_now (N.max (db_now st) t) st
  | S fuel' =>
      match popDue (db_timers st) with
      | Some ((d, (_, args)), rest) =>
          if d <=? t
          then db_runFuel func fuel' t
                 (later func args (db_set_now (N.max (db_now st) d) (db_set_timers rest st)))
          else db_set_now (N.max (db_now st) t) st
      | None => db_set_now (N.max (db_now st) t) st
      end
  end.

(** Let time pass until [t]: every timer that falls due runs [later]. A
    timer queues nothing, so one round per pending timer is enough. *)
Definition db_advanceTo {A W} (func : A → W → W) (t : N) (st : debounceState A W) :
    debounceState A W :=
  db_runFuel func (length (db_timers st)) t st.

Inductive dbEvent (A : Type) : Type :=
| DbCall (args : A)
| DbElapse (t : N).
Arguments DbCall {A}.
Arguments DbElapse {A}.

Definition db_handle {A W} (func : A → W → W) (wait : N) (e : dbEvent A)
    (st : debounceState A W) : debounceState A W :=
  match e with
  | DbCall args => executedFunction wait args st
  | DbElapse t => db_advanceTo func t st
  end.

Definition db_run {A W} (func : A → W → W) (wait : N) (es : list (dbEvent A))
    (st : debounceState A W) : debounceState A W :=
  fold_left (λ st e, db_handle func wait e st) es st.

(** The state right after [debounce(func, wait)] returned. *)
Definition db_init {A W} (w : W) : debounceState A W :=
  DebounceState None [] 0 0 w.

(** At most one timer is pending, and it is the one [timeout] names. *)
Definition db_single {A W} (st : debounceState A W) : Prop :=
  db_timers st = [] ∨
  ∃ due i args, db_timers st = [(due, (i, args))] ∧ db_timeout st = Some i.

(** A burst: each call comes [gap] ms after the call before it. *)
Fixpoint db_burst {A W} (func : A → W → W) (wait : N) (l : list (N * A))
    (st : debounceState A W) : debounceState A W :=
  match l with
  | [] => st
  | (gap, args) :: l' =>
      db_burst func wait l'
        (executedFunction wait args (db_advanceTo func (db_now st + gap) st))
  end.

(** The arguments of the calls among some events, oldest first. *)
Definition db_callArgs {A} (es : list (dbEvent A)) : list A :=
  omap (λ e, match e with DbCall a => Some a | DbElapse _ => None end) es.

(** A [func] that only keeps a log of the arguments it was called with. *)
Definition db_log {A} (args : A) (w : list A) : list A := w ++ [args].

(** ** The back-to-top button (script.js lines 161-180) *)

Record backToTop : Type := BackToTop {
  scrollY : Z;                    (* window.scrollY, in pixels *)
  btt_classList : list jsstring   (* backToTop.classList *)
}.

(** The function handed to [debounce] in [initBackToTop]: show or hide
    based on the scroll position. *)
Definition toggleBackToTop (_ : unit) (w : backToTop) : backToTop :=
  if (300 <? scrollY w)%Z
  then BackToTop (scrollY w) (classList_add (js "visible") (btt_classList w))
  else BackToTop (scrollY w) (classList_remove (js "visible") (btt_classList w)).

Inductive bttEvent : Type :=
| BttScroll (y : Z)      (* the window scrolls to [y]; the scroll listener runs *)
| BttElapse (t : N).

Definition btt_handle (e : bttEvent) (st : debounceState unit backToTop) :
    debounceState unit backToTop :=
  match e with
  | BttScroll y =>
      executedFunction 100 tt
        (db_set_world (BackToTop y (btt_classList (db_world st))) st)
  | BttElapse t => db_advanceTo toggleBackToTop t st
  end.

Definition btt_run (es : list bttEvent) (st : debounceState unit backToTop) :
    debounceState unit backToTop :=
  fold_left (λ st e, btt_handle e st) es st.

(** The button shows exactly when the page is scrolled past 300 pixels. *)
Definition btt_agrees (w : backToTop) : Prop :=
  js "visible" ∈ btt_classList w ↔ (300 < scrollY w)%Z.

(** ** The mobile menu (script.js lines 114-155) *)

(** [classList.toggle(c)] *)
Definition classList_toggle (c : jsstring) (l : list jsstring) : list jsstring :=
  if decide (c ∈ l) then classList_remove c l else l ++ [c].

(** Replacing within an ordered set: the first of [old] and [new] becomes
    [new], every other instance of either goes. *)
Fixpoint replaceToken (old new : jsstring) (l : list jsstring) : list jsstring :=
  match l with
  | [] => []
  | x :: l' =>
      if decide (x = old ∨ x = new)
      then new :: filter (λ y, y ≠ old ∧ y ≠ new) l'
      else x :: replaceToken old new l'
  end.

(** [classList.replace(old, new)]: nothing happens when [old] is absent. *)
Definition classList_replace (old new : jsstring) (l : list jsstring) : list jsstring :=
  if decide (old ∈ l) then replaceToken old new l else l.

Record menu : Type := Menu {
  navMenu : list jsstring;      (* classList of #navMenu *)
  toggleIcon : list jsstring;   (* classList of .mobile-menu-toggle i *)
  iconRotation : Z              (* the rotation (degrees) the icon was last sent to *)
}.

(** [toggleMobileMenu()] *)
Definition toggleMobileMenu (m : menu) : menu :=
  let navMenu1 := classList_toggle (js "active") (navMenu m) in
  (* Animate hamburger icon *)
  if decide (js "active" ∈ navMenu1)
  then Menu navMenu1 (classList_replace (js "fa-bars") (js "fa-times") (toggleIcon m)) 180
  else Menu navMenu1 (classList_replace (js "fa-times") (js "fa-bars") (toggleIcon m)) 0.

(** [closeMobileMenu()] *)
Definition closeMobileMenu (m : menu) : menu :=
  if decide (js "active" ∈ navMenu m)
  then
    Menu (classList_remove (js "active") (navMenu m))
      (classList_replace (js "fa-times") (js "fa-bars") (toggleIcon m)) 0
  else m.

(** What reaches the menu: a click on the toggle (the document's click
    listener sees it too, inside the toggle), a click elsewhere in the
    document ([inToggle], [inMenu]: where its target lies), the Escape
    key. *)
Inductive menuEvent : Type :=
| ToggleClick
| DocumentClick (inToggle inMenu : bool)
| EscapeKey.

Definition menu_handle (e : menuEvent) (m : menu) : menu :=
  match e with
  | ToggleClick => toggleMobileMenu m
  | DocumentClick inToggle inMenu =>
      if negb inToggle && negb inMenu then closeMobileMenu m else m
  | EscapeKey => closeMobileMenu m
  end.

Definition menu_run (es : list menuEvent) (m : menu) : menu :=
  fold_left (λ m e, menu_handle e m) es m.

(** The icon tells the state of the menu: the cross, turned by 180
    degrees, when it is open; the bars, not turned, when it is closed. *)
Definition menuConsistent (m : menu) : Prop :=
  NoDup (toggleIcon m) ∧
  (js "active" ∈ navMenu m →
   js "fa-times" ∈ toggleIcon m ∧ (js "fa-bars" ∉ toggleIcon m) ∧ iconRotation m = 180%Z) ∧
  (js "active" ∉ navMenu m →
   js "fa-bars" ∈ toggleIcon m ∧ (js "fa-times" ∉ toggleIcon m) ∧ iconRotation m = 0%Z).

(** ** Navigation links (script.js lines 65-112) *)

Record navLink : Type := NavLink {
  nl_href : jsstring;            (* getAttribute('href') *)
  nl_classList : list jsstring
}.

Record navigation : Type := Navigation {
  navLinks : list navLink;       (* querySelectorAll('.nav-link'), in document order *)
  nav_targets : list jsstring;   (* the selectors for which document.querySelector finds an element *)
  nav_scrolledTo : option jsstring;  (* the selector of the last scrollIntoView *)
  nav_menu : menu
}.

(** [navLinks.forEach(l => l.classList.remove('active'));
     link.classList.add('active')] for the link at index [i] *)
Definition makeActive (i : nat) (links : list navLink) : list navLink :=
  alter (λ l, NavLink (nl_href l) (classList_add (js "active") (nl_classList l))) i
    (map (λ l, NavLink (nl_href l) (classList_remove (js "active") (nl_classList l))) links).

(** The click listener of the link at index [i] *)
Definition navLinkClick (i : nat) (s : navigation) : navigation :=
  match navLinks s !! i with
  | None => s
  | Some link =>
      let targetId := nl_href link in
      if bool_decide (targetId ∈ nav_targets s)
      then
        Navigation (makeActive i (navLinks s)) (nav_targets s) (Some targetId)
          (closeMobileMenu (nav_menu s))
      else s
  end.

(** [document.querySelector(`.nav-link[href="#${id}"]`)]: the index of the
    first link with that href. *)
Definition linkTo (id : jsstring) (links : list navLink) : option nat :=
  fst <$> list_find (λ l, nl_href l = js "#" ++ id) links.

(** One entry handed to the intersection observer's callback. *)
Definition navObserveEntry (s : navigation) (entry : jsstring * bool) : navigation :=
  let '(id, isIntersecting) := entry in
  if isIntersecting
  then
    match linkTo id (navLinks s) with
    | Some i =>
        Navigation (makeActive i (navLinks s)) (nav_targets s) (nav_scrolledTo s)
          (nav_menu s)
    | None => s
    end
  else s.

(** The callback of [navObserver] *)
Definition navObserve (entries : list (jsstring * bool)) (s : navigation) : navigation :=
  fold_left navObserveEntry entries s.

Inductive navEvent : Type :=
| LinkClick (i : nat)
| Intersections (entries : list (jsstring * bool))
| MenuEvent (e : menuEvent).

Definition nav_handle (e : navEvent) (s : navigation) : navigation :=
  match e with
  | LinkClick i => navLinkClick i s
  | Intersections entries => navObserve entries s
  | MenuEvent e =>
      Navigation (navLinks s) (nav_targets s) (nav_scrolledTo s)
        (menu_handle e (nav_menu s))
  end.

Definition nav_run (es : list navEvent) (s : navigation) : navigation :=
  fold_left (λ s e, nav_handle e s) es s.

(** The indices of the links that carry the class [active]. *)
Definition isActive (l : navLink) : bool := bool_decide (js "active" ∈ nl_classList l).

Definition activeLinks (links : list navLink) : list navLink :=
  filter (λ l, isActive l = true) links.

(** An entry that makes the observer change the active link. *)
Definition hits (links : list navLink) (entry : jsstring * bool) : bool :=
  snd entry && bool_decide (is_Some (linkTo (fst entry) links)).

(** The menu as the page is loaded: closed, with the bars. *)
Definition sampleMenu : menu := Menu [js "nav-menu"] [js "fas"; js "fa-bars"] 0.

(** A page with three links, the third one to a section that is not
    there. *)
Definition sampleNavigation : navigation :=
  Navigation
    [NavLink (js "#home") [js "nav-link"; js "active"];
     NavLink (js "#about") [js "nav-link"];
     NavLink (js "#blog") [js "nav-link"]]
    [js "#home"; js "#about"] None sampleMenu.

(** ** The tooltip (script.js lines 858-915) *)

(** A tooltip element: its text, the element it is placed by, and the two
    style properties the code changes after creation. *)
Record tip : Type := Tip {
  tip_text : jsstring;
  tip_anchor : nat;
  tip_opacity : jsstring;
  tip_transform : jsstring
}.

Inductive tipTask : Type :=
| TipShow      (* the callback showTooltip hands to setTimeout *)
| TipRemove.   (* the callback hideTooltip hands to setTimeout *)

Record tipState : Type := TipState {
  tooltipElement : option nat;     (* the variable [tooltipElement]; [None] is null *)
  tip_elements : gmap nat tip;     (* the elements created so far, by identity *)
  tip_body : list nat;             (* the tooltips among document.body's children *)
  tip_timers : list (N * tipTask); (* pending timers with their due time *)
  tip_now : N;                     (* the clock, in ms *)
  tip_nextId : nat;
  tip_errors : nat                 (* TypeErrors thrown by timer callbacks *)
}.

Definition tip_set_timers (x : list (N * tipTask)) (st : tipState) : tipState :=
  TipState (tooltipElement st) (tip_elements st) (tip_body st) x (tip_now st)
    (tip_nextId st) (tip_errors st).
Definition tip_set_now (x : N) (st : tipState) : tipState :=
  TipState (tooltipElement st) (tip_elements st) (tip_body st) (tip_timers st) x
    (tip_nextId st) (tip_errors st).

Definition restyle (opacity transform : jsstring) (e : tip) : tip :=
  Tip (tip_text e) (tip_anchor e) opacity transform.

(** [hideTooltip()] *)
Definition hideTooltip (st : tipState) : tipState :=
  match tooltipElement st with
  | Some e =>
      TipState (Some e)
        (alter (restyle (js "0") (js "translateY(-10px)")) e (tip_elements st))
        (tip_body st) (tip_timers st ++ [(tip_now st + 300, TipRemove)]) (tip_now st)
        (tip_nextId st) (tip_errors st)
  | None => st
  end.

(** [showTooltip(element, text)]; [text] is [None] when the attribute is
    missing. *)
Definition showTooltip (element : nat) (text : option jsstring) (st : tipState) : tipState :=
  match text with
  | None => st
  | Some text =>
      if negb (truthy text) then st
      else
        let st1 := hideTooltip st in
        let e := tip_nextId st1 in
        TipState (Some e)
          (<[e := Tip text element (js "0") (js "translateY(-10px)")]> (tip_elements st1))
          (tip_body st1 ++ [e]) (tip_timers st1 ++ [(tip_now st1 + 10, TipShow)])
          (tip_now st1) (S e) (tip_errors st1)
  end.

(** The timer callbacks; both read [tooltipElement] when they run. *)
Definition runTip (k : tipTask) (st : tipState) : tipState :=
  match k with
  | TipShow =>
      match tooltipElement st with
      | Some e =>
          TipState (Some e)
            (alter (restyle (js "1") (js "translateY(0)")) e (tip_elements st))
            (tip_body st) (tip_timers st) (tip_now st) (tip_nextId st) (tip_errors st)
      | None =>
          (* null has no style: the callback throws *)
          TipState None (tip_elements st) (tip_body st) (tip_timers st) (tip_now st)
            (tip_nextId st) (S (tip_errors st))
      end
  | TipRemove =>
      let body1 :=
        match tooltipElement st with
        | Some e => filter (λ x, x ≠ e) (tip_body st)
        | None => tip_body st
        end in
      TipState None (tip_elements st) body1 (tip_timers st) (tip_now st)
        (tip_nextId st) (tip_errors st)
  end.

Fixpoint tip_runFuel (fuel : nat) (t : N) (st : tipState) : tipState :=
  match fuel with
  | O => tip_set_now (N.max (tip_now st) t) st
  | S fuel' =>
      match popDue (tip_timers st) with
      | Some ((d, k), rest) =>
          if d <=? t
          then tip_runFuel fuel' t
                 (runTip k (tip_set_now (N.max (tip_now st) d) (tip_set_timers rest st)))
          else tip_set_now (N.max (tip_now st) t) st
      | None => tip_set_now (N.max (tip_now st) t) st
      end
  end.

(** Let time pass until [t]. The callbacks queue nothing, so one round per
    pending timer is enough. *)
Definition tip_advanceTo (t : N) (st : tipState) : tipState :=
  tip_runFuel (length (tip_timers st)) t st.

(** Nothing of the tooltip is on the page or under way. *)
Definition tip_idle (st : tipState) : Prop :=
  tooltipElement st = None ∧ tip_timers st = [] ∧
  Forall (λ i, (i < tip_nextId st)%nat) (tip_body st).

(** The tooltip [a] is on the page, shown, and no timer is pending. *)
Definition tip_showing (a : nat) (st : tipState) : Prop :=
  tooltipElement st = Some a ∧ tip_timers st = [] ∧ a ∈ tip_body st ∧
  Forall (λ i, (i < tip_nextId st)%nat) (tip_body st).

Definition tip_init : tipState := TipState None ∅ [] [] 0 0 0.

(** What reaches the tooltip: the pointer enters an icon (its identity and
    its title attribute), leaves it, the Escape key, time passing. *)
Inductive tipEvent : Type :=
| TipEnter (element : nat) (title : option jsstring)
| TipLeave
| TipEscape
| TipElapse (t : N).

Definition tip_handle (e : tipEvent) (st : tipState) : tipState :=
  match e with
  | TipEnter element title => showTooltip element title st
  | TipLeave => hideTooltip st
  | TipEscape => hideTooltip st
  | TipElapse t => tip_advanceTo t st
  end.

Definition tip_run (es : list tipEvent) (st : tipState) : tipState :=
  fold_left (λ st e, tip_handle e st) es st.

(** The element [a] is in the body, but the variable does not hold it. *)
Definition tip_orphan (a : nat) (st : tipState) : Prop :=
  a ∈ tip_body st ∧ tooltipElement st ≠ Some a ∧ (a < tip_nextId st)%nat.

Definition tip_sample : tipState :=
  tip_advanceTo 10 (showTooltip 7 (Some (js "React")) tip_init).

(** ** Loading the projects (script.js lines 348-455) *)

(** An entry of projects.json that is an object. A string property that is
    missing reads as undefined ([None]); [p_tools] is [None] when there is
    no array there. *)
Record project : Type := Project {
  p_title : option jsstring;
  p_image : option jsstring;
  p_desc : option jsstring;
  p_tools : option (list jsstring);
  p_projecturl : option jsstring
}.

Record card : Type := Card {
  card_className : jsstring;
  card_tabindex : jsstring;
  card_role : jsstring;
  card_ariaLabel : jsstring;
  card_innerHTML : jsstring;    (* the markup assigned *)
  card_project : project        (* the project its listeners close over *)
}.

Definition toolTag (tool : jsstring) : jsstring :=
  js "<span class=" ++ dq ++ js "tool-tag" ++ dq ++ js "><i class=" ++ dq ++
  js "fas fa-tag" ++ dq ++ js " aria-hidden=" ++ dq ++ js "true" ++ dq ++ js "></i>" ++
  tool ++ js "</span>".

Definition cardHTML (project : project) (toolsHTML : jsstring) : jsstring :=
  js "
    <div class=" ++ dq ++ js "project-image" ++ dq ++ js ">
      <img src=" ++ dq ++ interpolate (p_image project) ++ dq ++ js " alt=" ++ dq ++
  interpolate (p_title project) ++ js " project screenshot" ++ dq ++ js " loading=" ++ dq ++
  js "lazy" ++ dq ++ js ">
    </div>
    <div class=" ++ dq ++ js "project-info" ++ dq ++ js ">
      <h3>" ++ interpolate (p_title project) ++ js "</h3>
      <p>" ++ interpolate (p_desc project) ++ js "</p>
      <div class=" ++ dq ++ js "project-tools" ++ dq ++ js " aria-label=" ++ dq ++
  js "Technologies used" ++ dq ++ js ">
        " ++ toolsHTML ++ js "
      </div>
    </div>
  ".

(** [createProjectCard(project)]; [None] when it throws: the entry is null
    ([project.title] on null) or has no [tools] array to map over. *)
Definition createProjectCard (entry : option project) : option card :=
  match entry with
  | None => None
  | Some project =>
      match p_tools project with
      | None => None
      | Some tools =>
          (* Create tools HTML *)
          let toolsHTML := concat (map toolTag tools) in
          Some (Card (js "project-card") (js "0") (js "button")
                  (js "View project: " ++ interpolate (p_title project))
                  (cardHTML project toolsHTML) project)
      end
  end.

(** A child of #projectsGrid: a card appended by the code, or what an
    assignment to innerHTML put there. *)
Inductive gridChild : Type :=
| CardChild (c : card)
| Markup (html : jsstring).

Definition projectsErrorHTML : jsstring :=
  js "
    <div class=" ++ dq ++ js "loading-projects" ++ dq ++ js ">
      <i class=" ++ dq ++ js "fas fa-exclamation-triangle" ++ dq ++ js " style=" ++ dq ++
  js "color: #ef4444;" ++ dq ++ js " aria-hidden=" ++ dq ++ js "true" ++ dq ++ js "></i>
      <p>Error loading projects. Please try again later.</p>
      <button class=" ++ dq ++ js "btn-primary" ++ dq ++ js " onclick=" ++ dq ++
  js "loadProjects()" ++ dq ++ js " style=" ++ dq ++ js "margin-top: 1rem;" ++ dq ++ js ">
        <i class=" ++ dq ++ js "fas fa-refresh" ++ dq ++ js " aria-hidden=" ++ dq ++
  js "true" ++ dq ++ js "></i>
        Retry
      </button>
    </div>
  ".

(** [showProjectsError()] *)
Definition showProjectsError (grid : list gridChild) : list gridChild :=
  [Markup projectsErrorHTML].

(** What [response.json()] gives. *)
Inductive jsonBody : Type :=
| JsonInvalid                                   (* the promise rejects *)
| JsonOther                                     (* a value without [forEach] *)
| JsonArray (entries : list (option project)).  (* [None] is a null entry *)

(** What [fetch('projects.json')] gives. *)
Inductive fetched : Type :=
| FetchRejected
| FetchResponse (ok : bool) (body : jsonBody).

(** [projects.forEach(...)]: the grid as the loop leaves it, and whether it
    ran to the end ([false]: [createProjectCard] threw). *)
Fixpoint appendCards (projects : list (option project)) (grid : list gridChild) :
    list gridChild * bool :=
  match projects with
  | [] => (grid, true)
  | entry :: projects' =>
      match createProjectCard entry with
      | Some projectCard => appendCards projects' (grid ++ [CardChild projectCard])
      | None => (grid, false)
      end
  end.

(** [loadProjects()], given what the fetch gives. *)
Definition loadProjects (r : fetched) (grid : list gridChild) : list gridChild :=
  match r with
  | FetchRejected => showProjectsError grid
  | FetchResponse ok body =>
      if negb ok then showProjectsError grid
      else
        match body with
        | JsonInvalid => showProjectsError grid
        | JsonOther =>
            (* projectsGrid.innerHTML = '' has run when forEach is missed *)
            showProjectsError []
        | JsonArray projects =>
            let '(grid1, finished) := appendCards projects [] in
            if finished then grid1 else showProjectsError grid1
        end
  end.

(** The fetch gives an array all of whose entries are objects with a
    [tools] array. *)
Definition loadable (r : fetched) : option (list project) :=
  match r with
  | FetchResponse true (JsonArray entries) =>
      if forallb (λ e, match e with
                       | Some p => match p_tools p with Some _ => true | None => false end
                       | None => false
                       end) entries
      then Some (omap id entries) else None
  | _ => None
  end.

(** ** scrollToContact (script.js lines 725-750) *)

(** The contact section is what both [getElementById('contact')] and the
    selector [#contact] find. The focus on the first input, 800 ms later,
    is not part of the state. *)
Definition scrollToContact (s : navigation) : navigation :=
  if bool_decide (js "#contact" ∈ nav_targets s)
  then
    (* Update nav active state *)
    let links1 :=
      map (λ l, NavLink (nl_href l) (classList_remove (js "active") (nl_classList l)))
        (navLinks s) in
    let links2 :=
      match linkTo (js "contact") (navLinks s) with
      | Some i =>
          alter (λ l, NavLink (nl_href l) (classList_add (js "active") (nl_classList l))) i
            links1
      | None => links1
      end in
    Navigation links2 (nav_targets s) (Some (js "#contact")) (nav_menu s)
  else s.

(** ** Scroll monitoring (script.js lines 998-1025) *)

Record scrollMonitor : Type := ScrollMonitor {
  ticking : bool;               (* the variable [ticking] *)
  frameRequests : nat;          (* callbacks queued with requestAnimationFrame *)
  sm_scrollY : Z;               (* window.scrollY *)
  sm_navbar : bool;             (* is there an element #navbar *)
  navbarFrom : option Z         (* the scroll position the navbar's background
                                   was last computed from *)
}.

(** [updateOnScroll()] *)
Definition updateOnScroll (m : scrollMonitor) : scrollMonitor :=
  ScrollMonitor false (frameRequests m) (sm_scrollY m) (sm_navbar m)
    (if sm_navbar m then Some (sm_scrollY m) else navbarFrom m).

(** The window scrolls to [y]: the scroll listener. *)
Definition onScroll (y : Z) (m : scrollMonitor) : scrollMonitor :=
  if negb (ticking m)
  then ScrollMonitor true (S (frameRequests m)) y (sm_navbar m) (navbarFrom m)
  else ScrollMonitor (ticking m) (frameRequests m) y (sm_navbar m) (navbarFrom m).

(** An animation frame: every queued callback runs once. *)
Definition onFrame (m : scrollMonitor) : scrollMonitor :=
  Nat.iter (frameRequests m) updateOnScroll
    (ScrollMonitor (ticking m) 0 (sm_scrollY m) (sm_navbar m) (navbarFrom m)).

Inductive smEvent : Type :=
| SmScroll (y : Z)
| SmFrame.

Definition sm_handle (e : smEvent) (m : scrollMonitor) : scrollMonitor :=
  match e with
  | SmScroll y => onScroll y m
  | SmFrame => onFrame m
  end.

Definition sm_run (es : list smEvent) (m : scrollMonitor) : scrollMonitor :=
  fold_left (λ m e, sm_handle e m) es m.

(** [initPerformanceMonitoring()] has run, nothing else yet. *)
Definition sm_init (navbar : bool) (y : Z) : scrollMonitor :=
  ScrollMonitor false 0 y navbar None.

Definition isScroll (e : smEvent) : bool :=
  match e with SmScroll _ => true | SmFrame => false end.

(** * Properties *)

(** ** The matcher decides the language *)

Section RegexFacts.

Lemma Matches_Class p s : Matches (Class p) s ↔ ∃ c, s = [c] ∧ p c = true.
Proof.
  split.
  - inversion 1; subst. eauto.
  - intros (c & -> & Hp). by constructor.
Qed.

Lemma Matches_Cat r1 r2 s :
  Matches (Cat r1 r2) s ↔ ∃ s1 s2, s = s1 ++ s2 ∧ Matches r1 s1 ∧ Matches r2 s2.
Proof.
  split.
  - inversion 1; subst. eauto.
  - intros (s1 & s2 & -> & H1 & H2). by constructor.
Qed.

Lemma Matches_Alt r1 r2 s :
  Matches (Alt r1 r2) s ↔ Matches r1 s ∨ Matches r2 s.
Proof.
  split.
  - inversion 1; subst; auto.
  - intros [H|H]; [by apply MAltL | by apply MAltR].
Qed.

Lemma nullable_Matches r : nullable r = true ↔ Matches r [].
Proof.
  induction r as [| |p|r1 IH1 r2 IH2|r1 IH1 r2 IH2|r IH]; simpl.
  - split; [discriminate | inversion 1].
  - split; [constructor | done].
  - split; [discriminate | inversion 1].
  - rewrite andb_true_iff, IH1, IH2, Matches_Cat. split.
    + intros [H1 H2]. by exists [], [].
    + intros (s1 & s2 & Heq & H1 & H2).
      symmetry in Heq. apply app_eq_nil in Heq as [-> ->]. done.
  - by rewrite orb_true_iff, IH1, IH2, Matches_Alt.
  - split; [constructor | done].
Qed.

Lemma Matches_Star_cons r c s :
  Matches (Star r) (c :: s) →
  ∃ s1 s2, s = s1 ++ s2 ∧ Matches r (c :: s1) ∧ Matches (Star r) s2.
Proof.
  intros H. remember (Star r) as r' eqn:Hr. remember (c :: s) as w eqn:Hw.
  revert s Hw.
  induction H as [| | | | | |r0 s1 s2 H1 _ H2 IH2]; intros w Hw; try discriminate.
  injection Hr as ->. destruct s1 as [|c1 s1]; simpl in Hw.
  - by apply IH2.
  - injection Hw as -> <-. by exists s1, s2.
Qed.

Lemma deriv_Matches r c s : Matches (deriv c r) s ↔ Matches r (c :: s).
Proof.
  revert s. induction r as [| |p|r1 IH1 r2 IH2|r1 IH1 r2 IH2|r IH]; intros s; simpl.
  - split; inversion 1.
  - split; inversion 1.
  - rewrite Matches_Class. destruct (p c) eqn:Hp; split.
    + inversion 1; subst. eauto.
    + intros (c' & Heq & _). injection Heq as _ ->. constructor.
    + inversion 1.
    + intros (c' & Heq & Hc). injection Heq as -> _. congruence.
  - assert (Hcat : Matches (Cat (deriv c r1) r2) s ↔
                   ∃ s1 s2, s = s1 ++ s2 ∧ Matches r1 (c :: s1) ∧ Matches r2 s2).
    { rewrite Matches_Cat. by setoid_rewrite IH1. }
    assert (Hsplit : Matches (Cat r1 r2) (c :: s) ↔
                     (∃ s1 s2, s = s1 ++ s2 ∧ Matches r1 (c :: s1) ∧ Matches r2 s2) ∨
                     (nullable r1 = true ∧ Matches r2 (c :: s))).
    { rewrite Matches_Cat. split.
      - intros (s1 & s2 & Heq & H1 & H2). destruct s1 as [|c1 s1]; simpl in Heq.
        + right. subst s2. split; [by apply nullable_Matches | done].
        + injection Heq as <- ->. left. eauto.
      - intros [(s1 & s2 & -> & H1 & H2)|[Hn H2]].
        + by exists (c :: s1), s2.
        + exists [], (c :: s). split; [done |].
          split; [by apply nullable_Matches | done]. }
    rewrite Hsplit. destruct (nullable r1) eqn:Hn.
    + rewrite Matches_Alt, Hcat, IH2.
      split; [intros [?|?]; auto | intros [?|[_ ?]]; auto].
    + rewrite Hcat.
      split; [auto | intros [?|[? _]]; [done | discriminate]].
  - by rewrite !Matches_Alt, IH1, IH2.
  - rewrite Matches_Cat. setoid_rewrite IH. split.
    + intros (s1 & s2 & -> & H1 & H2). by apply (MStarApp _ (c :: s1) s2).
    + apply Matches_Star_cons.
Qed.

Lemma test_Matches r s : test r s = true ↔ Matches r s.
Proof.
  revert r. induction s as [|c s IH]; intros r; simpl.
  - apply nullable_Matches.
  - rewrite IH. apply deriv_Matches.
Qed.

Lemma Matches_Star_Class p s :
  Matches (Star (Class p)) s ↔ Forall (λ c, p c = true) s.
Proof.
  split.
  - intros H. remember (Star (Class p)) as r eqn:Hr.
    induction H as [| | | | | |r0 s1 s2 H1 _ _ IH2]; try discriminate.
    + constructor.
    + injection Hr as ->. apply Matches_Class in H1 as (c & -> & Hc).
      constructor; [done | by apply IH2].
  - induction 1 as [|c s Hc _ IH]; [constructor |].
    apply (MStarApp _ [c] s); [by constructor | done].
Qed.

Lemma Matches_Plus_Class p s :
  Matches (Plus (Class p)) s ↔ s ≠ [] ∧ Forall (λ c, p c = true) s.
Proof.
  unfold Plus. rewrite Matches_Cat. split.
  - intros (s1 & s2 & -> & H1 & H2).
    apply Matches_Class in H1 as (c & -> & Hc).
    apply Matches_Star_Class in H2. split; [done | by constructor].
  - intros [Hne H]. destruct H as [|c s Hc H]; [done |].
    exists [c], s. split; [done |].
    split; [by constructor | by apply Matches_Star_Class].
Qed.

Lemma Matches_Lit c s : Matches (Lit c) s ↔ s = [c].
Proof.
  unfold Lit. rewrite Matches_Class. split.
  - intros (c' & -> & Hc). apply N.eqb_eq in Hc. by subst.
  - intros ->. exists c. split; [done | apply N.eqb_refl].
Qed.

(** The source's expression accepts exactly the strings of the shape the
    specification describes. *)
Lemma emailRegex_shape v : test emailRegex v = true ↔ email_shape v.
Proof.
  rewrite test_Matches. unfold emailRegex, email_shape.
  split.
  - intros H.
    apply Matches_Cat in H as (l & s1 & -> & Hl & H).
    apply Matches_Cat in H as (a & s2 & -> & Ha & H).
    apply Matches_Cat in H as (d & s3 & -> & Hd & H).
    apply Matches_Cat in H as (o & t & -> & Ho & Ht).
    apply Matches_Lit in Ha as ->. apply Matches_Lit in Ho as ->.
    apply Matches_Plus_Class in Hl as [? ?].
    apply Matches_Plus_Class in Hd as [? ?].
    apply Matches_Plus_Class in Ht as [? ?].
    by exists l, d, t.
  - intros (l & d & t & -> & Hl & Hd & Ht & Fl & Fd & Ft).
    apply MCat; [by apply Matches_Plus_Class |].
    apply (MCat _ _ [64]); [by apply Matches_Lit |].
    apply MCat; [by apply Matches_Plus_Class |].
    apply (MCat _ _ [46]); [by apply Matches_Lit |].
    by apply Matches_Plus_Class.
Qed.

End RegexFacts.

(** ** Trimming *)

Section TrimFacts.

Lemma trimStart_suffix s : ∃ a, s = a ++ trimStart s.
Proof.
  induction s as [|c s [a IH]]; simpl.
  - by exists [].
  - destruct (isWhiteSpace c).
    + exists (c :: a). simpl. by f_equal.
    + by exists [].
Qed.

Lemma trimEnd_prefix s : ∃ b, s = trimEnd s ++ b.
Proof.
  unfold trimEnd. destruct (trimStart_suffix (rev s)) as [a Ha].
  exists (rev a). rewrite <- rev_app_distr, <- Ha. by rewrite rev_involutive.
Qed.

(** The trimmed string is a contiguous piece of the string. *)
Lemma trim_infix s : ∃ a b, s = a ++ trim s ++ b.
Proof.
  unfold trim. destruct (trimStart_suffix s) as [a Ha].
  destruct (trimEnd_prefix (trimStart s)) as [b Hb].
  exists a, b. rewrite <- Hb. done.
Qed.

Lemma trim_nil : trim [] = [].
Proof. reflexivity. Qed.

Lemma truthy_true s : truthy s = true ↔ s ≠ [].
Proof. destruct s; simpl; split; congruence. Qed.

Lemma truthy_false s : truthy s = false ↔ s = [].
Proof. destruct s; simpl; split; congruence. Qed.

Lemma str_eqb_true a b : str_eqb a b = true ↔ a = b.
Proof. unfold str_eqb. apply bool_decide_eq_true. Qed.

Lemma str_eqb_false a b : str_eqb a b = false ↔ a ≠ b.
Proof. unfold str_eqb. apply bool_decide_eq_false. Qed.

End TrimFacts.

(** ** What the validation functions do to the page *)

Section ValidationEffects.

Context (s : page) (f : nat) (field : field).
Hypothesis Hf : fields s !! f = Some field.

Lemma errorElements_insert p q l m :
  errorElements q (set_errorMessages (<[p := l]> (errorMessages m)) m) =
  if decide (p = q) then l else errorElements q m.
Proof.
  unfold errorElements. simpl. rewrite lookup_insert. by case_decide.
Qed.

Lemma removeFieldError_errorElements q :
  errorElements q (removeFieldError f s) =
  if decide (f_parentNode field = q) then tail (errorElements q s)
  else errorElements q s.
Proof.
  unfold removeFieldError. rewrite Hf.
  destruct (errorElements (f_parentNode field) s) as [|e rest] eqn:He; simpl.
  - change (errorElements q s = if decide (f_parentNode field = q)
                                then tail (errorElements q s) else errorElements q s).
    case_decide; [subst; by rewrite He | done].
  - change (errorElements q (set_errorMessages (<[f_parentNode field := rest]> (errorMessages s)) s) =
            if decide (f_parentNode field = q)
            then tail (errorElements q s) else errorElements q s).
    rewrite errorElements_insert. case_decide; [subst; by rewrite He | done].
Qed.

Lemma removeFieldError_fields g :
  fields (removeFieldError f s) !! g =
  if decide (f = g) then Some (set_style [] [] field) else fields s !! g.
Proof.
  unfold removeFieldError. rewrite Hf.
  destruct (head _); simpl; rewrite lookup_insert; by case_decide.
Qed.

Lemma removeFieldError_nextId : nextId (removeFieldError f s) = nextId s.
Proof. unfold removeFieldError. rewrite Hf. by destruct (head _). Qed.

Lemma removeFieldError_surroundings :
  surroundings (removeFieldError f s) = surroundings s.
Proof. unfold removeFieldError. rewrite Hf. by destruct (head _). Qed.

Lemma showFieldError_errorElements message q :
  errorElements q (showFieldError f message s) =
  if decide (f_parentNode field = q)
  then match errorElements q s with
       | e :: rest => set_innerHTML (errorIcon ++ message) e :: rest
       | [] => [Element (nextId s) (js "error-message") errorCssText (errorIcon ++ message)]
       end
  else errorElements q s.
Proof.
  unfold showFieldError. rewrite Hf.
  destruct (errorElements (f_parentNode field) s) as [|e rest] eqn:He; simpl.
  - change (errorElements q (set_errorMessages
              (<[f_parentNode field :=
                   [set_innerHTML (errorIcon ++ message)
                      (Element (nextId s) (js "error-message") errorCssText [])]]>
                 (errorMessages s)) s) = 
            if decide (f_parentNode field = q)
            then match errorElements q s with
                 | e :: rest => set_innerHTML (errorIcon ++ message) e :: rest
                 | [] => [Element (nextId s) (js "error-message") errorCssText (errorIcon ++ message)]
                 end
            else errorElements q s).
    rewrite errorElements_insert. case_decide; [subst; by rewrite He | done].
  - change (errorElements q (set_errorMessages
              (<[f_parentNode field := set_innerHTML (errorIcon ++ message) e :: rest]>
                 (errorMessages s)) s) = 
            if decide (f_parentNode field = q)
            then match errorElements q s with
                 | e :: rest => set_innerHTML (errorIcon ++ message) e :: rest
                 | [] => [Element (nextId s) (js "error-message") errorCssText (errorIcon ++ message)]
                 end
            else errorElements q s).
    rewrite errorElements_insert. case_decide; [subst; by rewrite He | done].
Qed.

Lemma showFieldError_fields message g :
  fields (showFieldError f message s) !! g =
  if decide (f = g)
  then Some (set_style (js "#ef4444") (js "0 0 0 3px rgba(239, 68, 68, 0.1)")
               (set_classList (classList_add (js "error") (f_classList field)) field))
  else fields s !! g.
Proof.
  unfold showFieldError. rewrite Hf.
  destruct (errorElements _ s); simpl; rewrite lookup_insert; by case_decide.
Qed.

Lemma showFieldError_surroundings message :
  surroundings (showFieldError f message s) = surroundings s.
Proof. unfold showFieldError. rewrite Hf. by destruct (errorElements _ s). Qed.

Lemma showFieldError_nextId message :
  nextId (showFieldError f message s) =
  match errorElements (f_parentNode field) s with
  | [] => S (nextId s)
  | _ :: _ => nextId s
  end.
Proof. unfold showFieldError. rewrite Hf. by destruct (errorElements _ s). Qed.

End ValidationEffects.

Section ValidateFieldEffects.

Context (s : page) (f : nat) (field : field).
Hypothesis Hf : fields s !! f = Some field.

Local Abbreviation cleared := (withoutErrorClass f field s).

Lemma cleared_lookup :
  fields cleared !! f =
  Some (set_classList (classList_remove (js "error") (f_classList field)) field).
Proof. unfold withoutErrorClass. simpl. apply lookup_insert_eq. Qed.

Lemma removed_lookup :
  fields (removeFieldError f cleared) !! f =
  Some (set_style [] []
          (set_classList (classList_remove (js "error") (f_classList field)) field)).
Proof.
  rewrite (removeFieldError_fields _ _ _ cleared_lookup). by case_decide.
Qed.

Lemma validateField_unfold :
  validateField f s =
  (fst (validateField_checks field),
   if negb (fst (validateField_checks field))
   then showFieldError f (snd (validateField_checks field)) (removeFieldError f cleared)
   else removeFieldError f cleared).
Proof.
  unfold validateField. rewrite Hf. by destruct (validateField_checks field).
Qed.

Lemma validateField_verdict :
  fst (validateField f s) = fst (validateField_checks field).
Proof. by rewrite validateField_unfold. Qed.

Lemma validateField_errorElements q :
  errorElements q (snd (validateField f s)) =
  if decide (f_parentNode field = q)
  then
    if fst (validateField_checks field)
    then tail (errorElements q s)
    else
      match tail (errorElements q s) with
      | e :: rest =>
          set_innerHTML (errorIcon ++ snd (validateField_checks field)) e :: rest
      | [] =>
          [Element (nextId s) (js "error-message") errorCssText
             (errorIcon ++ snd (validateField_checks field))]
      end
  else errorElements q s.
Proof.
  rewrite validateField_unfold. simpl.
  destruct (fst (validateField_checks field)); simpl.
  - rewrite (removeFieldError_errorElements _ _ _ cleared_lookup). done.
  - rewrite (showFieldError_errorElements _ _ _ removed_lookup). simpl.
    rewrite (removeFieldError_errorElements _ _ _ cleared_lookup). simpl.
    rewrite (removeFieldError_nextId _ _ _ cleared_lookup).
    case_decide; done.
Qed.

Lemma validateField_fields g :
  fields (snd (validateField f s)) !! g =
  if decide (f = g)
  then
    Some (if fst (validateField_checks field)
          then set_style [] []
                 (set_classList (classList_remove (js "error") (f_classList field)) field)
          else set_style (js "#ef4444") (js "0 0 0 3px rgba(239, 68, 68, 0.1)")
                 (set_classList
                    (classList_add (js "error")
                       (classList_remove (js "error") (f_classList field))) field))
  else fields s !! g.
Proof.
  rewrite validateField_unfold. simpl.
  destruct (fst (validateField_checks field)); simpl.
  - rewrite (removeFieldError_fields _ _ _ cleared_lookup).
    case_decide; [done |]. unfold withoutErrorClass. simpl. by rewrite lookup_insert_ne.
  - rewrite (showFieldError_fields _ _ _ removed_lookup).
    case_decide; [done |].
    rewrite (removeFieldError_fields _ _ _ cleared_lookup).
    case_decide; [done |]. unfold withoutErrorClass. simpl. by rewrite lookup_insert_ne.
Qed.

Lemma validateField_surroundings :
  surroundings (snd (validateField f s)) = surroundings s.
Proof.
  rewrite validateField_unfold. simpl.
  destruct (fst (validateField_checks field)); simpl.
  - by rewrite (removeFieldError_surroundings _ _ _ cleared_lookup).
  - rewrite (showFieldError_surroundings _ _ _ removed_lookup).
    by rewrite (removeFieldError_surroundings _ _ _ cleared_lookup).
Qed.

Lemma validateField_nextId :
  (nextId s ≤ nextId (snd (validateField f s)))%nat.
Proof.
  rewrite validateField_unfold. simpl.
  destruct (fst (validateField_checks field)); simpl.
  - by rewrite (removeFieldError_nextId _ _ _ cleared_lookup).
  - rewrite (showFieldError_nextId _ _ _ removed_lookup).
    rewrite (removeFieldError_nextId _ _ _ cleared_lookup).
    destruct (errorElements _ _); unfold withoutErrorClass; simpl; lia.
Qed.

End ValidateFieldEffects.

(** ** The two checks of [validateField] *)

Section Checks.

Context (field : field).

Lemma checks_email :
  f_type field = js "email" → trim (f_value field) ≠ [] →
  validateField_checks field =
  if test emailRegex (trim (f_value field)) then (true, []) else (false, msgEmail).
Proof.
  intros Ht Hv. unfold validateField_checks.
  apply truthy_true in Hv. rewrite Hv.
  apply str_eqb_true in Ht. rewrite Ht. simpl.
  rewrite andb_false_r. by destruct (test emailRegex _).
Qed.

Lemma checks_no_email :
  f_type field ≠ js "email" ∨ trim (f_value field) = [] →
  validateField_checks field =
  if f_required field && negb (truthy (trim (f_value field)))
  then (false, msgRequired) else (true, []).
Proof.
  intros H. unfold validateField_checks.
  assert (str_eqb (f_type field) (js "email") && truthy (trim (f_value field)) = false)
    as ->.
  { apply andb_false_iff. destruct H as [H|H].
    - left. by apply str_eqb_false.
    - right. by apply truthy_false. }
  by destruct (f_required field && _).
Qed.

End Checks.

Section FailsWith.

Context (s : page) (f : nat) (field : field).
Hypothesis Hf : fields s !! f = Some field.

Lemma inlineError_validateField :
  inlineError f (snd (validateField f s)) =
  if fst (validateField_checks field)
  then el_innerHTML <$> head (tail (errorElements (f_parentNode field) s))
  else Some (errorIcon ++ snd (validateField_checks field)).
Proof.
  unfold inlineError.
  rewrite (validateField_fields _ _ _ Hf). rewrite decide_True by done. simpl.
  assert (f_parentNode
            (if fst (validateField_checks field)
             then set_style [] []
                    (set_classList (classList_remove (js "error") (f_classList field)) field)
             else set_style (js "#ef4444") (js "0 0 0 3px rgba(239, 68, 68, 0.1)")
                    (set_classList
                       (classList_add (js "error")
                          (classList_remove (js "error") (f_classList field))) field))
          = f_parentNode field) as ->.
  { by destruct (fst (validateField_checks field)). }
  rewrite (validateField_errorElements _ _ _ Hf). rewrite decide_True by done.
  destruct (fst (validateField_checks field)); [done |].
  by destruct (tail _).
Qed.

Lemma failsWith_checks r :
  failsWith f s r ↔ validateField_checks field = (false, reasonMessage r).
Proof.
  unfold failsWith.
  rewrite (validateField_verdict _ _ _ Hf), inlineError_validateField.
  destruct (validateField_checks field) as [v m]. cbn [fst snd]. split.
  - intros [-> H]. apply (inj Some), app_inv_head in H. by subst.
  - intros [= -> ->]. done.
Qed.

End FailsWith.

(** ** The e-mail check and the required check *)

Lemma email_shape_trim_at v : email_shape (trim v) → 64 ∈ v.
Proof.
  intros (l & d & t & Heq & _). destruct (trim_infix v) as (a & b & Hv).
  rewrite Hv, Heq. set_solver.
Qed.

Lemma email_shape_trim_dot v :
  email_shape (trim v) → ∃ a b, v = a ++ 64 :: b ∧ 46 ∈ b.
Proof.
  intros (l & d & t & Heq & _). destruct (trim_infix v) as (a & b & Hv).
  exists (a ++ l), (d ++ 46 :: t ++ b). split.
  - rewrite Hv, Heq. by rewrite <- !app_assoc.
  - set_solver.
Qed.

Lemma messages_differ : msgRequired ≠ msgEmail.
Proof. vm_compute. discriminate. Qed.

(** C1 (as amended): the e-mail check works on the trimmed value. For a
    field of type email whose trimmed value is not empty, validation fails
    with [InvalidFormat] exactly when the trimmed value does not have the
    shape of the pattern, and it passes exactly when it has; a value
    without an [@], or without a dot after an [@], fails; "not-an-email"
    fails and "a@b.com" passes. When the trimmed value is empty or the type
    is not email the check is not applied: the verdict is that of the
    required check alone and the reason is never [InvalidFormat]. *)
Theorem email_check_on_trimmed_value (s : page) (f : nat) (field : field) :
  fields s !! f = Some field →
  (f_type field = js "email" → trim (f_value field) ≠ [] →
     (failsWith f s InvalidFormat ↔ ¬ email_shape (trim (f_value field))) ∧
     (fst (validateField f s) = true ↔ email_shape (trim (f_value field))) ∧
     (64 ∉ f_value field → failsWith f s InvalidFormat) ∧
     ((∀ a b, f_value field = a ++ 64 :: b → 46 ∉ b) → failsWith f s InvalidFormat)) ∧
  (f_type field = js "email" → f_value field = js "not-an-email" →
     failsWith f s InvalidFormat) ∧
  (f_type field = js "email" → f_value field = js "a@b.com" →
     fst (validateField f s) = true) ∧
  (f_type field ≠ js "email" ∨ trim (f_value field) = [] →
     ¬ failsWith f s InvalidFormat ∧
     (fst (validateField f s) = false ↔
      f_required field = true ∧ trim (f_value field) = [])).
Proof.
  intros Hf.
  assert (Hmain : f_type field = js "email" → trim (f_value field) ≠ [] →
            (failsWith f s InvalidFormat ↔ ¬ email_shape (trim (f_value field))) ∧
            (fst (validateField f s) = true ↔ email_shape (trim (f_value field)))).
  { intros Ht Hv.
    rewrite (failsWith_checks _ _ _ Hf), (validateField_verdict _ _ _ Hf).
    rewrite (checks_email _ Ht Hv), <- emailRegex_shape.
    destruct (test emailRegex _); simpl; split; split; done. }
  split; [|split; [|split]].
  - intros Ht Hv. destruct (Hmain Ht Hv) as [Hfail Hpass].
    split; [done |]. split; [done |]. split.
    + intros Hat. apply Hfail. intros Hs. by apply Hat, email_shape_trim_at.
    + intros Hdot. apply Hfail. intros Hs.
      apply email_shape_trim_dot in Hs as (a & b & Hv' & Hin).
      by apply (Hdot a b).
  - intros Ht Hv.
    assert (Hne : trim (f_value field) ≠ []) by (rewrite Hv; vm_compute; discriminate).
    apply (Hmain Ht Hne). rewrite <- emailRegex_shape, Hv. vm_compute. discriminate.
  - intros Ht Hv.
    assert (Hne : trim (f_value field) ≠ []) by (rewrite Hv; vm_compute; discriminate).
    apply (Hmain Ht Hne). rewrite <- emailRegex_shape, Hv. by vm_compute.
  - intros H.
    rewrite (failsWith_checks _ _ _ Hf), (validateField_verdict _ _ _ Hf).
    rewrite (checks_no_email _ H).
    destruct (f_required field); simpl.
    + destruct (truthy (trim (f_value field))) eqn:Hv; simpl.
      * split; [done |]. apply truthy_true in Hv. split; [done | intros [_ ?]; done].
      * split; [intros [= Hm]; by apply messages_differ |].
        apply truthy_false in Hv. done.
    + split; [done |]. split; [done | intros [? _]; done].
Qed.

Lemma email_check_on_trimmed_value_witness :
  fields (samplePage (js "Ada") (js "not-an-email") (js "Hello")) !! 2%nat =
    Some (sampleField "email" "email" true (js "not-an-email") 20) ∧
  failsWith 2 (samplePage (js "Ada") (js "not-an-email") (js "Hello")) InvalidFormat.
Proof.
  split; [reflexivity |].
  apply (email_check_on_trimmed_value
           (samplePage (js "Ada") (js "not-an-email") (js "Hello")) 2
           (sampleField "email" "email" true (js "not-an-email") 20));
    reflexivity.
Defined.

(** C1 as stated, on the untrimmed value, fails: a leading space (or a
    leading no-break space) keeps the value from matching the pattern, yet
    the field validates, because the script trims before it tests. *)
Lemma email_check_untrimmed_counterexample :
  fields (samplePage (js "Ada") (js " a@b.com") (js "Hello")) !! 2%nat =
    Some (sampleField "email" "email" true (js " a@b.com") 20) ∧
  js " a@b.com" ≠ [] ∧
  ¬ email_shape (js " a@b.com") ∧
  fst (validateField 2 (samplePage (js "Ada") (js " a@b.com") (js "Hello"))) = true ∧
  ¬ failsWith 2 (samplePage (js "Ada") (js " a@b.com") (js "Hello")) InvalidFormat ∧
  ¬ email_shape (160 :: js "a@b.com") ∧
  fst (validateField 2 (samplePage (js "Ada") (160 :: js "a@b.com") (js "Hello"))) = true.
Proof.
  split; [reflexivity |].
  split; [discriminate |].
  split; [rewrite <- emailRegex_shape; vm_compute; discriminate |].
  split; [reflexivity |].
  split; [intros [H _]; vm_compute in H; discriminate |].
  split; [rewrite <- emailRegex_shape; vm_compute; discriminate |].
  reflexivity.
Qed.

(** C3: a required field whose trimmed value is empty fails validation with
    [MissingValue], and the message shown is 'This field is required.'. *)
Theorem required_check_missing_value (s : page) (f : nat) (field : field) :
  fields s !! f = Some field →
  f_required field = true →
  trim (f_value field) = [] →
  failsWith f s MissingValue ∧
  fst (validateField f s) = false ∧
  inlineError f (snd (validateField f s)) =
    Some (errorIcon ++ js "This field is required.").
Proof.
  intros Hf Hr Hv.
  assert (H : failsWith f s MissingValue).
  { rewrite (failsWith_checks _ _ _ Hf), checks_no_email by auto.
    rewrite Hr, Hv. done. }
  split; [done |]. apply H.
Qed.

Lemma required_check_missing_value_witness :
  fields (samplePage (js "   ") (js "a@b.com") (js "Hello")) !! 1%nat =
    Some (sampleField "name" "text" true (js "   ") 10) ∧
  failsWith 1 (samplePage (js "   ") (js "a@b.com") (js "Hello")) MissingValue.
Proof.
  split; [reflexivity |].
  apply (required_check_missing_value
           (samplePage (js "   ") (js "a@b.com") (js "Hello")) 1
           (sampleField "name" "text" true (js "   ") 10));
    reflexivity.
Defined.

(** ** Validation leaves the data of every control alone *)

Lemma sameData_refl s : sameData s s.
Proof. by intros g. Qed.

Lemma sameData_trans s1 s2 s3 : sameData s1 s2 → sameData s2 s3 → sameData s1 s3.
Proof. intros H1 H2 g. by rewrite H2, H1. Qed.

Lemma validateField_sameData f s : sameData s (snd (validateField f s)).
Proof.
  intros g. destruct (fields s !! f) as [field|] eqn:Hf.
  - rewrite (validateField_fields _ _ _ Hf). case_decide; [subst g | done].
    rewrite Hf. by destruct (fst (validateField_checks field)).
  - unfold validateField. by rewrite Hf.
Qed.

Lemma checks_fieldData a b :
  fieldData a = fieldData b → validateField_checks a = validateField_checks b.
Proof.
  unfold fieldData, validateField_checks. intros [= _ Ht Hr Hv _ _].
  by rewrite Ht, Hr, Hv.
Qed.

Lemma verdict_sameData f s s' :
  sameData s s' → fst (validateField f s') = fst (validateField f s).
Proof.
  intros H. specialize (H f).
  destruct (fields s !! f) as [a|] eqn:Ha, (fields s' !! f) as [b|] eqn:Hb;
    simpl in H; try discriminate.
  - rewrite (validateField_verdict _ _ _ Ha), (validateField_verdict _ _ _ Hb).
    f_equal. apply checks_fieldData. by apply (inj Some) in H.
  - unfold validateField. by rewrite Ha, Hb.
Qed.

Lemma hasRequired_sameData f s s' :
  sameData s s' → hasRequired s' f = hasRequired s f.
Proof.
  intros H. specialize (H f). unfold hasRequired.
  destruct (fields s !! f) as [a|], (fields s' !! f) as [b|];
    simpl in H; try discriminate; [|done].
  apply (inj Some) in H. unfold fieldData in H. congruence.
Qed.

Lemma hasRequired_lookup s f : hasRequired s f = true → is_Some (fields s !! f).
Proof. unfold hasRequired. destruct (fields s !! f); [eauto | discriminate]. Qed.

Lemma requiredFields_lookup s f : f ∈ requiredFields s → is_Some (fields s !! f).
Proof.
  unfold requiredFields. rewrite list_elem_of_filter. intros [H _].
  by apply hasRequired_lookup.
Qed.

(** ** [validateForm] is [validateAll] over the required controls *)

Section ValidateAll.

Lemma validateForm_fold l : ∀ b s,
  fold_left
    (λ (acc : bool * page) (f : nat),
       let '(isValid, s0) := acc in
       let '(ok, s1) := validateField f s0 in
       (if negb ok then false else isValid, s1)) l (b, s) =
  (b && forallb snd (fst (validateAll l s)), snd (validateAll l s)).
Proof.
  induction l as [|f l IH]; intros b s; simpl.
  - by rewrite andb_true_r.
  - destruct (validateField f s) as [ok s1]. rewrite IH.
    destruct (validateAll l s1) as [calls s2]. simpl.
    destruct ok, b; simpl; done.
Qed.

Lemma validateForm_validateAll s :
  validateForm s =
  (forallb snd (fst (validateAll (requiredFields s) s)),
   snd (validateAll (requiredFields s) s)).
Proof. unfold validateForm. by rewrite validateForm_fold. Qed.

Lemma validateForm_calls_fold l : ∀ calls s,
  fold_left
    (λ (acc : list (nat * bool) * page) (f : nat),
       let '(calls, s0) := acc in
       let '(ok, s1) := validateField f s0 in
       (calls ++ [(f, ok)], s1)) l (calls, s) =
  (calls ++ fst (validateAll l s), snd (validateAll l s)).
Proof.
  induction l as [|f l IH]; intros calls s; simpl.
  - by rewrite app_nil_r.
  - destruct (validateField f s) as [ok s1]. rewrite IH.
    destruct (validateAll l s1) as [calls' s2]. simpl.
    by rewrite <- app_assoc.
Qed.

Lemma validateForm_calls_validateAll s :
  validateForm_calls s = validateAll (requiredFields s) s.
Proof.
  unfold validateForm_calls. rewrite validateForm_calls_fold. simpl.
  by destruct (validateAll _ _).
Qed.

Lemma validateAll_sameData l : ∀ s, sameData s (snd (validateAll l s)).
Proof.
  induction l as [|f l IH]; intros s; simpl; [apply sameData_refl |].
  pose proof (validateField_sameData f s) as H1.
  destruct (validateField f s) as [ok s1]. specialize (IH s1).
  destruct (validateAll l s1) as [calls s2]. simpl in *.
  by eapply sameData_trans.
Qed.

(** Every control of the list is validated, in order, whatever the
    verdicts of the others; the verdict on each is the one its own data
    gives. *)
Lemma validateAll_calls l : ∀ s,
  fst (validateAll l s) = map (λ f, (f, fst (validateField f s))) l.
Proof.
  induction l as [|f l IH]; intros s; simpl; [done |].
  pose proof (validateField_sameData f s) as H1.
  destruct (validateField f s) as [ok s1] eqn:Hv. specialize (IH s1).
  destruct (validateAll l s1) as [calls s2]. simpl in *. subst calls.
  f_equal. apply map_ext. intros g. f_equal. by apply verdict_sameData.
Qed.

(** Whatever a single validation preserves, validating a list preserves. *)
Lemma validateAll_preserves (I : page * gmap nat bool → Prop) :
  (∀ f x, is_Some (fields (fst x) !! f) → I x → I (validateStep f x)) →
  ∀ l s last,
    (∀ f, f ∈ l → is_Some (fields s !! f)) →
    I (s, last) →
    I (snd (validateAll l s), record (fst (validateAll l s)) last).
Proof.
  intros Hstep. induction l as [|f l IH]; intros s last Hl HI; simpl; [done |].
  pose proof (validateField_sameData f s) as Hd.
  assert (Hs : I (validateStep f (s, last))).
  { apply Hstep; [apply Hl; left | done]. }
  unfold validateStep in Hs. simpl in Hs.
  destruct (validateField f s) as [ok s1]. simpl in *.
  specialize (IH s1 (<[f := ok]> last)).
  destruct (validateAll l s1) as [calls s2]. simpl in *.
  apply IH; [|done].
  intros g Hg. specialize (Hd g). destruct (Hl g) as [a Ha]; [by right |].
  rewrite Ha in Hd. destruct (fields s1 !! g); [eauto | discriminate].
Qed.

End ValidateAll.

(** ** The invariants of the inline error state *)

Section Invariants.

Lemma error_not_in_removed l : js "error" ∉ classList_remove (js "error") l.
Proof. unfold classList_remove. rewrite list_elem_of_filter. by intros [? _]. Qed.

Lemma error_in_added l : js "error" ∈ classList_add (js "error") l.
Proof. unfold classList_add. case_decide; [done | set_solver]. Qed.

Lemma validateField_marks f s field :
  fields s !! f = Some field →
  ∃ field', fields (snd (validateField f s)) !! f = Some field' ∧
            markedAs (fst (validateField f s)) field'.
Proof.
  intros Hf. rewrite (validateField_fields _ _ _ Hf), (validateField_verdict _ _ _ Hf).
  rewrite decide_True by done. eexists. split; [done |].
  destruct (fst (validateField_checks field)); unfold markedAs; simpl.
  - split; [|done]. split; [|done]. intros H. by apply error_not_in_removed in H.
  - split; [|done]. split; [done |]. intros _. apply error_in_added.
Qed.

Lemma validateStep_markInvariant f x :
  is_Some (fields (fst x) !! f) → markInvariant x → markInvariant (validateStep f x).
Proof.
  intros [field Hf] HI g ok. unfold validateStep. simpl.
  rewrite lookup_insert. case_decide as Hfg.
  - subst g. intros [= <-]. by apply (validateField_marks f _ field).
  - intros Hg. destruct (HI g ok Hg) as (field' & Hg' & Hm).
    exists field'. split; [|done].
    rewrite (validateField_fields _ _ _ Hf). by rewrite decide_False.
Qed.

Lemma sameData_parent s s' g b :
  sameData s s' → fields s' !! g = Some b →
  ∃ a, fields s !! g = Some a ∧ f_parentNode a = f_parentNode b.
Proof.
  intros H Hb. specialize (H g). rewrite Hb in H.
  destruct (fields s !! g) as [a|]; [|discriminate].
  exists a. split; [done |]. apply (inj Some) in H. unfold fieldData in H. congruence.
Qed.

Lemma sameData_ownContainers s s' : sameData s s' → ownContainers s → ownContainers s'.
Proof.
  intros H Ho f g a b Ha Hb Hp.
  destruct (sameData_parent _ _ _ _ H Ha) as (a0 & Ha0 & Hpa).
  destruct (sameData_parent _ _ _ _ H Hb) as (b0 & Hb0 & Hpb).
  apply (Ho f g a0 b0 Ha0 Hb0). congruence.
Qed.

Lemma errorIcon_content m : errorIcon ++ m ≠ [].
Proof. intros H. apply app_eq_nil in H as [H _]. vm_compute in H. discriminate. Qed.

Lemma validateStep_messageInvariant f x :
  is_Some (fields (fst x) !! f) → messageInvariant x → messageInvariant (validateStep f x).
Proof.
  destruct x as [s last]. intros [field Hf] [Ho HI]. unfold validateStep. simpl in *.
  pose proof (validateField_sameData f s) as Hd.
  split; [by eapply sameData_ownContainers |].
  intros g b Hb. cbn [fst snd] in *.
  destruct (sameData_parent _ _ _ _ Hd Hb) as (a & Ha & Hp).
  rewrite <- Hp. rewrite (validateField_errorElements _ _ _ Hf).
  rewrite lookup_insert. specialize (HI g a Ha).
  destruct (decide (f = g)) as [<-|Hfg].
  - assert (a = field) as -> by congruence.
    rewrite decide_True by done.
    rewrite (validateField_verdict _ _ _ Hf).
    assert (Ht : tail (errorElements (f_parentNode field) s) = []).
    { destruct (last !! f) as [[|]|]; [by rewrite HI | | by rewrite HI].
      destruct HI as (e & -> & _). done. }
    rewrite Ht. destruct (fst (validateField_checks field)); [done |].
    eexists. split; [done |]. simpl. apply errorIcon_content.
  - rewrite decide_False; [done |].
    intros Hpar. apply Hfg. by apply (Ho f g field a).
Qed.

End Invariants.

(** ** The bookkeeping of the most recent verdicts *)

Section Record.

Lemma record_cons c calls last :
  record (c :: calls) last = record calls (<[fst c := snd c]> last).
Proof. reflexivity. Qed.

Lemma record_other calls : ∀ last f,
  f ∉ map fst calls → record calls last !! f = last !! f.
Proof.
  induction calls as [|c calls IH]; intros last f Hf; [done |].
  simpl in Hf. apply not_elem_of_cons in Hf as [Hne Hf].
  rewrite record_cons, IH by done.
  by apply lookup_insert_ne.
Qed.

Lemma record_map (h : nat → bool) l : ∀ last f,
  f ∈ l → record (map (λ g, (g, h g)) l) last !! f = Some (h f).
Proof.
  induction l as [|g l IH]; intros last f Hf; [by apply elem_of_nil in Hf |].
  change (record (map (λ g0, (g0, h g0)) l) (<[g := h g]> last) !! f = Some (h f)).
  destruct (decide (f ∈ l)) as [Hin|Hout]; [by apply IH |].
  apply elem_of_cons in Hf as [->|Hf]; [|done].
  rewrite record_other; [apply lookup_insert_eq |].
  rewrite map_map. simpl. by rewrite map_id.
Qed.

End Record.

Lemma noErrorMessages_empty s : errorMessages s = ∅ → noErrorMessages s.
Proof. intros H f field _. unfold errorElements. by rewrite H, lookup_empty. Qed.

Lemma inlineError_single f s field e :
  fields s !! f = Some field →
  errorElements (f_parentNode field) s = [e] →
  inlineError f s = Some (el_innerHTML e).
Proof. intros Hf He. unfold inlineError. rewrite Hf. simpl. by rewrite He. Qed.

(** C2: [validateForm] returns true exactly when every required control
    passes its own validation; it calls [validateField] on every required
    control, in document order, whatever the verdicts of the earlier ones;
    and after the pass every required control carries the visual error
    state of its verdict, so that all failing controls are marked at once
    (with their inline messages when each control has a container of its
    own and no message was shown before). *)
Theorem validateForm_conjunction_no_short_circuit (s : page) :
  (fst (validateForm s) = true ↔
   ∀ f, f ∈ requiredFields s → fst (validateField f s) = true) ∧
  fst (validateForm_calls s) =
    map (λ f, (f, fst (validateField f s))) (requiredFields s) ∧
  snd (validateForm_calls s) = snd (validateForm s) ∧
  (∀ f, f ∈ requiredFields s →
     ∃ field', fields (snd (validateForm s)) !! f = Some field' ∧
               markedAs (fst (validateField f s)) field') ∧
  (ownContainers s → noErrorMessages s →
   ∀ f, f ∈ requiredFields s → fst (validateField f s) = false →
     ∃ m, inlineError f (snd (validateForm s)) = Some m ∧ m ≠ []).
Proof.
  rewrite validateForm_validateAll, validateForm_calls_validateAll. cbn [fst snd].
  rewrite validateAll_calls.
  assert (Hlast : ∀ f, f ∈ requiredFields s →
            record (map (λ g, (g, fst (validateField g s))) (requiredFields s)) ∅ !! f =
            Some (fst (validateField f s))).
  { intros f Hf. by apply (record_map (λ g, fst (validateField g s))). }
  split; [|split; [done |split; [done |split]]].
  - rewrite forallb_forall. split.
    + intros H f Hf. apply (H (f, fst (validateField f s))).
      apply in_map_iff. exists f. split; [done |]. by apply list_elem_of_In.
    + intros H [f ok] Hin. apply in_map_iff in Hin as (g & [= <- <-] & Hg).
      apply H. by apply list_elem_of_In.
  - intros f Hf.
    pose proof (validateAll_preserves markInvariant validateStep_markInvariant
                  (requiredFields s) s ∅ (requiredFields_lookup s)) as HI.
    rewrite validateAll_calls in HI.
    apply (HI ltac:(by intros g ok Hg) f). by apply Hlast.
  - intros Ho Hn f Hf Hfail.
    pose proof (validateAll_preserves messageInvariant validateStep_messageInvariant
                  (requiredFields s) s ∅ (requiredFields_lookup s)) as HI.
    rewrite validateAll_calls in HI.
    destruct HI as [_ HI].
    { split; [done |]. intros g field Hg. cbn [fst snd]. rewrite lookup_empty.
      by apply (Hn g). }
    cbn [fst snd] in HI.
    destruct (requiredFields_lookup s f Hf) as [a Ha].
    pose proof (validateAll_sameData (requiredFields s) s f) as Hd.
    rewrite Ha in Hd.
    destruct (fields (snd (validateAll (requiredFields s) s)) !! f) as [b|] eqn:Hb;
      [|discriminate].
    specialize (HI f b Hb). rewrite (Hlast f Hf), Hfail in HI.
    destruct HI as (e & He & Hne).
    exists (el_innerHTML e). split; [|done]. by apply (inlineError_single f _ b).
Qed.

(** ** The event loop never throws and leaves the form alone *)

Section EventLoop.

Lemma onComplete_Some n s :
  onComplete n s =
  Some (if attached n s
        then set_body (filter (λ e, el_id e ≠ n) (body s)) s
        else s).
Proof. unfold onComplete, removeChild. by destruct (attached n s). Qed.

Lemma runTask_total tk s : is_Some (runTask tk s).
Proof.
  destruct tk as [timer n|n [|]]; simpl; [eauto | | eauto].
  rewrite onComplete_Some. eauto.
Qed.

Lemma runTask_formPart tk s s' : runTask tk s = Some s' → formPart s' = formPart s.
Proof.
  destruct tk as [timer n|n [|]]; simpl.
  - by intros [= <-].
  - rewrite onComplete_Some. intros [= <-]. by destruct (attached n s).
  - by intros [= <-].
Qed.

Lemma runFuel_total fuel : ∀ t s, is_Some (runFuel fuel t s).
Proof.
  induction fuel as [|fuel IH]; intros t s; simpl; [eauto |].
  destruct (popEarliest (agenda s)) as [[[d tk] rest]|]; [|eauto].
  destruct (d <=? t); [|eauto].
  destruct (runTask_total tk (set_now (N.max (now s) d) (set_agenda rest s)))
    as [s1 ->].
  simpl. apply IH.
Qed.

Lemma runFuel_formPart fuel : ∀ t s s',
  runFuel fuel t s = Some s' → formPart s' = formPart s.
Proof.
  induction fuel as [|fuel IH]; intros t s s'; simpl; [by intros [= <-] |].
  destruct (popEarliest (agenda s)) as [[[d tk] rest]|]; [|by intros [= <-]].
  destruct (d <=? t); [|by intros [= <-]].
  destruct (runTask tk _) as [s1|] eqn:H1; simpl; [|done].
  intros H. apply IH in H. apply runTask_formPart in H1. by rewrite H, H1.
Qed.

Lemma advanceTo_total t s : is_Some (advanceTo t s).
Proof. apply runFuel_total. Qed.

Lemma handle_total e s : is_Some (handle e s).
Proof. destruct e; simpl; eauto using advanceTo_total. Qed.

End EventLoop.

(** ** The invariants hold along every run *)

Section Run.

Lemma sameLook_refl s : sameLook s s.
Proof. by split. Qed.













End Run.


(** ** Submission *)

Section Submission.

Lemma ok_range status : ok status = true ↔ 200 ≤ status ≤ 299.
Proof. unfold ok. rewrite andb_true_iff, !N.leb_le. done. Qed.

Lemma not_ok_range status : ok status = false ↔ ¬ (200 ≤ status ≤ 299).
Proof. rewrite <- ok_range. by destruct (ok status). Qed.

Lemma form_reset_fields s f :
  fields (form_reset s) !! f =
  if decide (f ∈ formElements s)
  then (λ field, set_value (f_defaultValue field) field) <$> fields s !! f
  else fields s !! f.
Proof.
  unfold form_reset. simpl.
  induction (formElements s) as [|g l IH]; cbn [foldr].
  - case_decide as Hin; [by apply elem_of_nil in Hin | done].
  - rewrite lookup_alter. destruct (decide (g = f)) as [->|Hne].
    + destruct (decide (f ∈ f :: l)) as [_|Hout]; [|exfalso; apply Hout; left].
      rewrite IH. case_decide; [|done]. by destruct (fields s !! f).
    + rewrite IH.
      destruct (decide (f ∈ l)) as [Hin|Hout], (decide (f ∈ g :: l)) as [Hin'|Hout'];
        try done.
      * exfalso. apply Hout'. by right.
      * exfalso. apply elem_of_cons in Hin' as [?|?]; [by subst | done].
Qed.

Lemma validateAll_surroundings l : ∀ s,
  surroundings (snd (validateAll l s)) = surroundings s.
Proof.
  induction l as [|f l IH]; intros s; simpl; [done |].
  assert (H1 : surroundings (snd (validateField f s)) = surroundings s).
  { destruct (fields s !! f) as [a|] eqn:Ha.
    - by apply (validateField_surroundings _ _ a).
    - unfold validateField. by rewrite Ha. }
  destruct (validateField f s) as [v s1]. specialize (IH s1).
  destruct (validateAll l s1) as [calls s2]. simpl in *. congruence.
Qed.

Lemma validateForm_surroundings s :
  surroundings (snd (validateForm s)) = surroundings s.
Proof. rewrite validateForm_validateAll. apply validateAll_surroundings. Qed.

Lemma begin_unfold s :
  handleContactSubmit_begin s =
  if fst (validateForm s)
  then (Some (Suspended (b_innerHTML (submitButton s))),
        set_requests
          (requests (snd (validateForm s)) ++
             [Request (formAction (snd (validateForm s))) (js "POST")
                (FormData (snd (validateForm s))) (js "application/json")])
          (set_submitButton (Button true busyLabel) (snd (validateForm s))))
  else (None, snd (validateForm s)).
Proof.
  unfold handleContactSubmit_begin. by destruct (validateForm s) as [[|] s1].
Qed.

End Submission.

(** C4: when the response to a submission has a status in 200-299, the
    script classifies it as a success, attaches exactly one notification,
    of success severity and with the thank-you text, and resets every
    control of the form to its default value (the empty string for a
    control without one); controls outside the form are left alone. *)
Theorem success_resets_form_and_notifies_once (k : suspended) (status : N) (s : page) :
  200 ≤ status ≤ 299 →
  classify (Response status) = Success ∧
  body (handleContactSubmit_resume k (Response status) s) =
    body s ++ [notificationElement (nextId s) msgSuccess (js "success")] ∧
  (∀ f, f ∈ formElements s →
     fields (handleContactSubmit_resume k (Response status) s) !! f =
     (λ field, set_value (f_defaultValue field) field) <$> fields s !! f) ∧
  (∀ f field', f ∈ formElements s →
     fields (handleContactSubmit_resume k (Response status) s) !! f = Some field' →
     f_value field' = f_defaultValue field' ∧
     (f_defaultValue field' = [] → f_value field' = [])) ∧
  (∀ f, f ∉ formElements s →
     fields (handleContactSubmit_resume k (Response status) s) !! f = fields s !! f).
Proof.
  intros Hok. apply ok_range in Hok.
  unfold classify, handleContactSubmit_resume. rewrite Hok.
  assert (Hl : ∀ f,
            fields (set_submitButton (Button false (originalButtonContent k))
                      (form_reset (showNotification msgSuccess (js "success") s))) !! f =
            if decide (f ∈ formElements s)
            then (λ field, set_value (f_defaultValue field) field) <$> fields s !! f
            else fields s !! f).
  { intros f. apply (form_reset_fields (showNotification msgSuccess (js "success") s)). }
  split; [done |]. split; [done |]. split; [|split].
  - intros f Hf. by rewrite Hl, decide_True.
  - intros f field' Hf. rewrite Hl, decide_True by done.
    destruct (fields s !! f) as [a|]; simpl; [|done].
    intros [= <-]. simpl. split; [done | auto].
  - intros f Hf. by rewrite Hl, decide_False.
Qed.

Lemma success_resets_form_and_notifies_once_witness :
  200 ≤ 200 ≤ 299 ∧
  body (handleContactSubmit_resume (Suspended (js "Send Message")) (Response 200)
          (samplePage (js "Ada") (js "a@b.com") (js "Hello"))) =
    [notificationElement 100 msgSuccess (js "success")].
Proof.
  split; [lia |].
  apply (success_resets_form_and_notifies_once (Suspended (js "Send Message")) 200
           (samplePage (js "Ada") (js "a@b.com") (js "Hello"))).
  lia.
Defined.


(** C6: a submission that passes validation disables the submit control
    and shows the busy label; when the request settles, whatever the
    outcome and whatever happened to the page meanwhile, the control is
    enabled again and carries the label it had when the handler started. A
    submission stopped by validation never touches the control. *)
Theorem submit_control_always_restored (s : page) :
  (∀ k s1, handleContactSubmit_begin s = (Some k, s1) →
     submitButton s1 = Button true busyLabel ∧
     ∀ (r : settlement) (s2 : page),
       submitButton (handleContactSubmit_resume k r s2) =
       Button false (b_innerHTML (submitButton s))) ∧
  (∀ s1, handleContactSubmit_begin s = (None, s1) → submitButton s1 = submitButton s).
Proof.
  pose proof (validateForm_surroundings s) as Hs. unfold surroundings in Hs.
  split.
  - intros k s1. rewrite begin_unfold.
    destruct (fst (validateForm s)); [|discriminate].
    intros [= <- <-]. split; [done |]. intros r s2. done.
  - intros s1. rewrite begin_unfold.
    destruct (fst (validateForm s)); [discriminate |].
    intros [= <-]. congruence.
Qed.

Lemma submit_control_always_restored_witness :
  handleContactSubmit_begin (samplePage (js "Ada") (js "a@b.com") (js "Hello")) =
    (Some (Suspended (js "Send Message")),
     snd (handleContactSubmit_begin (samplePage (js "Ada") (js "a@b.com") (js "Hello")))) ∧
  submitButton
    (snd (handleContactSubmit_begin (samplePage (js "Ada") (js "a@b.com") (js "Hello")))) =
    Button true busyLabel ∧
  submitButton
    (handleContactSubmit_resume (Suspended (js "Send Message")) Rejected
       (snd (handleContactSubmit_begin (samplePage (js "Ada") (js "a@b.com") (js "Hello"))))) =
    Button false (js "Send Message").
Proof.
  assert (H : handleContactSubmit_begin (samplePage (js "Ada") (js "a@b.com") (js "Hello")) =
              (Some (Suspended (js "Send Message")),
               snd (handleContactSubmit_begin
                      (samplePage (js "Ada") (js "a@b.com") (js "Hello")))))
    by (vm_compute; reflexivity).
  split; [exact H |].
  destruct (proj1 (submit_control_always_restored
                     (samplePage (js "Ada") (js "a@b.com") (js "Hello"))) _ _ H)
    as [H1 H2].
  split; [exact H1 | apply H2].
Defined.

(** ** The agenda *)

Section Agenda.

Lemma popEarliest_None a : popEarliest a = None ↔ a = [].
Proof.
  destruct a as [|e a]; simpl; [done |].
  destruct (popEarliest a) as [[e' rest]|]; [|done].
  by destruct (fst e' <? fst e).
Qed.

Lemma popEarliest_Permutation a : ∀ e rest,
  popEarliest a = Some (e, rest) → a ≡ₚ e :: rest.
Proof.
  induction a as [|x a IH]; intros e rest; simpl; [done |].
  destruct (popEarliest a) as [[e' rest']|].
  - destruct (fst e' <? fst x); intros [= <- <-]; [|done].
    rewrite (IH e' rest' eq_refl). apply perm_swap.
  - by intros [= <- <-].
Qed.

Lemma popEarliest_least a : ∀ e rest,
  popEarliest a = Some (e, rest) → ∀ x, x ∈ a → fst e ≤ fst x.
Proof.
  induction a as [|y a IH]; intros e rest; simpl; [done |].
  destruct (popEarliest a) as [[e' rest']|] eqn:Hp.
  - specialize (IH e' rest' eq_refl).
    destruct (fst e' <? fst y) eqn:Hlt; intros [= <- <-] x Hx.
    + apply N.ltb_lt in Hlt. apply elem_of_cons in Hx as [->|Hx]; [lia | by apply IH].
    + apply N.ltb_ge in Hlt. apply elem_of_cons in Hx as [->|Hx]; [lia |].
      specialize (IH x Hx). lia.
  - apply popEarliest_None in Hp as ->. intros [= <- <-] x Hx.
    apply list_elem_of_singleton in Hx as ->. lia.
Qed.

Lemma weight_Permutation a b : a ≡ₚ b → weight a = weight b.
Proof. unfold weight. intros H. by rewrite H. Qed.

Lemma weight_cons e a :
  weight (e :: a) =
  ((match snd e with Timeout _ _ => 2 | TweenEnd _ _ => 1 end) + weight a)%nat.
Proof. reflexivity. Qed.

Lemma weight_app a b : weight (a ++ b) = (weight a + weight b)%nat.
Proof. unfold weight. apply sum_list_with_app. Qed.

Lemma timersOf_Permutation n a b : a ≡ₚ b → timersOf n a ≡ₚ timersOf n b.
Proof. unfold timersOf. intros H. by rewrite H. Qed.

Lemma exitsOf_Permutation n a b : a ≡ₚ b → exitsOf n a ≡ₚ exitsOf n b.
Proof. unfold exitsOf. intros H. by rewrite H. Qed.

Lemma timersOf_cons n e a :
  timersOf n (e :: a) = if isTimeoutFor n e then e :: timersOf n a else timersOf n a.
Proof.
  unfold timersOf. rewrite filter_cons.
  destruct (isTimeoutFor n e); by case_decide.
Qed.

Lemma exitsOf_cons n e a :
  exitsOf n (e :: a) = if isExitFor n e then e :: exitsOf n a else exitsOf n a.
Proof.
  unfold exitsOf. rewrite filter_cons.
  destruct (isExitFor n e); by case_decide.
Qed.

Lemma timersOf_app n a b : timersOf n (a ++ b) = timersOf n a ++ timersOf n b.
Proof. unfold timersOf. apply filter_app. Qed.

Lemma exitsOf_app n a b : exitsOf n (a ++ b) = exitsOf n a ++ exitsOf n b.
Proof. unfold exitsOf. apply filter_app. Qed.

Lemma exitsOf_clear n t a :
  exitsOf n (filter (λ e, isTimer t e = false) a) = exitsOf n a.
Proof.
  induction a as [|e a IH]; [done |].
  rewrite filter_cons, exitsOf_cons. case_decide as Ht.
  - by rewrite exitsOf_cons, IH.
  - rewrite IH. destruct e as [d [t' m|m b]]; [done |].
    exfalso. by apply Ht.
Qed.

Lemma timersOf_clear n t a :
  timersOf n (filter (λ e, isTimer t e = false) a) =
  filter (λ e, isTimer t e = false) (timersOf n a).
Proof.
  induction a as [|e a IH]; [done |].
  rewrite filter_cons, timersOf_cons. case_decide as Ht.
  - rewrite timersOf_cons. destruct (isTimeoutFor n e); [|done].
    by rewrite filter_cons, decide_True, IH.
  - destruct (isTimeoutFor n e); [|done].
    by rewrite filter_cons, decide_False, IH.
Qed.

End Agenda.

(** ** One task of the event loop, seen from one notification *)

Section OneTask.

Context (n : nat) (D : N).

Lemma attached_filter m s :
  attached n (set_body (filter (λ e, el_id e ≠ m) (body s)) s) =
  attached n s && negb (bool_decide (m = n)).
Proof.
  unfold attached. simpl. destruct (decide (m = n)) as [->|Hne].
  - rewrite (bool_decide_eq_true_2 (n = n)), andb_false_r by done.
    apply bool_decide_eq_false_2. rewrite list_elem_of_fmap.
    intros (e & -> & He). apply list_elem_of_filter in He as [He _]. done.
  - rewrite (bool_decide_eq_false_2 (m = n)), andb_true_r by done.
    apply bool_decide_ext. rewrite !list_elem_of_fmap.
    setoid_rewrite list_elem_of_filter. split.
    + intros (e & -> & _ & Hin). eauto.
    + intros (e & -> & Hin). exists e. split; [done |]. split; [congruence | done].
Qed.

Lemma attached_append e s :
  attached n (set_body (body s ++ [e]) s) = attached n s || bool_decide (el_id e = n).
Proof.
  unfold attached. simpl. rewrite map_app. simpl.
  destruct (decide (el_id e = n)) as [<-|Hne].
  - rewrite (bool_decide_eq_true_2 (el_id e = el_id e)), orb_true_r by done.
    apply bool_decide_eq_true_2. apply elem_of_app. right. by left.
  - rewrite (bool_decide_eq_false_2 (el_id e = n)), orb_false_r by done.
    apply bool_decide_ext. rewrite elem_of_app, list_elem_of_singleton.
    split; [intros [?|?]; [done | congruence] | auto].
Qed.

Lemma onComplete_effect m s s' :
  onComplete m s = Some s' →
  attached n s' = attached n s && negb (bool_decide (m = n)) ∧
  agenda s' = agenda s ∧ now s' = now s ∧
  nextId s' = nextId s ∧ clickListeners s' = clickListeners s ∧ env s' = env s.
Proof.
  rewrite onComplete_Some. intros [= <-].
  destruct (attached m s) eqn:Hm.
  - by rewrite attached_filter.
  - split; [|done]. destruct (decide (m = n)) as [->|Hne].
    + rewrite Hm. done.
    + rewrite bool_decide_eq_false_2 by done. by rewrite andb_true_r.
Qed.

Lemma pop_timersOf a e rest :
  popEarliest a = Some (e, rest) →
  timersOf n a ≡ₚ (if isTimeoutFor n e then e :: timersOf n rest else timersOf n rest).
Proof.
  intros H. rewrite (timersOf_Permutation n _ _ (popEarliest_Permutation _ _ _ H)).
  by rewrite timersOf_cons.
Qed.

Lemma pop_exitsOf a e rest :
  popEarliest a = Some (e, rest) →
  exitsOf n a ≡ₚ (if isExitFor n e then e :: exitsOf n rest else exitsOf n rest).
Proof.
  intros H. rewrite (exitsOf_Permutation n _ _ (popEarliest_Permutation _ _ _ H)).
  by rewrite exitsOf_cons.
Qed.

Lemma timersOf_elem a e : e ∈ timersOf n a → e ∈ a.
Proof. unfold timersOf. rewrite list_elem_of_filter. tauto. Qed.

Lemma exitsOf_elem a e : e ∈ exitsOf n a → e ∈ a.
Proof. unfold exitsOf. rewrite list_elem_of_filter. tauto. Qed.

(** Running the earliest task, when it is due by [t], keeps the
    notification on course. *)
Lemma runTask_underway t0 t s d tk rest s' :
  underway n D t0 t s →
  t0 ≤ now s →
  popEarliest (agenda s) = Some ((d, tk), rest) →
  d ≤ t →
  runTask tk (set_now (N.max (now s) d) (set_agenda rest s)) = Some s' →
  underway n D t0 t s' ∧ t0 ≤ now s'.
Proof.
  intros (Hset & Hnow & Hph) Ht0 Hpop Hd Hrun. unfold exitEnd in Hph.
  pose proof (pop_timersOf _ _ _ Hpop) as Htm.
  pose proof (pop_exitsOf _ _ _ Hpop) as Hex.
  pose proof (popEarliest_least _ _ _ Hpop) as Hleast. simpl in Hleast.
  assert (Hnow' : N.max (now s) d ≤ N.max t0 t) by lia.
  destruct tk as [t' m|m [|]]; simpl in Hrun.
  - (* a timer fires *)
    injection Hrun as <-. unfold underway, settled, inPhase, attached, exitEnd.
    cbn [dismissNotification set_agenda set_now env body agenda now nextId clickListeners].
    rewrite timersOf_app, exitsOf_app.
    unfold isTimeoutFor, isExitFor in Htm, Hex. simpl in Htm, Hex.
    change (timersOf n [(tweenEnd (env s) (N.max (now s) d) exitDuration, TweenEnd m true)])
      with (@nil (N * task)).
    rewrite app_nil_r.
    rewrite (exitsOf_cons n
               (tweenEnd (env s) (N.max (now s) d) exitDuration, TweenEnd m true) []).
    unfold isExitFor. cbn [snd].
    change (exitsOf n []) with (@nil (N * task)).
    split; [|lia]. split; [done |]. split; [done |].
    destruct Hph as [[(Ha & Ht & He) [HnD Ht0D]]|[[(Ha & Ht & Hne & He) [HD Ht0D]]|[[Ha Ht] HD]]].
    + rewrite Ht in Htm. rewrite He in Hex. apply Permutation_nil in Hex.
      destruct (decide (m = n)) as [->|Hmn].
      * rewrite (bool_decide_eq_true_2 (n = n)) in Htm |- * by done.
        apply Permutation_singleton_l in Htm. injection Htm as <- <- Hrest. symmetry in Hrest.
        right. left. rewrite Hex. cbn [app].
        replace (N.max (now s) D) with D by lia.
        split; [|lia]. split; [done |]. split; [done |]. split; [done |].
        by constructor.
      * rewrite (bool_decide_eq_false_2 (m = n)) in Htm |- * by done.
        apply Permutation_singleton_l in Htm. symmetry in Htm.
        left. rewrite Htm, Hex, app_nil_r. split; [done |].
        assert (d ≤ D); [|lia].
        apply (Hleast (D, Timeout (S n) n)), (timersOf_elem (agenda s)).
        rewrite Ht. by left.
    + rewrite Ht in Htm.
      destruct (decide (m = n)) as [->|Hmn].
      * rewrite (bool_decide_eq_true_2 (n = n)) in Htm by done.
        by apply Permutation_nil_cons in Htm.
      * rewrite (bool_decide_eq_false_2 (m = n)) in Htm |- * by done.
        apply Permutation_nil in Htm.
        right. left. rewrite Htm, app_nil_r. split; [|done].
        split; [done |]. split; [done |].
        split; [intros H; rewrite H in Hex; by apply Permutation_nil_r in Hex |].
        by rewrite <- Hex.
    + rewrite Ht in Htm.
      destruct (decide (m = n)) as [->|Hmn].
      * rewrite (bool_decide_eq_true_2 (n = n)) in Htm by done.
        by apply Permutation_nil_cons in Htm.
      * apply Permutation_nil in Htm.
        right. right. rewrite (bool_decide_eq_false_2 (m = n)) in Htm by done. by rewrite Htm.
  - (* an exit tween ends *)
    apply onComplete_effect in Hrun as (Hat & Hag & Hnw & Hid & Hcl & Henv).
    simpl in Hat, Hag, Hnw, Hid, Hcl, Henv.
    unfold underway, settled, inPhase, exitEnd. rewrite Hag, Hnw, Hid, Hcl, Henv.
    unfold isTimeoutFor, isExitFor in Htm, Hex. simpl in Htm, Hex.
    change (attached n (set_now (N.max (now s) d) (set_agenda rest s)))
      with (attached n s) in Hat.
    split; [|lia]. split; [done |]. split; [done |].
    destruct Hph as [[(Ha & Ht & He) [HnD Ht0D]]|[[(Ha & Ht & Hne & He) [HD Ht0D]]|[[Ha Ht] HD]]].
    + rewrite He in Hex. rewrite Ht in Htm. apply Permutation_singleton_l in Htm. symmetry in Htm.
      destruct (decide (m = n)) as [->|Hmn].
      * rewrite (bool_decide_eq_true_2 (n = n)) in Hex by done.
        by apply Permutation_nil_cons in Hex.
      * rewrite (bool_decide_eq_false_2 (m = n)) in Hex, Hat by done.
        apply Permutation_nil in Hex.
        left. rewrite Hat, Ha, Htm, Hex. split; [done |].
        assert (d ≤ D); [|lia].
        apply (Hleast (D, Timeout (S n) n)), (timersOf_elem (agenda s)).
        rewrite Ht. by left.
    + rewrite Ht in Htm. apply Permutation_nil in Htm.
      destruct (decide (m = n)) as [->|Hmn].
      * rewrite (bool_decide_eq_true_2 (n = n)) in Hex, Hat by done.
        right. right. rewrite Hat, Ha, Htm. split; [done |].
        assert (d = tweenEnd (env s) D exitDuration); [|lia].
        rewrite Hex in He. by apply Forall_cons in He as [? _].
      * rewrite (bool_decide_eq_false_2 (m = n)) in Hex, Hat by done.
        right. left. rewrite Hat, Ha, Htm. split; [|done].
        split; [done |]. split; [done |].
        split; [intros H; rewrite H in Hex; by apply Permutation_nil_r in Hex |].
        by rewrite <- Hex.
    + rewrite Ht in Htm. apply Permutation_nil in Htm.
      right. right. rewrite Hat, Ha, Htm. done.
  - (* the entry tween ends *)
    injection Hrun as <-. unfold underway, settled, inPhase, attached, exitEnd. simpl.
    unfold isTimeoutFor, isExitFor in Htm, Hex. simpl in Htm, Hex.
    split; [|lia]. split; [done |]. split; [done |].
    destruct Hph as [[(Ha & Ht & He) [HnD Ht0D]]|[[(Ha & Ht & Hne & He) [HD Ht0D]]|[[Ha Ht] HD]]].
    + rewrite Ht in Htm. apply Permutation_singleton_l in Htm. symmetry in Htm.
      rewrite He in Hex. apply Permutation_nil in Hex.
      left. rewrite Htm, Hex. split; [done |].
      assert (d ≤ D); [|lia].
      apply (Hleast (D, Timeout (S n) n)), (timersOf_elem (agenda s)).
      rewrite Ht. by left.
    + rewrite Ht in Htm. apply Permutation_nil in Htm.
      right. left. rewrite Htm. split; [|done].
      split; [done |]. split; [done |].
      split; [intros H; rewrite H in Hex; by apply Permutation_nil_r in Hex |].
      by rewrite <- Hex.
    + rewrite Ht in Htm. apply Permutation_nil in Htm.
      right. right. by rewrite Htm.
Qed.

End OneTask.

(** ** Letting time pass, seen from one notification *)

Section Elapse.

Context (n : nat) (D : N).

Lemma weight_elem x a : x ∈ a → (1 ≤ weight a)%nat.
Proof.
  intros H. unfold weight.
  etransitivity; [|by apply (sum_list_with_in x)]. destruct x as [d [t' m|m b]]; simpl; lia.
Qed.

Lemma runTask_agenda tk s s' :
  runTask tk s = Some s' →
  agenda s' =
  agenda s ++ match tk with
              | Timeout _ m => [(tweenEnd (env s) (now s) exitDuration, TweenEnd m true)]
              | TweenEnd _ _ => []
              end.
Proof.
  destruct tk as [t' m|m [|]]; simpl.
  - by intros [= <-].
  - intros H. apply (onComplete_effect m) in H as (_ & -> & _). by rewrite app_nil_r.
  - intros [= <-]. by rewrite app_nil_r.
Qed.

Lemma runTask_lighter s d tk rest s' :
  popEarliest (agenda s) = Some ((d, tk), rest) →
  runTask tk (set_now (N.max (now s) d) (set_agenda rest s)) = Some s' →
  (weight (agenda s') < weight (agenda s))%nat.
Proof.
  intros Hpop Hrun. apply runTask_agenda in Hrun. rewrite Hrun. simpl.
  rewrite (weight_Permutation _ _ (popEarliest_Permutation _ _ _ Hpop)).
  rewrite weight_app, weight_cons. simpl.
  destruct tk; unfold weight; simpl; lia.
Qed.

(** The fuel [advanceTo] gives is enough: when it returns, nothing that
    was due by [t] is left on the agenda. *)
Lemma runFuel_quiescent fuel : ∀ t s s',
  (weight (agenda s) ≤ fuel)%nat →
  runFuel fuel t s = Some s' →
  ∀ x, x ∈ agenda s' → t < fst x.
Proof.
  induction fuel as [|fuel IH]; intros t s s' Hw; simpl.
  - intros [= <-] x Hx. apply weight_elem in Hx. simpl in Hx. lia.
  - destruct (popEarliest (agenda s)) as [[[d tk] rest]|] eqn:Hpop.
    + destruct (d <=? t) eqn:Hd.
      * destruct (runTask tk _) as [s1|] eqn:Hrun; simpl; [|done].
        pose proof (runTask_lighter s d tk rest s1 Hpop Hrun).
        apply IH. lia.
      * apply N.leb_gt in Hd. intros [= <-] x Hx.
        pose proof (popEarliest_least _ _ _ Hpop x Hx). simpl in *. lia.
    + apply popEarliest_None in Hpop. intros [= <-] x Hx.
      simpl in Hx. rewrite Hpop in Hx. by apply elem_of_nil in Hx.
Qed.

Lemma advanceTo_quiescent t s s' :
  advanceTo t s = Some s' → ∀ x, x ∈ agenda s' → t < fst x.
Proof. by apply runFuel_quiescent. Qed.

(** When nothing is due any more, the phase is the one the clock says. *)
Lemma underway_finish t0 t s :
  underway n D t0 t s →
  t0 ≤ now s →
  (∀ x, x ∈ agenda s → t < fst x) →
  onTime n D (set_now (N.max (now s) t) s) ∧ N.max (now s) t = N.max t0 t.
Proof.
  intros (Hset & Hnow & Hph) Ht0 Hq. split; [|lia].
  split; [done |]. unfold inPhase, exitEnd in *. simpl.
  destruct Hph as [[(Ha & Ht & He) [HnD Ht0D]]|[[(Ha & Ht & Hne & He) [HD Ht0D]]|[[Ha Ht] HD]]].
  - left. split; [done |].
    assert (t < D); [|lia].
    apply (Hq (D, Timeout (S n) n)), (timersOf_elem n). rewrite Ht. by left.
  - right. left. split; [done |].
    assert (t < tweenEnd (env s) D exitDuration); [|lia].
    destruct (exitsOf n (agenda s)) as [|e l] eqn:Hl; [done |].
    apply Forall_cons in He as [<- _].
    apply Hq, (exitsOf_elem n). rewrite Hl. by left.
  - right. right. split; [done | lia].
Qed.

Lemma runFuel_onTime fuel : ∀ t0 t s s',
  (weight (agenda s) ≤ fuel)%nat →
  underway n D t0 t s →
  t0 ≤ now s →
  runFuel fuel t s = Some s' →
  onTime n D s' ∧ now s' = N.max t0 t.
Proof.
  induction fuel as [|fuel IH]; intros t0 t s s' Hw Hu Ht0; simpl.
  - intros [= <-]. apply underway_finish; [done | done |].
    intros x Hx. apply weight_elem in Hx. lia.
  - destruct (popEarliest (agenda s)) as [[[d tk] rest]|] eqn:Hpop.
    + destruct (d <=? t) eqn:Hd.
      * apply N.leb_le in Hd.
        destruct (runTask tk _) as [s1|] eqn:Hrun; simpl; [|done].
        destruct (runTask_underway n D t0 t s d tk rest s1 Hu Ht0 Hpop Hd Hrun)
          as [Hu1 Ht1].
        pose proof (runTask_lighter s d tk rest s1 Hpop Hrun).
        apply IH; [lia | done | done].
      * apply N.leb_gt in Hd. intros [= <-].
        apply underway_finish; [done | done |].
        intros x Hx. pose proof (popEarliest_least _ _ _ Hpop x Hx). simpl in *. lia.
    + apply popEarliest_None in Hpop. intros [= <-].
      apply underway_finish; [done | done |].
      intros x Hx. rewrite Hpop in Hx. by apply elem_of_nil in Hx.
Qed.

Lemma onTime_underway s t : onTime n D s → underway n D (now s) t s.
Proof.
  intros [Hset Hph]. split; [done |]. split; [lia |].
  destruct Hph as [[? ?]|[[? ?]|[? ?]]].
  - left. split; [done | lia].
  - right. left. split; [done | lia].
  - right. right. split; [done | lia].
Qed.

(** Letting time pass keeps the notification on time. *)
Lemma advanceTo_onTime t s s' :
  onTime n D s → advanceTo t s = Some s' →
  onTime n D s' ∧ now s' = N.max (now s) t.
Proof.
  intros Hon Hrun.
  apply (runFuel_onTime (weight (agenda s)) (now s) t s s'); try done.
  by apply onTime_underway.
Qed.

End Elapse.

(** ** Every other event, seen from one notification *)

Section OtherEvents.

Context (n : nat) (D : N).

Lemma onTime_ext s s' :
  body s' = body s → agenda s' = agenda s → now s' = now s →
  clickListeners s' = clickListeners s → env s' = env s →
  (nextId s ≤ nextId s')%nat →
  onTime n D s → onTime n D s'.
Proof.
  intros Hb Ha Hn Hc He Hi [[Hid Hcl] Hph].
  unfold onTime, settled, inPhase, attached, exitEnd in *. rewrite Hb, Ha, Hn, Hc, He.
  split; [|done]. split; [lia | done].
Qed.

Lemma onTime_surroundings s s' :
  surroundings s' = surroundings s → (nextId s ≤ nextId s')%nat →
  onTime n D s → onTime n D s'.
Proof.
  unfold surroundings. intros [= _ _ _ Hb Hc Ha Hn _ He] Hi.
  by apply onTime_ext.
Qed.

Lemma showNotification_agenda message type s :
  agenda (showNotification message type s) =
  agenda s ++ [(tweenEnd (env s) (now s) enterDuration, TweenEnd (nextId s) false);
               (now s + dismissDelay type, Timeout (S (nextId s)) (nextId s))].
Proof. unfold showNotification. simpl. by rewrite <- app_assoc. Qed.

(** The element a notification is made of. *)
Lemma showNotification_body message type s :
  body (showNotification message type s) =
  body s ++ [Element (nextId s) [] (notificationCssText (getProperty colors (env s) type))
               (notificationHTML message (getProperty icons (env s) type))].
Proof. done. Qed.

Lemma showNotification_onTime message type s :
  onTime n D s → onTime n D (showNotification message type s).
Proof.
  intros [[Hid Hcl] Hph].
  assert (Hne : nextId s ≠ n) by lia.
  assert (Hat : attached n (showNotification message type s) = attached n s).
  { change (attached n (showNotification message type s)) with
      (attached n (set_body (body (showNotification message type s)) s)).
    rewrite showNotification_body, attached_append. simpl.
    by rewrite (bool_decide_eq_false_2 (nextId s = n)), orb_false_r. }
  assert (Htm : timersOf n (agenda (showNotification message type s)) =
                timersOf n (agenda s)).
  { rewrite showNotification_agenda, timersOf_app, !timersOf_cons.
    unfold isTimeoutFor. simpl.
    rewrite (bool_decide_eq_false_2 (nextId s = n)) by done. apply app_nil_r. }
  assert (Hex : exitsOf n (agenda (showNotification message type s)) =
                exitsOf n (agenda s)).
  { rewrite showNotification_agenda, exitsOf_app, !exitsOf_cons.
    unfold isExitFor. simpl. apply app_nil_r. }
  split.
  - split; [simpl; lia |]. intros m t. simpl. rewrite lookup_insert.
    case_decide; [intros [= <-] _; lia | apply Hcl].
  - unfold inPhase, exitEnd in *. rewrite Hat, Htm, Hex. done.
Qed.

Lemma click_agenda m t s :
  clickListeners s !! m = Some t →
  agenda (click m s) =
  filter (λ e, isTimer t e = false) (agenda s) ++
  [(tweenEnd (env s) (now s) exitDuration, TweenEnd m true)].
Proof. intros H. unfold click. by rewrite H. Qed.

Lemma click_other_onTime m s : m ≠ n → onTime n D s → onTime n D (click m s).
Proof.
  intros Hmn [[Hid Hcl] Hph].
  destruct (clickListeners s !! m) as [t|] eqn:Hm;
    [|unfold click; by rewrite Hm].
  assert (Ht : t ≠ S n) by by apply (Hcl m).
  assert (Hat : attached n (click m s) = attached n s).
  { unfold click. by rewrite Hm. }
  assert (Hnow : now (click m s) = now s).
  { unfold click. by rewrite Hm. }
  assert (Henv : env (click m s) = env s).
  { unfold click. by rewrite Hm. }
  assert (Hex : exitsOf n (agenda (click m s)) = exitsOf n (agenda s)).
  { rewrite (click_agenda m t s Hm), exitsOf_app, exitsOf_clear, exitsOf_cons.
    unfold isExitFor. simpl.
    rewrite (bool_decide_eq_false_2 (m = n)) by done. apply app_nil_r. }
  assert (Htm : timersOf n (agenda (click m s)) =
                filter (λ e, isTimer t e = false) (timersOf n (agenda s))).
  { rewrite (click_agenda m t s Hm), timersOf_app, timersOf_clear, timersOf_cons.
    unfold isTimeoutFor. simpl. apply app_nil_r. }
  split.
  - unfold settled, click. rewrite Hm. done.
  - unfold inPhase, exitEnd in *. rewrite Hat, Hnow, Hex, Htm, Henv.
    destruct Hph as [[(Ha & Htm' & He) ?]|[[(Ha & Htm' & He) ?]|[[Ha Htm'] ?]]];
      rewrite Htm'.
    + left. split; [|done]. split; [done |]. split; [|done].
      rewrite filter_cons, decide_True; [done |].
      unfold isTimer. simpl. by apply bool_decide_eq_false_2.
    + right. left. done.
    + right. right. done.
Qed.

Lemma validateField_onTime f s : onTime n D s → onTime n D (snd (validateField f s)).
Proof.
  destruct (fields s !! f) as [a|] eqn:Ha.
  - apply onTime_surroundings.
    + by apply (validateField_surroundings _ _ a).
    + by apply (validateField_nextId _ _ a).
  - unfold validateField. by rewrite Ha.
Qed.

Lemma validateAll_onTime l : ∀ s, onTime n D s → onTime n D (snd (validateAll l s)).
Proof.
  induction l as [|f l IH]; intros s H; simpl; [done |].
  apply (validateField_onTime f) in H.
  destruct (validateField f s) as [v s1]. specialize (IH s1 H).
  by destruct (validateAll l s1).
Qed.

Lemma begin_onTime s : onTime n D s → onTime n D (snd (handleContactSubmit_begin s)).
Proof.
  intros H. rewrite begin_unfold, validateForm_validateAll. simpl.
  apply (validateAll_onTime (requiredFields s)) in H.
  destruct (forallb _ _); [|done].
  by apply (onTime_ext _ _ eq_refl eq_refl eq_refl eq_refl eq_refl).
Qed.

Lemma resume_onTime k r s : onTime n D s → onTime n D (handleContactSubmit_resume k r s).
Proof.
  intros H. unfold handleContactSubmit_resume.
  destruct r as [status|]; [destruct (ok status)|];
    (eapply onTime_ext; [..|by apply showNotification_onTime]); done.
Qed.

(** Any event but a click on the notification keeps it on time. *)
Lemma handle_onTime e s s' :
  isClickOn n e = false → handle e s = Some s' → onTime n D s → onTime n D s'.
Proof.
  intros Hc He H. destruct e as [f v|f| |k r|m ty|m|t]; simpl in He.
  - injection He as <-. apply validateField_onTime.
    by apply (onTime_ext _ _ eq_refl eq_refl eq_refl eq_refl eq_refl).
  - injection He as <-. by apply validateField_onTime.
  - injection He as <-. by apply begin_onTime.
  - injection He as <-. by apply resume_onTime.
  - injection He as <-. by apply showNotification_onTime.
  - injection He as <-. apply click_other_onTime; [|done].
    simpl in Hc. by apply bool_decide_eq_false in Hc.
  - by apply (advanceTo_onTime n D t s s').
Qed.

Lemma run_onTime es : ∀ s last,
  untouched n es → onTime n D s →
  ∃ s' last', run es s last = Some (s', last') ∧ onTime n D s'.
Proof.
  induction es as [|e es IH]; intros s last Hu H; simpl; [eauto |].
  unfold untouched in Hu. simpl in Hu. apply andb_true_iff in Hu as [He Hu].
  apply negb_true_iff in He.
  destruct (handle_total e s) as [s1 H1]. rewrite H1.
  apply IH; [done |]. by apply (handle_onTime e s s1).
Qed.

Lemma fresh_tasks k a :
  Forall (λ e, match snd e with
               | Timeout t m => (t < k)%nat ∧ (m < k)%nat
               | TweenEnd m _ => (m < k)%nat
               end) a →
  timersOf k a = [] ∧ exitsOf k a = [].
Proof.
  induction 1 as [|e a He _ [IHt IHe]]; [done |].
  rewrite timersOf_cons, exitsOf_cons, IHt, IHe.
  destruct e as [d [t m|m [|]]]; unfold isTimeoutFor, isExitFor; simpl in *.
  - rewrite bool_decide_eq_false_2; [done | lia].
  - rewrite bool_decide_eq_false_2; [done | lia].
  - done.
Qed.

(** A notification just shown waits for its timer. *)
Lemma showNotification_starts message type s :
  freshIds s →
  onTime (nextId s) (now s + dismissDelay type) (showNotification message type s).
Proof.
  intros (Hb & Ha & Hl).
  destruct (fresh_tasks _ _ Ha) as [Htm Hex].
  split.
  - split; [simpl; lia |]. intros m t. simpl. rewrite lookup_insert.
    case_decide; [done |]. intros Hm _. apply Hl in Hm. lia.
  - left. split.
    + split; [|split].
      * change (attached (nextId s) (showNotification message type s)) with
          (attached (nextId s) (set_body (body (showNotification message type s)) s)).
        rewrite showNotification_body, attached_append. simpl.
        by rewrite (bool_decide_eq_true_2 (nextId s = nextId s)), orb_true_r.
      * rewrite showNotification_agenda, timersOf_app, !timersOf_cons, Htm.
        unfold isTimeoutFor. simpl.
        by rewrite (bool_decide_eq_true_2 (nextId s = nextId s)).
      * rewrite showNotification_agenda, exitsOf_app, !exitsOf_cons, Hex.
        unfold isExitFor. simpl. done.
    + simpl. unfold dismissDelay. destruct (str_eqb _ _); lia.
Qed.

End OtherEvents.

Lemma samplePageIn_freshIds e name email message :
  freshIds (samplePageIn e name email message).
Proof. split; [constructor |]. split; [constructor | apply map_Forall_empty]. Qed.

Lemma samplePage_freshIds name email message : freshIds (samplePage name email message).
Proof. apply samplePageIn_freshIds. Qed.

(** C5: a response with a status outside 200-299 is a [ServerRejected]
    outcome: one notification of error severity is attached and the
    controls keep what they hold. A request that is rejected is a
    [NetworkFailure] outcome: one notification of error severity is
    attached. Error severity shows in the icon, in the red background and
    in the delay of the timer, 5000 ms. The two notifications read
    differently: each shows, after the icon, its own sentence. Settling
    never issues another request: a submission sends exactly one. *)
Theorem failures_notify_error_without_retry (k : suspended) (s : page) :
  (∀ status, ¬ (200 ≤ status ≤ 299) →
     classify (Response status) = ServerRejected ∧
     body (handleContactSubmit_resume k (Response status) s) =
       body s ++ [notificationElement (nextId s) msgServerRejected (js "error")] ∧
     timersOf (nextId s) (agenda (handleContactSubmit_resume k (Response status) s)) =
       timersOf (nextId s) (agenda s) ++ [(now s + 5000, Timeout (S (nextId s)) (nextId s))] ∧
     fields (handleContactSubmit_resume k (Response status) s) = fields s) ∧
  (classify Rejected = NetworkFailure ∧
   body (handleContactSubmit_resume k Rejected s) =
     body s ++ [notificationElement (nextId s) msgNetworkFailure (js "error")] ∧
   timersOf (nextId s) (agenda (handleContactSubmit_resume k Rejected s)) =
     timersOf (nextId s) (agenda s) ++ [(now s + 5000, Timeout (S (nextId s)) (nextId s))] ∧
   fields (handleContactSubmit_resume k Rejected s) = fields s) ∧
  (∀ id,
     el_innerHTML (notificationElement id msgServerRejected (js "error")) =
       js "<i class=" ++ dq ++ js "fas fa-exclamation-circle" ++ dq ++
       js " aria-hidden=" ++ dq ++ js "true" ++ dq ++ js "></i> " ++
       js "Sorry, there was an error sending your message. Please try again." ∧
     el_innerHTML (notificationElement id msgNetworkFailure (js "error")) =
       js "<i class=" ++ dq ++ js "fas fa-exclamation-circle" ++ dq ++
       js " aria-hidden=" ++ dq ++ js "true" ++ dq ++ js "></i> " ++
       js "Network error. Please try again later." ∧
     el_cssText (notificationElement id msgServerRejected (js "error")) =
       notificationCssText (Some (js "linear-gradient(135deg, #ef4444, #dc2626)")) ∧
     el_cssText (notificationElement id msgNetworkFailure (js "error")) =
       notificationCssText (Some (js "linear-gradient(135deg, #ef4444, #dc2626)"))) ∧
  (∀ id id',
     el_innerHTML (notificationElement id msgServerRejected (js "error")) ≠
     el_innerHTML (notificationElement id' msgNetworkFailure (js "error"))) ∧
  msgServerRejected ≠ msgNetworkFailure ∧
  (∀ r, requests (handleContactSubmit_resume k r s) = requests s) ∧
  (∀ k' s1, handleContactSubmit_begin s = (Some k', s1) →
     ∃ rq, requests s1 = requests s ++ [rq]).
Proof.
  assert (Htimers : ∀ message,
            timersOf (nextId s) (agenda (showNotification message (js "error") s)) =
            timersOf (nextId s) (agenda s) ++
            [(now s + 5000, Timeout (S (nextId s)) (nextId s))]).
  { intros message. rewrite showNotification_agenda, timersOf_app, !timersOf_cons.
    unfold isTimeoutFor. cbn [snd].
    by rewrite (bool_decide_eq_true_2 (nextId s = nextId s)). }
  split; [|split; [|split; [|split; [|split; [|split]]]]].
  - intros status Hno. apply not_ok_range in Hno.
    unfold classify, handleContactSubmit_resume. rewrite Hno.
    split; [done |]. split; [done |]. split; [apply Htimers | done].
  - split; [done |]. split; [done |]. split; [apply Htimers | done].
  - intros id. repeat split; vm_compute; reflexivity.
  - intros id id' H. vm_compute in H. discriminate.
  - vm_compute. discriminate.
  - intros [status|]; unfold handleContactSubmit_resume; [|done].
    by destruct (ok status).
  - intros k' s1. rewrite begin_unfold.
    pose proof (validateForm_surroundings s) as Hs.
    destruct (fst (validateForm s)); [|discriminate].
    intros [= _ <-]. simpl. eexists. f_equal.
    unfold surroundings in Hs. congruence.
Qed.

Lemma failures_notify_error_without_retry_witness :
  ¬ (200 ≤ 422 ≤ 299) ∧
  body (handleContactSubmit_resume (Suspended (js "Send Message")) (Response 422)
          (samplePage (js "Ada") (js "a@b.com") (js "Hello"))) =
    [notificationElement 100 msgServerRejected (js "error")] ∧
  fields (handleContactSubmit_resume (Suspended (js "Send Message")) (Response 422)
            (samplePage (js "Ada") (js "a@b.com") (js "Hello"))) =
    fields (samplePage (js "Ada") (js "a@b.com") (js "Hello")).
Proof.
  assert (H : ¬ (200 ≤ 422 ≤ 299)) by lia.
  split; [exact H |].
  destruct (proj1 (failures_notify_error_without_retry (Suspended (js "Send Message"))
                     (samplePage (js "Ada") (js "a@b.com") (js "Hello"))) 422 H)
    as (_ & Hb & _ & Hf).
  split; [exact Hb | exact Hf].
Defined.

(** No event changes what the surroundings decide. *)
Lemma handle_env e s s' : handle e s = Some s' → env s' = env s.
Proof.
  destruct e as [f v|f| |k r|m ty|m|t]; simpl.
  - intros [= <-].
    pose proof (f_equal snd (validateAll_surroundings [f]
                  (set_fields (alter (set_value v) f (fields s)) s))) as H.
    cbn [validateAll] in H. destruct (validateField f _) as [ok s1]. exact H.
  - intros [= <-].
    pose proof (f_equal snd (validateAll_surroundings [f] s)) as H.
    cbn [validateAll] in H. destruct (validateField f _) as [ok s1]. exact H.
  - intros [= <-]. rewrite begin_unfold.
    pose proof (f_equal snd (validateForm_surroundings s)) as H.
    destruct (fst (validateForm s)); exact H.
  - intros [= <-]. unfold handleContactSubmit_resume.
    destruct r as [status|]; [destruct (ok status) |]; done.
  - by intros [= <-].
  - intros [= <-]. unfold click. by destruct (clickListeners s !! m).
  - intros H. apply runFuel_formPart in H. unfold formPart in H. congruence.
Qed.

Lemma run_env es : ∀ s last s' last',
  run es s last = Some (s', last') → env s' = env s.
Proof.
  induction es as [|e es IH]; intros s last s' last'; simpl; [by intros [= <- _] |].
  destruct (handle e s) as [s1|] eqn:H1; [|done].
  intros H. apply IH in H. apply handle_env in H1. congruence.
Qed.

(** C7 (as amended): the delay of the auto-dismiss timer depends on the
    severity alone, 5000 ms for error and 3000 ms for anything else, and
    the timer is queued for creation time + delay. In every run in which
    the notification is not clicked, no event throws, and the notification
    waits in the document until the delay has passed; then, and not
    before, the timer starts the exit tween, and the notification stays in
    the document until that tween has completed, which is when gsap's clock
    says, and is gone from then on. So at creation time + delay the
    notification is still in the document unless the tween is already over
    at that very time. *)
Theorem auto_dismiss_timeline (s : page) (message type : jsstring) (es : list event) :
  freshIds s →
  untouched (nextId s) es →
  (dismissDelay type = 5000 ↔ type = js "error") ∧
  (dismissDelay type = 3000 ↔ type ≠ js "error") ∧
  agenda (showNotification message type s) =
    agenda s ++ [(tweenEnd (env s) (now s) enterDuration, TweenEnd (nextId s) false);
                 (now s + dismissDelay type, Timeout (S (nextId s)) (nextId s))] ∧
  ∃ s' last,
    run es (showNotification message type s) ∅ = Some (s', last) ∧
    (now s' < now s + dismissDelay type →
       inPhase (nextId s) (now s + dismissDelay type)
         (exitEnd s (now s + dismissDelay type)) s' Waiting) ∧
    (now s + dismissDelay type ≤ now s' < exitEnd s (now s + dismissDelay type) →
       inPhase (nextId s) (now s + dismissDelay type)
         (exitEnd s (now s + dismissDelay type)) s' Leaving) ∧
    (now s + dismissDelay type ≤ now s' ∧
     exitEnd s (now s + dismissDelay type) ≤ now s' →
       inPhase (nextId s) (now s + dismissDelay type)
         (exitEnd s (now s + dismissDelay type)) s' Gone) ∧
    (attached (nextId s) s' = true ↔
     now s' < now s + dismissDelay type ∨
     now s' < exitEnd s (now s + dismissDelay type)).
Proof.
  intros Hfresh Hun.
  assert (Hd : dismissDelay type = if str_eqb type (js "error") then 5000 else 3000)
    by done.
  split; [|split; [|split]].
  - rewrite Hd. destruct (str_eqb _ _) eqn:He.
    + apply str_eqb_true in He. done.
    + apply str_eqb_false in He. done.
  - rewrite Hd. destruct (str_eqb _ _) eqn:He.
    + apply str_eqb_true in He. done.
    + apply str_eqb_false in He. done.
  - apply showNotification_agenda.
  - destruct (run_onTime (nextId s) (now s + dismissDelay type) es
                (showNotification message type s) ∅ Hun
                (showNotification_starts message type s Hfresh))
      as (s' & last & Hrun & _ & Hph).
    exists s', last. split; [done |].
    assert (He : exitEnd s' (now s + dismissDelay type) =
                 exitEnd s (now s + dismissDelay type)).
    { unfold exitEnd. by rewrite (run_env _ _ _ _ _ Hrun). }
    rewrite He in Hph.
    destruct Hph as [[Hp ?]|[[Hp ?]|[Hp ?]]].
    + split; [done |]. split; [lia |]. split; [lia |].
      destruct Hp as [-> _]. split; [auto | done].
    + split; [lia |]. split; [done |]. split; [lia |].
      destruct Hp as [-> _]. split; [intros _; right; lia | done].
    + split; [lia |]. split; [lia |]. split; [done |].
      destruct Hp as [-> _]. split; [done | lia].
Qed.

Lemma auto_dismiss_timeline_witness :
  freshIds (samplePage (js "Ada") (js "a@b.com") (js "Hello")) ∧
  untouched 100 [Elapse 3400] ∧
  agenda (showNotification (js "Saved") (js "success")
            (samplePage (js "Ada") (js "a@b.com") (js "Hello"))) =
    [(500, TweenEnd 100 false); (3000, Timeout 101 100)].
Proof.
  split; [apply samplePage_freshIds |].
  split; [reflexivity |].
  apply (auto_dismiss_timeline (samplePage (js "Ada") (js "a@b.com") (js "Hello"))
           (js "Saved") (js "success") [Elapse 3400]);
    [apply samplePage_freshIds | reflexivity].
Defined.

(** C7 as stated fails: 3000 ms after it was created an untouched success
    notification is still in the document, and so is an untouched error
    notification after 5000 ms: the timer has only started the exit tween.
    This is so on a clock on which a tween takes just its duration and on
    a clock that ticks every 16 ms. *)
Lemma auto_dismiss_removal_counterexample :
  attached 100 <$>
    advanceTo 3000 (showNotification (js "Saved") (js "success")
                     (samplePage (js "Ada") (js "a@b.com") (js "Hello"))) = Some true ∧
  attached 100 <$>
    advanceTo 5000 (showNotification (js "Failed") (js "error")
                     (samplePage (js "Ada") (js "a@b.com") (js "Hello"))) = Some true ∧
  attached 100 <$>
    advanceTo 3000 (showNotification (js "Saved") (js "success")
                     (samplePageIn frameClock (js "Ada") (js "a@b.com") (js "Hello"))) =
    Some true ∧
  attached 100 <$>
    advanceTo 5000 (showNotification (js "Failed") (js "error")
                     (samplePageIn frameClock (js "Ada") (js "a@b.com") (js "Hello"))) =
    Some true.
Proof. repeat split; vm_compute; reflexivity. Qed.

(** ** A cleared timer stays cleared; handlers never detach a notification *)

Section Cancelled.

Context (t : nat).

Lemma cancelled_ext s s' :
  agenda s' = agenda s → (nextId s ≤ nextId s')%nat → (cancelled t) s → (cancelled t) s'.
Proof. unfold cancelled, notQueued. intros -> ? [? ?]. split; [done | lia]. Qed.

Lemma runTask_cancelled tk s s' : runTask tk s = Some s' → (cancelled t) s → (cancelled t) s'.
Proof.
  intros H [Hq Hid]. pose proof (runTask_agenda _ _ _ H) as Ha.
  apply runTask_formPart in H. unfold formPart in H.
  split; [|injection H as _ _ _ _ _ _ _ ->; done].
  unfold notQueued. rewrite Ha. apply Forall_app. split; [done |].
  destruct tk; by repeat constructor.
Qed.

Lemma runFuel_cancelled fuel : ∀ u s s',
  runFuel fuel u s = Some s' → (cancelled t) s → (cancelled t) s'.
Proof.
  induction fuel as [|fuel IH]; intros u s s'; simpl; [by intros [= <-] |].
  destruct (popEarliest (agenda s)) as [[[d tk] rest]|] eqn:Hpop; [|by intros [= <-]].
  destruct (d <=? u); [|by intros [= <-]].
  destruct (runTask tk _) as [s1|] eqn:Hrun; simpl; [|done].
  intros H Hc. apply (IH _ _ _ H). apply (runTask_cancelled _ _ _ Hrun).
  destruct Hc as [Hq Hid]. split; [|done]. unfold notQueued in *. simpl.
  rewrite (popEarliest_Permutation _ _ _ Hpop) in Hq. by apply Forall_cons in Hq as [_ ?].
Qed.

Lemma showNotification_cancelled message type s :
  (cancelled t) s → (cancelled t) (showNotification message type s).
Proof.
  intros [Hq Hid]. split; [|simpl; lia].
  unfold notQueued. rewrite showNotification_agenda. apply Forall_app. split; [done |].
  repeat constructor. unfold isTimer. simpl. apply bool_decide_eq_false_2. lia.
Qed.

Lemma click_cancelled m s : (cancelled t) s → (cancelled t) (click m s).
Proof.
  intros [Hq Hid]. destruct (clickListeners s !! m) as [t'|] eqn:Hm;
    [|unfold click; by rewrite Hm].
  split; [|unfold click; by rewrite Hm].
  unfold notQueued in *. rewrite (click_agenda m t' s Hm). apply Forall_app.
  split; [|by repeat constructor].
  apply Forall_forall. intros x Hx. apply list_elem_of_filter in Hx as [_ Hx].
  by apply (proj1 (Forall_forall _ _) Hq).
Qed.

Lemma validateField_cancelled f s : (cancelled t) s → (cancelled t) (snd (validateField f s)).
Proof.
  destruct (fields s !! f) as [a|] eqn:Ha.
  - pose proof (validateField_surroundings _ _ a Ha) as Hs.
    apply cancelled_ext; [|by apply (validateField_nextId _ _ a)].
    unfold surroundings in Hs. congruence.
  - unfold validateField. by rewrite Ha.
Qed.

Lemma validateAll_cancelled l : ∀ s, (cancelled t) s → (cancelled t) (snd (validateAll l s)).
Proof.
  induction l as [|f l IH]; intros s H; simpl; [done |].
  apply (validateField_cancelled f) in H.
  destruct (validateField f s) as [v s1]. specialize (IH s1 H).
  by destruct (validateAll l s1).
Qed.

Lemma handle_cancelled e s s' : handle e s = Some s' → (cancelled t) s → (cancelled t) s'.
Proof.
  intros He H. destruct e as [f v|f| |k r|m ty|m|u]; simpl in He.
  - injection He as <-. apply validateField_cancelled. by apply (cancelled_ext s).
  - injection He as <-. by apply validateField_cancelled.
  - injection He as <-. rewrite begin_unfold, validateForm_validateAll. simpl.
    apply (validateAll_cancelled (requiredFields s)) in H.
    destruct (forallb _ _); [|done]. by apply (cancelled_ext _ _ eq_refl).
  - injection He as <-. unfold handleContactSubmit_resume.
    destruct r as [status|]; [destruct (ok status)|];
      (eapply cancelled_ext; [..|by apply showNotification_cancelled]); done.
  - injection He as <-. by apply showNotification_cancelled.
  - injection He as <-. by apply click_cancelled.
  - by apply (runFuel_cancelled _ _ _ _ He).
Qed.

Lemma run_cancelled es : ∀ s last,
  (cancelled t) s → ∃ s' last', run es s last = Some (s', last') ∧ (cancelled t) s'.
Proof.
  induction es as [|e es IH]; intros s last H; simpl; [eauto |].
  destruct (handle_total e s) as [s1 H1]. rewrite H1.
  apply IH. by apply (handle_cancelled e s s1).
Qed.

End Cancelled.

Section Attached.

Context (n : nat).

Lemma attached_body s s' : body s' = body s → attached n s' = attached n s.
Proof. unfold attached. by intros ->. Qed.

Lemma validateAll_body l : ∀ s, body (snd (validateAll l s)) = body s.
Proof.
  intros s. pose proof (validateAll_surroundings l s) as H.
  unfold surroundings in H. congruence.
Qed.

Lemma showNotification_attached message type s :
  attached n s = true → attached n (showNotification message type s) = true.
Proof.
  intros H.
  change (attached n (showNotification message type s)) with
    (attached n (set_body (body (showNotification message type s)) s)).
  by rewrite showNotification_body, attached_append, H.
Qed.

(** No handler detaches a notification on the spot. *)
Lemma handle_keeps_attached e s s' :
  isElapse e = false → handle e s = Some s' →
  attached n s = true → attached n s' = true.
Proof.
  intros Hne He H. destruct e as [f v|f| |k r|m ty|m|u]; simpl in He; try done;
    injection He as <-.
  - rewrite <- H. apply attached_body.
    pose proof (validateAll_body [f] (set_fields (alter (set_value v) f (fields s)) s)) as Hb.
    simpl in Hb. by destruct (validateField f _).
  - rewrite <- H. apply attached_body.
    pose proof (validateAll_body [f] s) as Hb.
    simpl in Hb. by destruct (validateField f _).
  - rewrite <- H. apply attached_body.
    rewrite begin_unfold, validateForm_validateAll. simpl.
    pose proof (validateAll_body (requiredFields s) s).
    by destruct (forallb _ _).
  - unfold handleContactSubmit_resume.
    destruct r as [status|]; [destruct (ok status)|];
      by apply (showNotification_attached _ _ s).
  - by apply showNotification_attached.
  - rewrite <- H. apply attached_body. unfold click.
    by destruct (clickListeners s !! m).
Qed.

End Attached.

(** ** At most one inline error element *)

Section AtMostOne.

Lemma set_fields_same s : set_fields (fields s) s = s.
Proof. by destruct s. Qed.

Lemma set_style_same field :
  f_borderColor field = [] → f_boxShadow field = [] → set_style [] [] field = field.
Proof. destruct field. simpl. by intros -> ->. Qed.

Lemma removeFieldError_atMostOne f s : atMostOne s → atMostOne (removeFieldError f s).
Proof.
  intros H p. destruct (fields s !! f) as [a|] eqn:Ha.
  - rewrite (removeFieldError_errorElements _ _ _ Ha). specialize (H p).
    case_decide; [|done]. destruct (errorElements p s); simpl in *; lia.
  - unfold removeFieldError. rewrite Ha. apply H.
Qed.

Lemma showFieldError_atMostOne f message s :
  atMostOne s → atMostOne (showFieldError f message s).
Proof.
  intros H p. destruct (fields s !! f) as [a|] eqn:Ha.
  - rewrite (showFieldError_errorElements _ _ _ Ha). specialize (H p).
    case_decide; [|done]. destruct (errorElements p s); simpl in *; lia.
  - unfold showFieldError. rewrite Ha. apply H.
Qed.

Lemma validateField_atMostOne f s : atMostOne s → atMostOne (snd (validateField f s)).
Proof.
  intros H p. destruct (fields s !! f) as [a|] eqn:Ha.
  - rewrite (validateField_errorElements _ _ _ Ha). specialize (H p).
    case_decide; [|done].
    destruct (errorElements p s) as [|e [|e' l]]; simpl in *;
      destruct (fst (validateField_checks a)); simpl; lia.
  - unfold validateField. rewrite Ha. apply H.
Qed.

Lemma atMostOne_ext s s' : errorMessages s' = errorMessages s → atMostOne s → atMostOne s'.
Proof. intros He H p. unfold errorElements. rewrite He. apply H. Qed.

Lemma validateAll_atMostOne l : ∀ s, atMostOne s → atMostOne (snd (validateAll l s)).
Proof.
  induction l as [|f l IH]; intros s H; simpl; [done |].
  apply (validateField_atMostOne f) in H.
  destruct (validateField f s) as [v s1]. specialize (IH s1 H).
  by destruct (validateAll l s1).
Qed.

Lemma handle_atMostOne e s s' : handle e s = Some s' → atMostOne s → atMostOne s'.
Proof.
  intros He H. destruct e as [f v|f| |k r|m ty|m|u]; simpl in He.
  - injection He as <-. apply validateField_atMostOne. by apply (atMostOne_ext s).
  - injection He as <-. by apply validateField_atMostOne.
  - injection He as <-. rewrite begin_unfold, validateForm_validateAll. simpl.
    apply (validateAll_atMostOne (requiredFields s)) in H.
    destruct (forallb _ _); [|done]. by apply (atMostOne_ext _ _ eq_refl).
  - injection He as <-. apply (atMostOne_ext s); [|done].
    unfold handleContactSubmit_resume.
    destruct r as [status|]; [destruct (ok status)|]; done.
  - injection He as <-. by apply (atMostOne_ext s).
  - injection He as <-. apply (atMostOne_ext s); [|done].
    unfold click. by destruct (clickListeners s !! m).
  - apply runFuel_formPart in He. apply (atMostOne_ext s); [|done].
    unfold formPart in He. congruence.
Qed.

Lemma run_atMostOne es : ∀ s last,
  atMostOne s → ∃ s' last', run es s last = Some (s', last') ∧ atMostOne s'.
Proof.
  induction es as [|e es IH]; intros s last H; simpl; [eauto |].
  destruct (handle_total e s) as [s1 H1]. rewrite H1.
  apply IH. by apply (handle_atMostOne e s s1).
Qed.

End AtMostOne.

(** C10 (as amended): clearing the error of a control that is already
    clean changes nothing. [showFieldError] updates the message of the
    error element it finds instead of creating another, and creates one
    only when there is none. A container that holds at most one error
    element holds at most one after [removeFieldError], [showFieldError]
    and [validateField], and along every run of the page. A failing
    [validateField] on a control that already shows a message removes that
    element and attaches a single new one. *)
Theorem error_clear_idempotent_single_error_element (s : page) (f : nat) (field : field) :
  fields s !! f = Some field →
  (errorElements (f_parentNode field) s = [] →
   f_borderColor field = [] → f_boxShadow field = [] →
   removeFieldError f s = s) ∧
  (∀ message e rest,
     errorElements (f_parentNode field) s = e :: rest →
     errorElements (f_parentNode field) (showFieldError f message s) =
       set_innerHTML (errorIcon ++ message) e :: rest ∧
     nextId (showFieldError f message s) = nextId s) ∧
  (∀ message,
     errorElements (f_parentNode field) s = [] →
     errorElements (f_parentNode field) (showFieldError f message s) =
       [Element (nextId s) (js "error-message") errorCssText (errorIcon ++ message)]) ∧
  (atMostOne s →
   atMostOne (removeFieldError f s) ∧
   (∀ message, atMostOne (showFieldError f message s)) ∧
   atMostOne (snd (validateField f s)) ∧
   (∀ es, ∃ s' last, run es s ∅ = Some (s', last) ∧ atMostOne s')) ∧
  (∀ e,
     errorElements (f_parentNode field) s = [e] →
     fst (validateField f s) = false →
     errorElements (f_parentNode field) (snd (validateField f s)) =
       [Element (nextId s) (js "error-message") errorCssText
          (errorIcon ++ snd (validateField_checks field))]).
Proof.
  intros Hf. split; [|split; [|split; [|split]]].
  - intros He Hb Hs. unfold removeFieldError. rewrite Hf, He. simpl.
    rewrite (set_style_same _ Hb Hs), insert_id by done. apply set_fields_same.
  - intros message e rest He.
    rewrite (showFieldError_errorElements _ _ _ Hf), (showFieldError_nextId _ _ _ Hf).
    rewrite decide_True by done. by rewrite He.
  - intros message He. rewrite (showFieldError_errorElements _ _ _ Hf).
    rewrite decide_True by done. by rewrite He.
  - intros H. split; [by apply removeFieldError_atMostOne |].
    split; [intros message; by apply showFieldError_atMostOne |].
    split; [by apply validateField_atMostOne |].
    intros es. by apply run_atMostOne.
  - intros e He Hv. rewrite (validateField_verdict _ _ _ Hf) in Hv.
    rewrite (validateField_errorElements _ _ _ Hf). rewrite decide_True by done.
    by rewrite Hv, He.
Qed.

Lemma error_clear_idempotent_single_error_element_witness :
  fields (samplePage [] (js "a@b.com") (js "Hello")) !! 1%nat =
    Some (sampleField "name" "text" true [] 10) ∧
  removeFieldError 1 (samplePage [] (js "a@b.com") (js "Hello")) =
    samplePage [] (js "a@b.com") (js "Hello").
Proof.
  split; [reflexivity |].
  apply (error_clear_idempotent_single_error_element
           (samplePage [] (js "a@b.com") (js "Hello")) 1
           (sampleField "name" "text" true [] 10));
    reflexivity.
Defined.

(** C10 as stated fails in one respect: a second failing validation of a
    control does not reuse the error element of the first. [validateField]
    removes that element (identity 100) and attaches a new one (identity
    101); there is still exactly one. *)
Lemma failing_validation_replaces_element_counterexample :
  fst (validateField 1 (samplePage [] (js "a@b.com") (js "Hello"))) = false ∧
  map el_id
    (errorElements 10
       (snd (validateField 1 (samplePage [] (js "a@b.com") (js "Hello"))))) =
    [100%nat] ∧
  fst (validateField 1
         (snd (validateField 1 (samplePage [] (js "a@b.com") (js "Hello"))))) = false ∧
  map el_id
    (errorElements 10
       (snd (validateField 1
               (snd (validateField 1 (samplePage [] (js "a@b.com") (js "Hello"))))))) =
    [101%nat].
Proof. repeat split; vm_compute; reflexivity. Qed.

Lemma samplePage_lookup name email message f a :
  fields (samplePage name email message) !! f = Some a →
  (f = 1%nat ∧ f_parentNode a = 10%nat) ∨
  (f = 2%nat ∧ f_parentNode a = 20%nat) ∨
  (f = 3%nat ∧ f_parentNode a = 30%nat).
Proof.
  unfold samplePage. simpl. intros H.
  apply lookup_insert_Some in H as [[<- <-]|[_ H]]; [by left |].
  apply lookup_insert_Some in H as [[<- <-]|[_ H]]; [right; by left |].
  apply lookup_insert_Some in H as [[<- <-]|[_ H]]; [right; by right |].
  by rewrite lookup_empty in H.
Qed.

Lemma samplePage_ownContainers name email message :
  ownContainers (samplePage name email message).
Proof.
  intros f g a b Hf Hg Hp.
  apply samplePage_lookup in Hf as [[-> Hf]|[[-> Hf]|[-> Hf]]];
    apply samplePage_lookup in Hg as [[-> Hg]|[[-> Hg]|[-> Hg]]];
    congruence.
Qed.

Lemma validateForm_conjunction_no_short_circuit_witness :
  ownContainers (samplePage [] (js "nobody") []) ∧
  noErrorMessages (samplePage [] (js "nobody") []) ∧
  3%nat ∈ requiredFields (samplePage [] (js "nobody") []) ∧
  fst (validateField 3 (samplePage [] (js "nobody") [])) = false ∧
  ∃ m, inlineError 3 (snd (validateForm (samplePage [] (js "nobody") []))) = Some m ∧
       m ≠ [].
Proof.
  assert (H3 : 3%nat ∈ requiredFields (samplePage [] (js "nobody") [])).
  { right. right. left. }
  split; [apply samplePage_ownContainers |].
  split; [by apply noErrorMessages_empty |].
  split; [exact H3 |].
  split; [reflexivity |].
  apply (validateForm_conjunction_no_short_circuit (samplePage [] (js "nobody") []));
    [apply samplePage_ownContainers | by apply noErrorMessages_empty | exact H3
    | reflexivity].
Defined.



(** * Further properties of the code *)

(** ** Submission, before the request *)

Lemma forallb_false {A} (p : A → bool) l :
  forallb p l = false ↔ ∃ x, x ∈ l ∧ p x = false.
Proof.
  induction l as [|a l IH]; simpl.
  - split; [done | intros (x & Hx & _); by apply elem_of_nil in Hx].
  - rewrite andb_false_iff, IH. split.
    + intros [Ha|(x & Hx & Hp)]; [exists a; split; [left | done] |].
      exists x. split; [by right | done].
    + intros (x & Hx & Hp). apply elem_of_cons in Hx as [->|Hx]; [by left |].
      right. eauto.
Qed.

Lemma FormData_sameData s s' :
  sameData s s' → formElements s' = formElements s → FormData s' = FormData s.
Proof.
  intros Hd He. unfold FormData. rewrite He.
  apply list_omap_ext, Forall2_same_length_lookup. split; [done |].
  intros i f g Hf Hg. assert (g = f) as -> by congruence.
  specialize (Hd f).
  destruct (fields s !! f) as [a|], (fields s' !! f) as [b|]; simpl in *;
    try discriminate; [|done].
  apply (inj Some) in Hd. unfold fieldData in Hd. unfold formDataEntry.
  injection Hd as -> -> _ -> _ _. done.
Qed.

Lemma toUSVString_noSurrogates v : noSurrogates v → toUSVString v = v.
Proof.
  induction 1 as [|c v [Hh Hl] _ IH]; [done |].
  cbn [toUSVString]. by rewrite Hh, Hl, IH.
Qed.

(** X1: a submission is stopped before the request exactly when some
    required control fails its validation; a stopped submission sends
    nothing, shows no notification, queues nothing and leaves the submit
    control as it was. *)
Theorem invalid_submission_sends_nothing (s : page) :
  (fst (handleContactSubmit_begin s) = None ↔
   ∃ f, f ∈ requiredFields s ∧ fst (validateField f s) = false) ∧
  (fst (handleContactSubmit_begin s) = None →
   requests (snd (handleContactSubmit_begin s)) = requests s ∧
   body (snd (handleContactSubmit_begin s)) = body s ∧
   agenda (snd (handleContactSubmit_begin s)) = agenda s ∧
   submitButton (snd (handleContactSubmit_begin s)) = submitButton s).
Proof.
  rewrite begin_unfold.
  pose proof (validateForm_surroundings s) as Hs. unfold surroundings in Hs.
  assert (Hv : fst (validateForm s) = false ↔
               ∃ f, f ∈ requiredFields s ∧ fst (validateField f s) = false).
  { rewrite validateForm_validateAll. cbn [fst]. rewrite validateAll_calls, forallb_false.
    split.
    - intros ([f ok] & Hin & Hf). apply list_elem_of_fmap in Hin as (g & [= -> ->] & Hg).
      eauto.
    - intros (f & Hf & Hfail). exists (f, fst (validateField f s)).
      split; [|done]. apply list_elem_of_fmap. eauto. }
  destruct (fst (validateForm s)); cbn [fst snd].
  - split; [|done]. split; [done |]. intros H. by apply Hv in H.
  - split; [|intros _; repeat split; congruence].
    split; [intros _; by apply Hv | done].
Qed.

Lemma invalid_submission_sends_nothing_witness :
  fst (handleContactSubmit_begin (samplePage (js "Ada") (js "ada@") (js "Hello"))) = None ∧
  requests (snd (handleContactSubmit_begin (samplePage (js "Ada") (js "ada@") (js "Hello")))) =
    [].
Proof.
  split; [reflexivity |].
  apply (invalid_submission_sends_nothing (samplePage (js "Ada") (js "ada@") (js "Hello"))).
  reflexivity.
Defined.

Lemma omap_formDataEntry (m : gmap nat field) (l : list nat) :
  omap (λ f, m !! f ≫= formDataEntry) l =
  (λ field, (toUSVString (f_name field), toUSVString (f_value field))) <$>
  filter (λ field, f_name field ≠ [] ∧ f_type field ∉ buttonTypes)
    (omap (λ f, m !! f) l).
Proof.
  induction l as [|f l IH]; [done |].
  cbn [omap list_omap]. destruct (m !! f) as [field|]; [|exact IH].
  cbn [mbind option_bind]. rewrite filter_cons. unfold formDataEntry at 1.
  destruct (decide (f_name field = [])) as [Hn|Hn].
  - rewrite Hn. cbn [truthy negb orb]. rewrite decide_False by (by intros [? _]).
    exact IH.
  - rewrite (proj2 (truthy_true _) Hn). cbn [negb orb]. case_bool_decide as Ht.
    + rewrite decide_False by (by intros [_ ?]). exact IH.
    + rewrite decide_True by done. cbn [fmap list_fmap]. by rewrite <- IH.
Qed.

(** X2: a submission that passes validation sends one POST request to the
    form's action, asking for JSON. For a form of text controls its body
    lists, in document order, the name and the value of exactly the
    controls that have a name and are no buttons, as they were when the
    form was submitted: the value goes out as the control holds it, not
    trimmed as validation reads it, with U+FFFD for every unpaired
    surrogate. Validation has changed no data and no verdict. *)
Theorem valid_submission_request (s : page) (k : suspended) (s1 : page) :
  handleContactSubmit_begin s = (Some k, s1) →
  textControls s →
  requests s1 =
    requests s ++ [Request (formAction s) (js "POST") (FormData s) (js "application/json")] ∧
  FormData s =
    (λ field, (toUSVString (f_name field), toUSVString (f_value field))) <$>
    filter (λ field, f_name field ≠ [] ∧ f_type field ∉ buttonTypes)
      (omap (λ f, fields s !! f) (formElements s)) ∧
  (∀ f field, f ∈ formElements s → fields s !! f = Some field →
     f_name field ≠ [] → f_type field ∉ buttonTypes →
     (toUSVString (f_name field), toUSVString (f_value field)) ∈ FormData s ∧
     (noSurrogates (f_name field) → noSurrogates (f_value field) →
      (f_name field, f_value field) ∈ FormData s)) ∧
  (∀ entry, entry ∈ FormData s →
     ∃ f field, f ∈ formElements s ∧ fields s !! f = Some field ∧
       f_name field ≠ [] ∧ (f_type field ∉ buttonTypes) ∧
       entry = (toUSVString (f_name field), toUSVString (f_value field))) ∧
  (∀ f, fst (validateField f s) = fst (validateField f s1)) ∧
  sameData s s1.
Proof.
  rewrite begin_unfold.
  pose proof (validateForm_surroundings s) as Hs. unfold surroundings in Hs.
  assert (Hd : sameData s (snd (validateForm s))).
  { rewrite validateForm_validateAll. apply validateAll_sameData. }
  destruct (fst (validateForm s)); [|discriminate]. intros [= _ <-] _.
  assert (He : ∀ field, f_name field ≠ [] → f_type field ∉ buttonTypes →
            formDataEntry field =
            Some (toUSVString (f_name field), toUSVString (f_value field))).
  { intros field Hn Ht. unfold formDataEntry.
    rewrite (proj2 (truthy_true _) Hn), (bool_decide_eq_false_2 _ Ht). done. }
  split; [|split; [|split; [|split; [|split]]]].
  - simpl. f_equal; [congruence |]. f_equal. f_equal; [congruence |].
    apply FormData_sameData; [done | congruence].
  - apply omap_formDataEntry.
  - intros f field Hf Hl Hn Ht.
    assert (Hin : (toUSVString (f_name field), toUSVString (f_value field)) ∈ FormData s).
    { unfold FormData. apply list_elem_of_omap.
      exists f. split; [done |]. rewrite Hl. simpl. by apply He. }
    split; [done |]. intros H1 H2.
    by rewrite (toUSVString_noSurrogates _ H1), (toUSVString_noSurrogates _ H2) in Hin.
  - intros entry Hin. unfold FormData in Hin.
    apply list_elem_of_omap in Hin as (f & Hf & Hentry).
    destruct (fields s !! f) as [field|] eqn:Hl; [|done]. simpl in Hentry.
    unfold formDataEntry in Hentry.
    destruct (truthy (f_name field)) eqn:Hn; [|done].
    destruct (bool_decide (f_type field ∈ buttonTypes)) eqn:Ht; [done |].
    simpl in Hentry. injection Hentry as <-.
    exists f, field. split; [done |]. split; [done |].
    split; [by intros H; rewrite H in Hn |].
    split; [by apply bool_decide_eq_false in Ht | done].
  - intros f. symmetry. by apply verdict_sameData.
  - done.
Qed.

Lemma samplePage_textControls name email message :
  textControls (samplePage name email message).
Proof.
  intros f field Hf Hl Ht. cbn [samplePage samplePageIn formElements fields] in Hf, Hl.
  assert (Hty : f_type field = js "text" ∨ f_type field = js "email" ∨
                f_type field = js "textarea").
  { apply elem_of_cons in Hf as [-> | Hf].
    { rewrite lookup_insert_eq in Hl. injection Hl as <-. by left. }
    apply elem_of_cons in Hf as [-> | Hf].
    { rewrite lookup_insert_ne, lookup_insert_eq in Hl by done.
      injection Hl as <-. right. by left. }
    apply list_elem_of_singleton in Hf as ->.
    rewrite !lookup_insert_ne, lookup_insert_eq in Hl by done.
    injection Hl as <-. right. by right. }
  unfold valuelessTypes in Ht.
  destruct Hty as [Hty | [Hty | Hty]]; rewrite Hty in Ht;
    repeat (apply elem_of_cons in Ht as [Ht | Ht];
            [vm_compute in Ht; discriminate |]);
    by apply elem_of_nil in Ht.
Qed.

Lemma valid_submission_request_witness :
  handleContactSubmit_begin (samplePage (js " Ada ") (js "a@b.com") (js "Hello")) =
    (Some (Suspended (js "Send Message")),
     snd (handleContactSubmit_begin (samplePage (js " Ada ") (js "a@b.com") (js "Hello")))) ∧
  textControls (samplePage (js " Ada ") (js "a@b.com") (js "Hello")) ∧
  requests (snd (handleContactSubmit_begin (samplePage (js " Ada ") (js "a@b.com") (js "Hello")))) =
    [Request (js "https://formspree.io/f/contact") (js "POST")
       [(js "name", js " Ada "); (js "email", js "a@b.com"); (js "message", js "Hello")]
       (js "application/json")].
Proof.
  assert (H : handleContactSubmit_begin (samplePage (js " Ada ") (js "a@b.com") (js "Hello")) =
              (Some (Suspended (js "Send Message")),
               snd (handleContactSubmit_begin
                      (samplePage (js " Ada ") (js "a@b.com") (js "Hello")))))
    by (vm_compute; reflexivity).
  split; [exact H |]. split; [apply samplePage_textControls |].
  apply (valid_submission_request _ _ _ H (samplePage_textControls _ _ _)).
Defined.

(** ** Validating again, and clearing *)

Section ClassList.

Lemma classList_remove_idem c l :
  classList_remove c (classList_remove c l) = classList_remove c l.
Proof.
  unfold classList_remove. induction l as [|x l IH]; [done |].
  rewrite filter_cons. case_decide; [|done].
  by rewrite filter_cons, decide_True, IH.
Qed.

Lemma classList_remove_add c l :
  classList_remove c (classList_add c (classList_remove c l)) = classList_remove c l.
Proof.
  unfold classList_add. case_decide; [apply classList_remove_idem |].
  unfold classList_remove at 1. rewrite filter_app.
  fold (classList_remove c (classList_remove c l)). rewrite classList_remove_idem.
  rewrite filter_cons, decide_False by (intros H'; by apply H').
  apply app_nil_r.
Qed.

End ClassList.

(** X3: validating a control a second time changes nothing that can be
    seen: the verdict is the same, every control is as the first
    validation left it, and every container shows the same messages (a
    failing control gets a new error element with the same content). *)
Theorem validateField_twice (s : page) (f : nat) (field : field) :
  fields s !! f = Some field →
  (length (errorElements (f_parentNode field) s) ≤ 1)%nat →
  fst (validateField f (snd (validateField f s))) = fst (validateField f s) ∧
  fields (snd (validateField f (snd (validateField f s)))) =
    fields (snd (validateField f s)) ∧
  (∀ q, map el_innerHTML (errorElements q (snd (validateField f (snd (validateField f s))))) =
        map el_innerHTML (errorElements q (snd (validateField f s)))) ∧
  surroundings (snd (validateField f (snd (validateField f s)))) =
    surroundings (snd (validateField f s)).
Proof.
  intros Hf Hlen.
  assert (Ht : tail (errorElements (f_parentNode field) s) = []).
  { destruct (errorElements (f_parentNode field) s) as [|e [|e' l]];
      simpl in *; [done | done | lia]. }
  pose proof (validateField_fields s f field Hf f) as H1. rewrite decide_True in H1 by done.
  set (s1 := snd (validateField f s)) in *.
  set (field1 := if fst (validateField_checks field)
                 then set_style [] []
                        (set_classList (classList_remove (js "error") (f_classList field)) field)
                 else set_style (js "#ef4444") (js "0 0 0 3px rgba(239, 68, 68, 0.1)")
                        (set_classList
                           (classList_add (js "error")
                              (classList_remove (js "error") (f_classList field))) field)) in *.
  assert (Hc : validateField_checks field1 = validateField_checks field).
  { apply checks_fieldData. unfold field1. by destruct (fst (validateField_checks field)). }
  assert (Hp : f_parentNode field1 = f_parentNode field).
  { unfold field1. by destruct (fst (validateField_checks field)). }
  split; [|split; [|split]].
  - apply verdict_sameData, validateField_sameData.
  - apply map_eq. intros g. rewrite (validateField_fields s1 f field1 H1).
    case_decide; [subst g | done]. rewrite H1, Hc. f_equal.
    unfold field1. destruct (fst (validateField_checks field)); destruct field; simpl.
    + by rewrite classList_remove_idem.
    + by rewrite classList_remove_add.
  - intros q. rewrite (validateField_errorElements s1 f field1 H1), Hp, Hc.
    case_decide; [subst q | done].
    unfold s1. rewrite (validateField_errorElements s f field Hf), decide_True, Ht by done.
    by destruct (fst (validateField_checks field)).
  - by apply (validateField_surroundings s1 f field1).
Qed.

Lemma validateField_twice_witness :
  fields (samplePage [] (js "a@b.com") (js "Hello")) !! 1%nat =
    Some (sampleField "name" "text" true [] 10) ∧
  fst (validateField 1 (snd (validateField 1 (samplePage [] (js "a@b.com") (js "Hello"))))) =
    fst (validateField 1 (samplePage [] (js "a@b.com") (js "Hello"))).
Proof.
  split; [reflexivity |].
  apply (validateField_twice (samplePage [] (js "a@b.com") (js "Hello")) 1
           (sampleField "name" "text" true [] 10)); [reflexivity | vm_compute; lia].
Defined.

Lemma notSpaceAt_facts l :
  Forall (λ c, notSpaceAt c = true) l →
  atSigns l = [] ∧ Forall (λ c, isWhiteSpace c = false) l.
Proof.
  unfold atSigns. induction 1 as [|c l Hc _ [IH1 IH2]]; [done |].
  unfold notSpaceAt in Hc. apply andb_true_iff in Hc as [Hw Ha].
  apply negb_true_iff in Hw, Ha. apply N.eqb_neq in Ha.
  rewrite filter_cons, decide_False by done. split; [done | by constructor].
Qed.

(** X4: an e-mail control that passes validation with a non-blank value
    holds, once trimmed, at least five code units, exactly one [@] and no
    white space. *)
Theorem valid_email_has_one_at (s : page) (f : nat) (field : field) :
  fields s !! f = Some field →
  f_type field = js "email" →
  trim (f_value field) ≠ [] →
  fst (validateField f s) = true →
  length (atSigns (trim (f_value field))) = 1%nat ∧
  Forall (λ c, isWhiteSpace c = false) (trim (f_value field)) ∧
  (5 ≤ length (trim (f_value field)))%nat.
Proof.
  intros Hf Ht Hv. rewrite (validateField_verdict _ _ _ Hf), (checks_email _ Ht Hv).
  destruct (test emailRegex _) eqn:He; [intros _ | discriminate].
  apply emailRegex_shape in He as (l & d & t & -> & Hl & Hd & Htl & Fl & Fd & Ft).
  apply notSpaceAt_facts in Fl as [Al Wl], Fd as [Ad Wd], Ft as [At Wt].
  split; [|split].
  - unfold atSigns in *. rewrite !filter_app, Al, Ad, At. done.
  - rewrite !Forall_app. repeat split; try done; by repeat constructor.
  - rewrite !length_app. simpl.
    destruct l, d, t; simpl; try done; lia.
Qed.

Lemma valid_email_has_one_at_witness :
  fields (samplePage (js "Ada") (js " a@b.com") (js "Hello")) !! 2%nat =
    Some (sampleField "email" "email" true (js " a@b.com") 20) ∧
  length (atSigns (trim (js " a@b.com"))) = 1%nat.
Proof.
  split; [reflexivity |].
  apply (valid_email_has_one_at (samplePage (js "Ada") (js " a@b.com") (js "Hello")) 2
           (sampleField "email" "email" true (js " a@b.com") 20));
    [reflexivity | reflexivity | vm_compute; discriminate | reflexivity].
Defined.

(** X5: [clearFieldError] acts only on a control that carries the class
    [error] and holds a non-blank value; then it takes the class off,
    resets the styling and removes the error element of the container,
    whatever the value is (an e-mail address that is still malformed
    included), and changes no data of any control. Otherwise it leaves
    the page as it is. *)
Theorem clearFieldError_effect (s : page) (f : nat) (field : field) :
  fields s !! f = Some field →
  (js "error" ∈ f_classList field → trim (f_value field) ≠ [] →
   (∃ field', fields (clearFieldError f s) !! f = Some field' ∧ markedAs true field') ∧
   errorElements (f_parentNode field) (clearFieldError f s) =
     tail (errorElements (f_parentNode field) s) ∧
   (∀ q, q ≠ f_parentNode field →
      errorElements q (clearFieldError f s) = errorElements q s) ∧
   (∀ g, g ≠ f → fields (clearFieldError f s) !! g = fields s !! g) ∧
   sameData s (clearFieldError f s)) ∧
  (js "error" ∉ f_classList field ∨ trim (f_value field) = [] →
   clearFieldError f s = s).
Proof.
  intros Hf. unfold clearFieldError. rewrite Hf. split.
  - intros He Hv. rewrite bool_decide_eq_true_2 by done.
    apply truthy_true in Hv. rewrite Hv. simpl.
    pose proof (cleared_lookup s f field) as Hc. unfold withoutErrorClass in Hc.
    pose proof (removeFieldError_fields _ _ _ Hc) as Hfields.
    pose proof (removeFieldError_errorElements _ _ _ Hc) as Herr. simpl in Herr.
    split; [|split; [|split; [|split]]].
    + rewrite Hfields, decide_True by done. eexists. split; [done |].
      unfold markedAs. simpl. split; [|done].
      split; [|done]. intros H. by apply error_not_in_removed in H.
    + by rewrite Herr, decide_True.
    + intros q Hq. by rewrite Herr, decide_False.
    + intros g Hg. rewrite Hfields, decide_False by done. simpl.
      by rewrite lookup_insert_ne.
    + intros g. rewrite Hfields. case_decide; [subst g; by rewrite Hf |].
      simpl. by rewrite lookup_insert_ne.
  - intros [He|Hv].
    + by rewrite bool_decide_eq_false_2.
    + apply truthy_false in Hv. by rewrite Hv, andb_false_r.
Qed.

Lemma clearFieldError_effect_witness :
  fields (snd (validateField 2 (samplePage (js "Ada") (js "ada@") (js "Hello")))) !! 2%nat =
    Some (set_style (js "#ef4444") (js "0 0 0 3px rgba(239, 68, 68, 0.1)")
            (set_classList [js "error"] (sampleField "email" "email" true (js "ada@") 20))) ∧
  errorElements 20
    (clearFieldError 2 (snd (validateField 2 (samplePage (js "Ada") (js "ada@") (js "Hello"))))) =
    [].
Proof.
  split; [reflexivity |].
  apply (clearFieldError_effect
           (snd (validateField 2 (samplePage (js "Ada") (js "ada@") (js "Hello")))) 2
           (set_style (js "#ef4444") (js "0 0 0 3px rgba(239, 68, 68, 0.1)")
              (set_classList [js "error"]
                 (sampleField "email" "email" true (js "ada@") 20))));
    [reflexivity | by left | vm_compute; discriminate].
Defined.

(** X6: on a control in the error state whose value is not blank and now
    passes validation, [clearFieldError] and [validateField] leave the
    same page. *)
Theorem clearFieldError_agrees_with_valid (s : page) (f : nat) (field : field) :
  fields s !! f = Some field →
  js "error" ∈ f_classList field →
  trim (f_value field) ≠ [] →
  fst (validateField f s) = true →
  clearFieldError f s = snd (validateField f s).
Proof.
  intros Hf He Hv Hok. rewrite (validateField_verdict _ _ _ Hf) in Hok.
  rewrite (validateField_unfold _ _ _ Hf). cbn [snd]. rewrite Hok. simpl.
  unfold clearFieldError. rewrite Hf, bool_decide_eq_true_2 by done.
  apply truthy_true in Hv. by rewrite Hv.
Qed.

Lemma clearFieldError_agrees_with_valid_witness :
  clearFieldError 1
    (set_fields
       (alter (set_value (js "Ada")) 1%nat
          (fields (snd (validateField 1 (samplePage [] (js "a@b.com") (js "Hello"))))))
       (snd (validateField 1 (samplePage [] (js "a@b.com") (js "Hello"))))) =
  snd (validateField 1
         (set_fields
            (alter (set_value (js "Ada")) 1%nat
               (fields (snd (validateField 1 (samplePage [] (js "a@b.com") (js "Hello"))))))
            (snd (validateField 1 (samplePage [] (js "a@b.com") (js "Hello")))))).
Proof.
  apply (clearFieldError_agrees_with_valid _ 1
           (set_value (js "Ada")
              (set_style (js "#ef4444") (js "0 0 0 3px rgba(239, 68, 68, 0.1)")
                 (set_classList [js "error"] (sampleField "name" "text" true [] 10)))));
    [reflexivity | by left | vm_compute; discriminate | reflexivity].
Defined.

(** ** Identities *)

Section Identities.

Lemma filter_all {A} (P : A → Prop) `{∀ x, Decision (P x)} (l : list A) :
  Forall P l → filter P l = l.
Proof.
  induction 1 as [|x l Hx _ IH]; [done |].
  by rewrite filter_cons, decide_True, IH.
Qed.

Lemma freshIds_ext s s' :
  body s' = body s → agenda s' = agenda s → clickListeners s' = clickListeners s →
  (nextId s ≤ nextId s')%nat → freshIds s → freshIds s'.
Proof.
  intros Hb Ha Hc Hn (Fb & Fa & Fl). unfold freshIds. rewrite Hb, Ha, Hc.
  split; [|split].
  - eapply Forall_impl; [done |]. simpl. intros. lia.
  - eapply Forall_impl; [done |]. intros [d [t m|m b]]; simpl; lia.
  - eapply map_Forall_impl; [done |]. simpl. intros. lia.
Qed.

Lemma wellNumbered_ext s s' :
  body s' = body s → agenda s' = agenda s → clickListeners s' = clickListeners s →
  (nextId s ≤ nextId s')%nat → wellNumbered s → wellNumbered s'.
Proof.
  intros Hb Ha Hc Hn [Hf Hd]. split; [by apply (freshIds_ext s) | by rewrite Hb].
Qed.

Lemma showNotification_wellNumbered message type s :
  wellNumbered s → wellNumbered (showNotification message type s).
Proof.
  intros [(Fb & Fa & Fl) Hd]. split; [split; [|split] |].
  - simpl. apply Forall_app. split; [|repeat constructor; simpl; lia].
    eapply Forall_impl; [done |]. simpl. intros. lia.
  - rewrite showNotification_agenda. simpl. apply Forall_app.
    split; [|repeat constructor; simpl; lia].
    eapply Forall_impl; [done |]. intros [d [t m|m b]]; simpl; lia.
  - simpl. apply map_Forall_insert_2; [lia |].
    eapply map_Forall_impl; [done |]. simpl. intros. lia.
  - simpl. rewrite map_app. simpl. apply NoDup_app. split; [done |].
    split; [|apply NoDup_singleton].
    intros x Hx Hx'. apply list_elem_of_singleton in Hx' as ->.
    apply list_elem_of_fmap in Hx as (e & He & Hin).
    apply (proj1 (Forall_forall _ _) Fb) in Hin. lia.
Qed.

Lemma click_wellNumbered m s : wellNumbered s → wellNumbered (click m s).
Proof.
  intros [(Fb & Fa & Fl) Hd].
  destruct (clickListeners s !! m) as [t|] eqn:Hm; [|unfold click; by rewrite Hm].
  split; [split; [|split] |]; try (unfold click; by rewrite Hm).
  rewrite (click_agenda m t s Hm).
  replace (nextId (click m s)) with (nextId s) by (unfold click; by rewrite Hm).
  apply Forall_app. split.
  - apply Forall_forall. intros x Hx. apply list_elem_of_filter in Hx as [_ Hx].
    by apply (proj1 (Forall_forall _ _) Fa).
  - repeat constructor. simpl. by apply Fl in Hm as [? _].
Qed.

Lemma NoDup_ids_filter m (l : list element) :
  NoDup (map el_id l) → NoDup (map el_id (filter (λ e, el_id e ≠ m) l)).
Proof.
  induction l as [|e l IH]; [done |]. simpl. intros Hd.
  apply NoDup_cons in Hd as [Hn Hd]. rewrite filter_cons.
  case_decide; [|by apply IH]. simpl. apply NoDup_cons. split; [|by apply IH].
  intros Hin. apply Hn. apply list_elem_of_fmap in Hin as (e' & He & Hin).
  apply list_elem_of_filter in Hin as [_ Hin]. apply list_elem_of_fmap. eauto.
Qed.

Lemma runTask_wellNumbered tk s s' :
  (match tk with
   | Timeout t m => (m < nextId s)%nat
   | TweenEnd _ _ => True
   end) →
  runTask tk s = Some s' → wellNumbered s → wellNumbered s'.
Proof.
  intros Htk Hrun [(Fb & Fa & Fl) Hd]. destruct tk as [t m|m [|]]; simpl in Hrun.
  - injection Hrun as <-. split; [|done]. split; [done |]. split; [|done].
    simpl. apply Forall_app. split; [done |]. by repeat constructor.
  - rewrite onComplete_Some in Hrun. injection Hrun as <-.
    destruct (attached m s); [|done].
    split; [|by apply NoDup_ids_filter].
    split; [|done]. simpl. apply Forall_forall. intros x Hx.
    apply list_elem_of_filter in Hx as [_ Hx]. by apply (proj1 (Forall_forall _ _) Fb).
  - by injection Hrun as <-.
Qed.

Lemma runFuel_wellNumbered fuel : ∀ t s s',
  runFuel fuel t s = Some s' → wellNumbered s → wellNumbered s'.
Proof.
  induction fuel as [|fuel IH]; intros t s s'; simpl.
  { intros [= <-]. by apply wellNumbered_ext. }
  destruct (popEarliest (agenda s)) as [[[d tk] rest]|] eqn:Hpop;
    [|intros [= <-]; by apply wellNumbered_ext].
  destruct (d <=? t); [|intros [= <-]; by apply wellNumbered_ext].
  destruct (runTask tk _) as [s1|] eqn:Hrun; simpl; [|done].
  intros H Hw. apply (IH _ _ _ H). destruct Hw as [(Fb & Fa & Fl) Hd].
  rewrite (popEarliest_Permutation _ _ _ Hpop) in Fa.
  apply Forall_cons in Fa as [Htk Fa]. simpl in Htk.
  assert (Htk' : match tk with
                 | Timeout _ m =>
                     (m < nextId (set_now (N.max (now s) d) (set_agenda rest s)))%nat
                 | TweenEnd _ _ => True
                 end) by (destruct tk; simpl in *; [lia | done]).
  apply (runTask_wellNumbered tk _ _ Htk' Hrun). by split.
Qed.

Lemma validateAll_nextId l : ∀ s, (nextId s ≤ nextId (snd (validateAll l s)))%nat.
Proof.
  induction l as [|f l IH]; intros s; simpl; [done |].
  assert (H1 : (nextId s ≤ nextId (snd (validateField f s)))%nat).
  { destruct (fields s !! f) as [a|] eqn:Ha.
    - by apply (validateField_nextId _ _ a).
    - unfold validateField. by rewrite Ha. }
  destruct (validateField f s) as [v s1]. specialize (IH s1).
  destruct (validateAll l s1) as [calls s2]. simpl in *. lia.
Qed.

Lemma validateAll_wellNumbered l s : wellNumbered s → wellNumbered (snd (validateAll l s)).
Proof.
  pose proof (validateAll_surroundings l s) as Hs. unfold surroundings in Hs.
  apply wellNumbered_ext; [congruence.. | apply validateAll_nextId].
Qed.

Lemma handle_wellNumbered e s s' : handle e s = Some s' → wellNumbered s → wellNumbered s'.
Proof.
  intros He H. destruct e as [f v|f| |k r|m ty|m|u]; simpl in He.
  - injection He as <-.
    pose proof (validateAll_wellNumbered [f]
                  (set_fields (alter (set_value v) f (fields s)) s)) as Hv.
    simpl in Hv. destruct (validateField f _). apply Hv. by apply (wellNumbered_ext s).
  - injection He as <-. pose proof (validateAll_wellNumbered [f] s H) as Hv.
    simpl in Hv. by destruct (validateField f s).
  - injection He as <-. rewrite begin_unfold, validateForm_validateAll. simpl.
    apply (validateAll_wellNumbered (requiredFields s)) in H.
    destruct (forallb _ _); [|done]. by apply (wellNumbered_ext _ _ eq_refl eq_refl eq_refl).
  - injection He as <-. unfold handleContactSubmit_resume.
    destruct r as [status|]; [destruct (ok status)|];
      (eapply wellNumbered_ext; [..|by apply showNotification_wellNumbered]); done.
  - injection He as <-. by apply showNotification_wellNumbered.
  - injection He as <-. by apply click_wellNumbered.
  - by apply (runFuel_wellNumbered _ _ _ _ He).
Qed.

End Identities.

(** X7: along every run of the page, from a page on which every identity
    in use was handed out and no two elements of the body share one, this
    stays so: notifications never share an identity, every queued timer
    and tween refers to an identity that was handed out, and the next
    notification gets one that is new. *)
Theorem identities_stay_distinct (es : list event) (s : page) (last : gmap nat bool) :
  wellNumbered s →
  ∃ s' last', run es s last = Some (s', last') ∧ wellNumbered s'.
Proof.
  revert s last. induction es as [|e es IH]; intros s last H; simpl; [eauto |].
  destruct (handle_total e s) as [s1 H1]. rewrite H1.
  apply IH. by apply (handle_wellNumbered e s s1).
Qed.

Lemma identities_stay_distinct_witness :
  wellNumbered (samplePage (js "Ada") (js "a@b.com") (js "Hello")) ∧
  ∃ s' last',
    run [Notify (js "Saved") (js "success"); Submit; Settle (Suspended []) Rejected;
         Click 100; Elapse 500]
      (samplePage (js "Ada") (js "a@b.com") (js "Hello")) ∅ = Some (s', last') ∧
    wellNumbered s'.
Proof.
  assert (H : wellNumbered (samplePage (js "Ada") (js "a@b.com") (js "Hello"))).
  { split; [apply samplePage_freshIds | constructor]. }
  split; [exact H |].
  apply (identities_stay_distinct _ _ ∅ H).
Defined.

(** ** The click listener of a notification clears the timer of that notification *)

Section Listeners.

Lemma listenersMatch_ext s s' :
  agenda s' = agenda s → clickListeners s' = clickListeners s →
  listenersMatch s → listenersMatch s'.
Proof. unfold listenersMatch. by intros -> ->. Qed.

Lemma showNotification_listenersMatch message type s :
  freshIds s → listenersMatch s → listenersMatch (showNotification message type s).
Proof.
  intros (_ & _ & Fl) Hm. unfold listenersMatch.
  rewrite showNotification_agenda. cbn [showNotification clickListeners set_nextId
    set_clickListeners set_agenda set_body el_id].
  apply Forall_app. split.
  - eapply Forall_impl; [exact Hm |]. intros [d [t m|m b]]; cbn [snd]; [|done].
    intros Hl. rewrite lookup_insert_ne; [done |].
    apply Fl in Hl as [? _]. lia.
  - repeat constructor. cbn [snd]. by rewrite lookup_insert_eq.
Qed.

Lemma click_listenersMatch m s : listenersMatch s → listenersMatch (click m s).
Proof.
  intros Hm. destruct (clickListeners s !! m) as [t|] eqn:Hl;
    [|unfold click; by rewrite Hl].
  unfold listenersMatch. rewrite (click_agenda m t s Hl).
  replace (clickListeners (click m s)) with (clickListeners s)
    by (unfold click; by rewrite Hl).
  apply Forall_app. split; [|by repeat constructor].
  apply Forall_forall. intros x Hx. apply list_elem_of_filter in Hx as [_ Hx].
  by apply (proj1 (Forall_forall _ _) Hm).
Qed.

Lemma runTask_clickListeners tk s s' :
  runTask tk s = Some s' → clickListeners s' = clickListeners s.
Proof.
  destruct tk as [t m|m [|]]; simpl.
  - by intros [= <-].
  - rewrite onComplete_Some. intros [= <-]. by destruct (attached m s).
  - by intros [= <-].
Qed.

Lemma runFuel_clickListeners fuel : ∀ t s s',
  runFuel fuel t s = Some s' → clickListeners s' = clickListeners s.
Proof.
  induction fuel as [|fuel IH]; intros t s s'; simpl; [by intros [= <-] |].
  destruct (popEarliest (agenda s)) as [[[d tk] rest]|]; [|by intros [= <-]].
  destruct (d <=? t); [|by intros [= <-]].
  destruct (runTask tk _) as [s1|] eqn:H1; simpl; [|done].
  intros H. apply IH in H. apply runTask_clickListeners in H1. by rewrite H, H1.
Qed.

Lemma runFuel_listenersMatch fuel : ∀ t s s',
  runFuel fuel t s = Some s' → listenersMatch s → listenersMatch s'.
Proof.
  induction fuel as [|fuel IH]; intros t s s'; simpl; [by intros [= <-] |].
  destruct (popEarliest (agenda s)) as [[[d tk] rest]|] eqn:Hpop; [|by intros [= <-]].
  destruct (d <=? t); [|by intros [= <-]].
  destruct (runTask tk _) as [s1|] eqn:Hrun; simpl; [|done].
  intros H Hm. apply (IH _ _ _ H). unfold listenersMatch in *.
  rewrite (runTask_agenda _ _ _ Hrun), (runTask_clickListeners _ _ _ Hrun).
  cbn [agenda clickListeners set_now set_agenda].
  rewrite (popEarliest_Permutation _ _ _ Hpop) in Hm.
  apply Forall_cons in Hm as [_ Hm]. apply Forall_app. split; [done |].
  destruct tk; by repeat constructor.
Qed.

Lemma handle_listenersMatch e s s' :
  handle e s = Some s' → freshIds s → listenersMatch s → listenersMatch s'.
Proof.
  intros He Hf Hm. destruct e as [f v|f| |k r|m ty|m|u]; simpl in He.
  - injection He as <-.
    pose proof (validateAll_surroundings [f]
                  (set_fields (alter (set_value v) f (fields s)) s)) as Hs.
    cbn [validateAll] in Hs. destruct (validateField f _) as [ok s1].
    unfold surroundings in Hs. cbn [snd] in Hs.
    injection Hs as _ _ _ _ Hc Ha _ _ _. by apply (listenersMatch_ext s).
  - injection He as <-. pose proof (validateAll_surroundings [f] s) as Hs.
    cbn [validateAll] in Hs. destruct (validateField f _) as [ok s1].
    unfold surroundings in Hs. cbn [snd] in Hs.
    injection Hs as _ _ _ _ Hc Ha _ _ _. by apply (listenersMatch_ext s).
  - injection He as <-. rewrite begin_unfold.
    pose proof (validateForm_surroundings s) as Hs. unfold surroundings in Hs.
    injection Hs as _ _ _ _ Hc Ha _ _ _.
    destruct (fst (validateForm s)); by apply (listenersMatch_ext s).
  - injection He as <-. unfold handleContactSubmit_resume.
    destruct r as [status|]; [destruct (ok status)|];
      (eapply listenersMatch_ext; [..|by apply showNotification_listenersMatch]); done.
  - injection He as <-. by apply showNotification_listenersMatch.
  - injection He as <-. by apply click_listenersMatch.
  - by apply (runFuel_listenersMatch _ _ _ _ He).
Qed.

Lemma handle_clickListeners n e s s' :
  handle e s = Some s' → freshIds s → is_Some (clickListeners s !! n) →
  clickListeners s' !! n = clickListeners s !! n.
Proof.
  intros He (_ & _ & Fl) [t Hn].
  assert (Hlt : (n < nextId s)%nat) by (by apply Fl in Hn as [? _]).
  assert (Hshow : ∀ message type,
            clickListeners (showNotification message type s) !! n = clickListeners s !! n).
  { intros message type. cbn [showNotification clickListeners set_nextId
      set_clickListeners set_agenda set_body el_id].
    rewrite lookup_insert_ne; [done | lia]. }
  destruct e as [f v|f| |k r|m ty|m|u]; simpl in He.
  - injection He as <-.
    pose proof (validateAll_surroundings [f]
                  (set_fields (alter (set_value v) f (fields s)) s)) as Hs.
    cbn [validateAll] in Hs. destruct (validateField f _) as [ok s1].
    unfold surroundings in Hs. cbn [snd] in Hs.
    injection Hs as _ _ _ _ Hc _ _ _ _. cbn [snd]. by rewrite Hc.
  - injection He as <-. pose proof (validateAll_surroundings [f] s) as Hs.
    cbn [validateAll] in Hs. destruct (validateField f _) as [ok s1].
    unfold surroundings in Hs. cbn [snd] in Hs.
    injection Hs as _ _ _ _ Hc _ _ _ _. cbn [snd]. by rewrite Hc.
  - injection He as <-. rewrite begin_unfold.
    pose proof (validateForm_surroundings s) as Hs. unfold surroundings in Hs.
    injection Hs as _ _ _ _ Hc _ _ _ _.
    destruct (fst (validateForm s)); cbn [snd]; by rewrite <- Hc.
  - injection He as <-. unfold handleContactSubmit_resume.
    destruct r as [status|]; [destruct (ok status)|]; apply Hshow.
  - injection He as <-. apply Hshow.
  - injection He as <-. unfold click. by destruct (clickListeners s !! m).
  - by rewrite (runFuel_clickListeners _ _ _ _ He).
Qed.

Lemma handle_listening n e s s' : handle e s = Some s' → listening n s → listening n s'.
Proof.
  intros He (Hw & Hm & Hn). split; [by apply (handle_wellNumbered e s) |].
  split; [apply (handle_listenersMatch e s); [done | apply Hw | done] |].
  rewrite (handle_clickListeners n e s s' He); [done | apply Hw | by rewrite Hn].
Qed.

Lemma run_listening n es : ∀ s last,
  listening n s → ∃ s' last', run es s last = Some (s', last') ∧ listening n s'.
Proof.
  induction es as [|e es IH]; intros s last H; simpl; [eauto |].
  destruct (handle_total e s) as [s1 H1]. rewrite H1.
  apply IH. by apply (handle_listening n e s s1).
Qed.

(** The timers queued for [n] are those its click listener clears. *)
Lemma listening_timers n s e :
  listening n s → e ∈ timersOf n (agenda s) → isTimer (S n) e = true.
Proof.
  intros (_ & Hm & Hn) He. apply list_elem_of_filter in He as [Hfor Hin].
  apply (proj1 (Forall_forall _ _) Hm) in Hin.
  destruct e as [d [t m|m b]]; unfold isTimeoutFor in Hfor; simpl in *; [|done].
  apply bool_decide_eq_true in Hfor as ->. rewrite Hn in Hin.
  apply bool_decide_eq_true_2. congruence.
Qed.

Lemma listening_cancelled n s :
  listening n s → notQueued (S n) s → timersOf n (agenda s) = [].
Proof.
  intros Hl Hq. destruct (timersOf n (agenda s)) as [|e l] eqn:Ht; [done |].
  assert (He : e ∈ timersOf n (agenda s)) by (rewrite Ht; by left).
  pose proof (listening_timers n s e Hl He) as H1.
  apply list_elem_of_filter in He as [_ Hin].
  apply (proj1 (Forall_forall _ _) Hq) in Hin. congruence.
Qed.

Lemma showNotification_listening message type s :
  wellNumbered s → listenersMatch s →
  listening (nextId s) (showNotification message type s).
Proof.
  intros Hw Hm. split; [by apply showNotification_wellNumbered |].
  split; [apply showNotification_listenersMatch; [apply Hw | done] |].
  cbn [showNotification clickListeners set_nextId set_clickListeners set_agenda set_body
       el_id].
  by rewrite lookup_insert_eq.
Qed.

End Listeners.

(** C8 (as amended): on a page that is well numbered and whose queued
    timers are those that the click listeners clear (a page just loaded is,
    and every event keeps it so), [showNotification] gives the notification
    a click listener that clears the very timer it queued for it, and this
    stays so whatever happens on the page. A click on the notification
    therefore takes its auto-dismiss timer off the agenda before it starts
    the exit tween, and in every run after the click no timer for the
    notification is queued again: the timer never triggers the dismiss
    transition. The element stays attached through the click, through a
    timer that fires and through every other handler, and leaves the
    document only when an exit tween ends; that callback removes the
    element if it is still attached and does nothing otherwise, so it
    never throws, and no run of the page ever throws. *)
Theorem click_cancels_timer_and_removal_is_guarded
    (s : page) (message type : jsstring) (es1 es2 : list event) :
  wellNumbered s → listenersMatch s →
  timersOf (nextId s) (agenda (showNotification message type s)) =
    [(now s + dismissDelay type, Timeout (S (nextId s)) (nextId s))] ∧
  (∃ s1 last1,
     run es1 (showNotification message type s) ∅ = Some (s1, last1) ∧
     clickListeners s1 !! nextId s = Some (S (nextId s)) ∧
     (∀ e, e ∈ timersOf (nextId s) (agenda s1) →
        ∃ d, e = (d, Timeout (S (nextId s)) (nextId s))) ∧
     agenda (click (nextId s) s1) =
       filter (λ e, isTimer (S (nextId s)) e = false) (agenda s1) ++
       [(tweenEnd (env s1) (now s1) exitDuration, TweenEnd (nextId s) true)] ∧
     timersOf (nextId s) (agenda (click (nextId s) s1)) = [] ∧
     body (click (nextId s) s1) = body s1 ∧
     ∃ s2 last2,
       run es2 (click (nextId s) s1) ∅ = Some (s2, last2) ∧
       timersOf (nextId s) (agenda s2) = []) ∧
  (∀ e s0 s1 m,
     isElapse e = false → handle e s0 = Some s1 →
     attached m s0 = true → attached m s1 = true) ∧
  (∀ t' m s0,
     runTask (Timeout t' m) s0 = Some (dismissNotification m s0) ∧
     body (dismissNotification m s0) = body s0) ∧
  (∀ m s0,
     runTask (TweenEnd m true) s0 =
     Some (if attached m s0
           then set_body (filter (λ e, el_id e ≠ m) (body s0)) s0
           else s0)) ∧
  (∀ m s0 s1, runTask (TweenEnd m true) s0 = Some s1 → attached m s1 = false) ∧
  (∀ es s0 last, is_Some (run es s0 last)).
Proof.
  intros Hw Hm.
  pose proof (showNotification_listening message type s Hw Hm) as Hl0.
  split; [|split; [|split; [|split; [|split; [|split]]]]].
  - destruct Hw as [(_ & Fa & _) _].
    destruct (fresh_tasks _ _ Fa) as [Htm _].
    rewrite showNotification_agenda, timersOf_app, !timersOf_cons, Htm.
    unfold isTimeoutFor. cbn [snd app].
    by rewrite (bool_decide_eq_true_2 (nextId s = nextId s)).
  - destruct (run_listening (nextId s) es1 _ ∅ Hl0) as (s1 & last1 & Hrun1 & Hl1).
    exists s1, last1. split; [done |].
    pose proof Hl1 as (Hw1 & Hm1 & Hn1).
    assert (Hlt : (S (nextId s) < nextId s1)%nat).
    { destruct Hw1 as [(_ & _ & Fl) _]. by apply Fl in Hn1 as [_ ?]. }
    assert (Hc : cancelled (S (nextId s)) (click (nextId s) s1)).
    { split; [|unfold click; by rewrite Hn1].
      unfold notQueued. rewrite (click_agenda _ _ s1 Hn1). apply Forall_app.
      split; [|by repeat constructor].
      apply Forall_forall. intros x Hx. by apply list_elem_of_filter in Hx as [? _]. }
    assert (Hl2 : listening (nextId s) (click (nextId s) s1)).
    { apply (handle_listening _ (Click (nextId s)) s1); done. }
    split; [done |]. split; [|split; [by apply click_agenda |split; [|split]]].
    + intros e He. pose proof (listening_timers _ _ _ Hl1 He) as Ht.
      apply list_elem_of_filter in He as [Hfor _].
      destruct e as [d [t m|m b]]; unfold isTimeoutFor, isTimer in *; simpl in *; [|done].
      apply bool_decide_eq_true in Hfor as ->. apply bool_decide_eq_true in Ht as ->.
      by exists d.
    + apply listening_cancelled; [done | apply Hc].
    + unfold click. by rewrite Hn1.
    + destruct (run_listening (nextId s) es2 _ ∅ Hl2) as (s2 & last2 & Hrun2 & Hl3).
      destruct (run_cancelled (S (nextId s)) es2 _ ∅ Hc) as (s2' & last2' & Hrun2' & Hq & _).
      rewrite Hrun2 in Hrun2'. injection Hrun2' as <- <-.
      exists s2, last2. split; [done |]. by apply listening_cancelled.
  - intros e s0 s1 m. apply handle_keeps_attached.
  - done.
  - intros m s0. apply onComplete_Some.
  - intros m s0 s1 H. apply (onComplete_effect m) in H as [-> _].
    rewrite (bool_decide_eq_true_2 (m = m)) by done. apply andb_false_r.
  - intros es. induction es as [|e es IH]; intros s0 last; simpl; [eauto |].
    destruct (handle_total e s0) as [s1 ->]. apply IH.
Qed.

Lemma click_cancels_timer_and_removal_is_guarded_witness :
  wellNumbered (samplePage (js "Ada") (js "a@b.com") (js "Hello")) ∧
  listenersMatch (samplePage (js "Ada") (js "a@b.com") (js "Hello")) ∧
  timersOf 100
    (agenda (showNotification (js "Saved") (js "success")
               (samplePage (js "Ada") (js "a@b.com") (js "Hello")))) =
    [(3000, Timeout 101 100)].
Proof.
  assert (H : wellNumbered (samplePage (js "Ada") (js "a@b.com") (js "Hello"))).
  { split; [apply samplePage_freshIds | constructor]. }
  assert (H' : listenersMatch (samplePage (js "Ada") (js "a@b.com") (js "Hello"))).
  { constructor. }
  split; [exact H |]. split; [exact H' |].
  apply (click_cancels_timer_and_removal_is_guarded
           (samplePage (js "Ada") (js "a@b.com") (js "Hello"))
           (js "Saved") (js "success") [Elapse 1000] [Elapse 6000] H H').
Defined.

(** C8 as stated fails in one respect: once the timer has fired and the
    exit tween runs, a click on the notification, which is still in the
    document, starts a second exit tween. Both the timer and the click have
    then triggered the dismiss transition; the guarded removal lets the
    second tween end without an error. This is so on a clock on which a
    tween takes just its duration and on a clock that ticks every 16 ms. *)
Lemma timer_then_click_counterexample :
  (λ x, (timersOf 100 (agenda (fst x)), length (exitsOf 100 (agenda (fst x))),
         attached 100 (fst x))) <$>
    run [Notify (js "Saved") (js "success"); Elapse 3100]
      (samplePage (js "Ada") (js "a@b.com") (js "Hello")) ∅ =
    Some ([], 1%nat, true) ∧
  (λ x, exitsOf 100 (agenda (fst x))) <$>
    run [Notify (js "Saved") (js "success"); Elapse 3100; Click 100]
      (samplePage (js "Ada") (js "a@b.com") (js "Hello")) ∅ =
    Some [(3400, TweenEnd 100 true); (3500, TweenEnd 100 true)] ∧
  (λ x, (body (fst x), agenda (fst x))) <$>
    run [Notify (js "Saved") (js "success"); Elapse 3100; Click 100; Elapse 3500]
      (samplePage (js "Ada") (js "a@b.com") (js "Hello")) ∅ =
    Some ([], []) ∧
  (λ x, (timersOf 100 (agenda (fst x)), length (exitsOf 100 (agenda (fst x))),
         attached 100 (fst x))) <$>
    run [Notify (js "Saved") (js "success"); Elapse 3100]
      (samplePageIn frameClock (js "Ada") (js "a@b.com") (js "Hello")) ∅ =
    Some ([], 1%nat, true) ∧
  (λ x, length (exitsOf 100 (agenda (fst x)))) <$>
    run [Notify (js "Saved") (js "success"); Elapse 3100; Click 100]
      (samplePageIn frameClock (js "Ada") (js "a@b.com") (js "Hello")) ∅ =
    Some 2%nat ∧
  (λ x, (body (fst x), agenda (fst x))) <$>
    run [Notify (js "Saved") (js "success"); Elapse 3100; Click 100; Elapse 4000]
      (samplePageIn frameClock (js "Ada") (js "a@b.com") (js "Hello")) ∅ =
    Some ([], []).
Proof. repeat split; vm_compute; reflexivity. Qed.

(** X8: [downloadCV] never throws at its [removeChild] and leaves no
    link behind: the body gains the "download started" notification and,
    when the click on the link throws, the "download failed" notification
    after it; nothing else of the body and nothing of the form changes. *)
Theorem downloadCV_leaves_no_link (downloadBtn : option nat) (clickThrows : bool) (s : page) :
  freshIds s →
  ∃ s',
    downloadCV downloadBtn clickThrows s = Some s' ∧
    body s' =
      body s ++
      notificationElement (nextId s) msgCvStarted (js "success") ::
      (if clickThrows
       then [notificationElement (S (S (S (nextId s)))) msgCvFailed (js "error")]
       else []) ∧
    fields s' = fields s ∧ errorMessages s' = errorMessages s ∧
    submitButton s' = submitButton s ∧ requests s' = requests s.
Proof.
  intros (Fb & _ & _). unfold downloadCV.
  set (n := nextId s).
  set (extra := if clickThrows
                then [notificationElement (S (S (S n))) msgCvFailed (js "error")]
                else []).
  match goal with |- ∃ s', removeChild ?i ?p = _ ∧ _ => set (s4 := p); set (l := i) end.
  assert (Hl : l = S (S n)) by (unfold l; by destruct downloadBtn).
  assert (Hb4 : body s4 =
                body s ++ notificationElement n msgCvStarted (js "success") ::
                cvLink (S (S n)) :: extra).
  { unfold s4, extra. destruct downloadBtn, clickThrows; simpl;
      by rewrite <- ?app_assoc. }
  assert (Hrest : fields s4 = fields s ∧ errorMessages s4 = errorMessages s ∧
                  submitButton s4 = submitButton s ∧ requests s4 = requests s).
  { unfold s4. by destruct downloadBtn, clickThrows. }
  assert (Hkeep : filter (λ e, el_id e ≠ S (S n)) (body s) = body s).
  { apply filter_all. eapply Forall_impl; [done |]. simpl. intros. lia. }
  assert (Ha : attached l s4 = true).
  { apply bool_decide_eq_true_2. rewrite Hb4, Hl, map_app. simpl.
    apply elem_of_app. right. right. left. }
  unfold removeChild. rewrite Ha. eexists. split; [done |]. simpl.
  split; [|done]. rewrite Hb4, Hl, filter_app, Hkeep. f_equal.
  rewrite filter_cons, decide_True by (simpl; lia).
  rewrite filter_cons, decide_False by (simpl; lia).
  f_equal. unfold extra. destruct clickThrows; [|done].
  by rewrite filter_cons, decide_True by (simpl; lia).
Qed.

Lemma downloadCV_leaves_no_link_witness :
  freshIds (samplePage (js "Ada") (js "a@b.com") (js "Hello")) ∧
  body <$> downloadCV (Some 7%nat) true (samplePage (js "Ada") (js "a@b.com") (js "Hello")) =
    Some [notificationElement 100 msgCvStarted (js "success");
          notificationElement 103 msgCvFailed (js "error")].
Proof.
  split; [apply samplePage_freshIds |].
  destruct (downloadCV_leaves_no_link (Some 7%nat) true
              (samplePage (js "Ada") (js "a@b.com") (js "Hello"))
              (samplePage_freshIds _ _ _)) as (s' & Hd & Hb & _).
  rewrite Hd. simpl. rewrite Hb. reflexivity.
Defined.
(** ** debounce *)

Section DebounceFacts.

Context {A W : Type} (func : A → W → W) (wait : N).
Implicit Types st : debounceState A W.

Lemma db_clearTimeout_single st :
  db_single st → db_timers (db_clearTimeout (db_timeout st) st) = [].
Proof.
  intros [Ht|(due & i & a & Ht & Hto)]; unfold db_clearTimeout.
  - destruct (db_timeout st); simpl; by rewrite ?Ht.
  - rewrite Hto. simpl. rewrite Ht, filter_cons, decide_False; [done |].
    simpl. intros H. by apply H.
Qed.

Lemma db_clearTimeout_rest (o : option nat) st :
  db_timeout (db_clearTimeout o st) = db_timeout st ∧
  db_now (db_clearTimeout o st) = db_now st ∧
  db_nextTimer (db_clearTimeout o st) = db_nextTimer st ∧
  db_world (db_clearTimeout o st) = db_world st.
Proof. by destruct o. Qed.

(** A call drops the pending timer, if any, and queues its own. *)
Lemma executedFunction_single args st :
  db_single st →
  executedFunction wait args st =
  DebounceState (Some (db_nextTimer st))
    [(db_now st + wait, (db_nextTimer st, args))]
    (db_now st) (S (db_nextTimer st)) (db_world st).
Proof.
  intros H. unfold executedFunction. rewrite (db_clearTimeout_single st H).
  by destruct (db_clearTimeout_rest (db_timeout st) st) as (_ & -> & -> & ->).
Qed.

Lemma db_advanceTo_quiet t st :
  db_timers st = [] → db_advanceTo func t st = db_set_now (N.max (db_now st) t) st.
Proof. unfold db_advanceTo. by intros ->. Qed.

Lemma db_advanceTo_pending t st due i args :
  db_timers st = [(due, (i, args))] → db_timeout st = Some i →
  db_advanceTo func t st =
  if due <=? t
  then DebounceState (Some i) [] (N.max (N.max (db_now st) due) t) (db_nextTimer st)
         (func args (db_world st))
  else db_set_now (N.max (db_now st) t) st.
Proof.
  intros Ht Hto. unfold db_advanceTo. rewrite Ht. simpl. rewrite Ht. simpl.
  destruct (due <=? t); [|done].
  unfold later, db_clearTimeout. simpl. rewrite Hto. simpl.
  unfold db_set_world, db_set_now. simpl. by rewrite Hto.
Qed.

Lemma db_advanceTo_single t st : db_single st → db_single (db_advanceTo func t st).
Proof.
  intros [Ht|(due & i & a & Ht & Hto)].
  - rewrite db_advanceTo_quiet by done. by left.
  - rewrite (db_advanceTo_pending t st due i a Ht Hto).
    destruct (due <=? t); [by left |]. right. by exists due, i, a.
Qed.

Lemma db_handle_single e st : db_single st → db_single (db_handle func wait e st).
Proof.
  intros H. destruct e as [args|t]; simpl.
  - rewrite executedFunction_single by done. right. by eexists _, _, _.
  - by apply db_advanceTo_single.
Qed.

Lemma db_run_app es es' st :
  db_run func wait (es ++ es') st = db_run func wait es' (db_run func wait es st).
Proof. apply fold_left_app. Qed.

Lemma db_run_single es st : db_single st → db_single (db_run func wait es st).
Proof.
  revert st. induction es as [|e es IH]; intros st H; [done |].
  simpl. apply IH. by apply db_handle_single.
Qed.

Lemma last_default {B} (c : B) l d d' :
  List.last (c :: l) d = List.last (c :: c :: l) d'.
Proof. revert c. induction l as [|x l IH]; intros c; [done |]. apply (IH x). Qed.

(** Where a burst of calls leaves the state: nothing was handed to
    [func], and one timer is pending, for the arguments of the last call,
    [wait] ms after it. *)
Lemma db_burst_pending l : ∀ st a i,
  db_timers st = [(db_now st + wait, (i, a))] → db_timeout st = Some i →
  Forall (λ c, fst c < wait) l →
  ∃ j,
    db_timers (db_burst func wait l st) =
      [(db_now (db_burst func wait l st) + wait, (j, snd (List.last l (0, a))))] ∧
    db_timeout (db_burst func wait l st) = Some j ∧
    db_world (db_burst func wait l st) = db_world st.
Proof.
  induction l as [|[gap b] l IH]; intros st a i Ht Hto Hl; simpl.
  - by exists i.
  - apply Forall_cons in Hl as [Hgap Hl]. simpl in Hgap.
    rewrite (db_advanceTo_pending _ st _ i a Ht Hto).
    replace (db_now st + wait <=? db_now st + gap) with false
      by (symmetry; apply N.leb_gt; lia).
    rewrite executedFunction_single by (right; by exists (db_now st + wait), i, a).
    match goal with |- context [db_burst func wait l ?x] => set (st2 := x) end.
    destruct (IH st2 b (db_nextTimer st) eq_refl eq_refl Hl) as (j & H1 & H2 & H3).
    exists j. split; [|done]. rewrite H1.
    do 3 f_equal. clear. destruct l as [|c l]; [done |].
    by rewrite (last_default c l (0, b) (0, b)), (last_default c l (0, a) (0, b)).
Qed.

End DebounceFacts.

(** X9: a burst of calls to a debounced function, each less than [wait]
    ms after the one before, does not call [func] at all while it lasts;
    once it is over, [func] is called exactly once, with the arguments of
    the last call of the burst, [wait] ms after that call and not before. *)
Theorem debounce_burst {A W : Type} (func : A → W → W) (wait : N)
    (gap : N) (args : A) (l : list (N * A)) (st : debounceState A W) :
  db_timers st = [] →
  Forall (λ c, fst c < wait) l →
  db_world (db_burst func wait ((gap, args) :: l) st) = db_world st ∧
  (∀ t, t < db_now (db_burst func wait ((gap, args) :: l) st) + wait →
     db_world (db_advanceTo func t (db_burst func wait ((gap, args) :: l) st)) =
     db_world st) ∧
  (∀ t, db_now (db_burst func wait ((gap, args) :: l) st) + wait ≤ t →
     db_world (db_advanceTo func t (db_burst func wait ((gap, args) :: l) st)) =
       func (snd (List.last l (gap, args))) (db_world st) ∧
     db_timers (db_advanceTo func t (db_burst func wait ((gap, args) :: l) st)) = []).
Proof.
  intros Hq Hl. simpl.
  rewrite (db_advanceTo_quiet func _ st Hq).
  rewrite (executedFunction_single wait) by by left.
  match goal with |- context [db_burst func wait l ?x] => set (st1 := x) end.
  destruct (db_burst_pending func wait l st1 args (db_nextTimer st) eq_refl eq_refl Hl)
    as (j & Ht & Hto & Hw).
  simpl in Hw. set (st' := db_burst func wait l st1) in *.
  assert (Hlast : snd (List.last l (0, args)) = snd (List.last l (gap, args))).
  { clear. destruct l as [|c l]; [done |].
    by rewrite (last_default c l (0, args) (0, args)),
               (last_default c l (gap, args) (0, args)). }
  split; [done |]. split.
  - intros t Hlt. rewrite (db_advanceTo_pending func t st' _ j _ Ht Hto).
    replace (db_now st' + wait <=? t) with false by (symmetry; apply N.leb_gt; lia).
    done.
  - intros t Hle. rewrite (db_advanceTo_pending func t st' _ j _ Ht Hto).
    replace (db_now st' + wait <=? t) with true by (symmetry; apply N.leb_le; lia).
    simpl. by rewrite Hw, Hlast.
Qed.

Lemma debounce_burst_witness :
  db_timers (db_init (A := nat) (W := list nat) []) = [] ∧
  Forall (λ c : N * nat, fst c < 100) [(40, 2%nat); (99, 3%nat)] ∧
  db_world
    (db_advanceTo db_log 1239
       (db_burst db_log 100 [(1000, 1%nat); (40, 2%nat); (99, 3%nat)] (db_init []))) =
    [3%nat].
Proof.
  assert (H : Forall (λ c : N * nat, fst c < 100) [(40, 2%nat); (99, 3%nat)])
    by (repeat constructor; simpl; lia).
  split; [reflexivity |]. split; [exact H |].
  apply (debounce_burst db_log 100 1000 1%nat [(40, 2%nat); (99, 3%nat)] (db_init [])
           eq_refl H).
  vm_compute. discriminate.
Defined.
Section DebounceLog.

Context {A : Type} (wait : N).

Lemma db_callArgs_app (es es' : list (dbEvent A)) :
  db_callArgs (es ++ es') = db_callArgs es ++ db_callArgs es'.
Proof.
  unfold db_callArgs. apply omap_app.
Qed.

(** What the log and the pending timer say about the calls made so far. *)
Lemma db_log_invariant (es : list (dbEvent A)) :
  (db_timers (db_run db_log wait es (db_init [])) = [] ∧
   sublist (db_world (db_run db_log wait es (db_init []))) (db_callArgs es)) ∨
  (∃ due i a C,
     db_timers (db_run db_log wait es (db_init [])) = [(due, (i, a))] ∧
     db_timeout (db_run db_log wait es (db_init [])) = Some i ∧
     db_callArgs es = C ++ [a] ∧
     sublist (db_world (db_run db_log wait es (db_init []))) C).
Proof.
  induction es as [|e es IH] using rev_ind.
  - left. by split.
  - rewrite db_run_app, db_callArgs_app.
    change (db_run db_log wait [e] (db_run db_log wait es (db_init []))) with
      (db_handle db_log wait e (db_run db_log wait es (db_init []))).
    set (st := db_run db_log wait es (db_init [])) in *.
    assert (Hs : db_single st).
    { destruct IH as [[Ht _]|(due & i & a & C & Ht & Hto & _)];
        [by left | right; by exists due, i, a]. }
    destruct e as [b|t]; cbn [db_handle].
    + change (db_callArgs [DbCall b]) with [b].
      right. rewrite (executedFunction_single wait b st Hs). simpl.
      exists (db_now st + wait), (db_nextTimer st), b, (db_callArgs es).
      split; [done |]. split; [done |]. split; [done |].
      destruct IH as [[_ Hw]|(due & i & a & C & _ & _ & -> & Hw)]; [done |].
      by apply sublist_inserts_r.
    + change (db_callArgs [DbElapse t]) with (@nil A). rewrite app_nil_r.
      destruct IH as [[Ht Hw]|(due & i & a & C & Ht & Hto & HC & Hw)].
      * left. by rewrite (db_advanceTo_quiet db_log t st Ht).
      * rewrite (db_advanceTo_pending db_log t st due i a Ht Hto).
        destruct (due <=? t); simpl.
        -- left. split; [done |]. rewrite HC. unfold db_log.
           by apply sublist_app.
        -- right. by exists due, i, a, C.
Qed.

End DebounceLog.

(** X10: whatever the sequence of calls and of waiting, a debounced
    function hands to [func] a subsequence of the arguments it was called
    with, in the order of the calls; at most one call is pending at any
    time, and the pending one is the most recent call. *)
Theorem debounce_delivers_subsequence {A : Type} (wait : N) (es : list (dbEvent A)) :
  sublist (db_world (db_run db_log wait es (db_init []))) (db_callArgs es) ∧
  (length (db_timers (db_run db_log wait es (db_init [])) ) ≤ 1)%nat ∧
  (∀ due i a,
     (due, (i, a)) ∈ db_timers (db_run db_log wait es (db_init [])) →
     List.last (db_callArgs es) a = a ∧ db_callArgs es ≠ [] ∧
     db_timeout (db_run db_log wait es (db_init [])) = Some i).
Proof.
  destruct (db_log_invariant wait es) as [[Ht Hw]|(due & i & a & C & Ht & Hto & HC & Hw)].
  - rewrite Ht. split; [done |]. split; [simpl; lia |].
    intros ? ? ? H. by apply elem_of_nil in H.
  - rewrite Ht, HC. split; [by apply sublist_inserts_r |]. split; [simpl; lia |].
    intros due' i' a' H. apply list_elem_of_singleton in H as [= -> -> ->].
    split; [apply last_last |]. split; [|done].
    intros H. by apply app_eq_nil in H as [_ ?].
Qed.

(** ** The back-to-top button *)

Section BackToTop.

Lemma toggleBackToTop_agrees w : btt_agrees (toggleBackToTop tt w).
Proof.
  unfold btt_agrees, toggleBackToTop. destruct (300 <? scrollY w)%Z eqn:Hy; simpl.
  - apply Z.ltb_lt in Hy. split; [done |]. intros _.
    unfold classList_add. case_decide; [done |]. apply elem_of_app. right. by left.
  - apply Z.ltb_ge in Hy. split; [|lia]. intros H.
    unfold classList_remove in H. apply list_elem_of_filter in H as [H _]. done.
Qed.

Lemma toggleBackToTop_scrollY w : scrollY (toggleBackToTop tt w) = scrollY w.
Proof. unfold toggleBackToTop. by destruct (300 <? scrollY w)%Z. Qed.

Lemma btt_handle_single e st : db_single st → db_single (btt_handle e st).
Proof.
  intros H. destruct e as [y|t]; simpl.
  - rewrite executedFunction_single; [right; by eexists _, _, _ |].
    destruct H as [?|(due & i & a & ? & ?)]; [by left | right; by exists due, i, a].
  - by apply db_advanceTo_single.
Qed.

Lemma btt_run_single es : ∀ st, db_single st → db_single (btt_run es st).
Proof.
  induction es as [|e es IH]; intros st H; [done |].
  simpl. apply IH. by apply btt_handle_single.
Qed.

Lemma btt_run_snoc2 es a b st :
  btt_run (es ++ [a; b]) st = btt_handle b (btt_handle a (btt_run es st)).
Proof. unfold btt_run. by rewrite fold_left_app. Qed.

End BackToTop.
(** X11: whatever happened before, once the window has scrolled to [y]
    and 100 ms have passed without another scroll, the back-to-top button
    carries the class [visible] exactly when [y] is beyond 300 pixels and
    no call is pending; before the 100 ms are over the scroll has not
    changed the classes of the button. *)
Theorem back_to_top_follows_scroll (es : list bttEvent)
    (st : debounceState unit backToTop) (y : Z) (t : N) :
  db_single st →
  (db_now (btt_run es st) + 100 ≤ t →
   scrollY (db_world (btt_run (es ++ [BttScroll y; BttElapse t]) st)) = y ∧
   (js "visible" ∈ btt_classList (db_world (btt_run (es ++ [BttScroll y; BttElapse t]) st)) ↔
    (300 < y)%Z) ∧
   db_timers (btt_run (es ++ [BttScroll y; BttElapse t]) st) = []) ∧
  (t < db_now (btt_run es st) + 100 →
   btt_classList (db_world (btt_run (es ++ [BttScroll y; BttElapse t]) st)) =
   btt_classList (db_world (btt_run es st))).
Proof.
  intros Hs. rewrite !btt_run_snoc2.
  apply (btt_run_single es) in Hs. set (s0 := btt_run es st) in *.
  cbn [btt_handle].
  assert (Hs' : db_single (db_set_world (BackToTop y (btt_classList (db_world s0))) s0)).
  { destruct Hs as [?|(due & i & a & ? & ?)]; [by left | right; by exists due, i, a]. }
  rewrite (executedFunction_single 100 tt _ Hs'). cbn [db_set_world db_now db_nextTimer db_world].
  match goal with |- context [db_advanceTo toggleBackToTop t ?x] => set (s1 := x) end.
  rewrite (db_advanceTo_pending toggleBackToTop t s1 (db_now s0 + 100) (db_nextTimer s0) tt
             eq_refl eq_refl).
  unfold s1. cbn [db_world db_timers db_now db_set_now].
  split.
  - intros Hle. replace (db_now s0 + 100 <=? t) with true by (symmetry; apply N.leb_le; lia).
    cbn [db_world db_timers].
    split; [by rewrite toggleBackToTop_scrollY |]. split; [|done].
    pose proof (toggleBackToTop_agrees (BackToTop y (btt_classList (db_world s0)))) as H.
    unfold btt_agrees in H. by rewrite toggleBackToTop_scrollY in H.
  - intros Hlt. replace (db_now s0 + 100 <=? t) with false by (symmetry; apply N.leb_gt; lia).
    done.
Qed.

Lemma back_to_top_follows_scroll_witness :
  db_single (db_init (A := unit) (BackToTop 0 [js "back-to-top"])) ∧
  js "visible" ∈
    btt_classList
      (db_world
         (btt_run ([BttScroll 200; BttElapse 50] ++ [BttScroll 450; BttElapse 150])
            (db_init (BackToTop 0 [js "back-to-top"])))).
Proof.
  assert (H : db_single (db_init (A := unit) (BackToTop 0 [js "back-to-top"])))
    by by left.
  split; [exact H |].
  apply (back_to_top_follows_scroll [BttScroll 200; BttElapse 50]
           (db_init (BackToTop 0 [js "back-to-top"])) 450 150 H);
    [vm_compute; discriminate | reflexivity].
Defined.


(** ** The mobile menu *)

Lemma replaceToken_elem old new l x :
  x ∈ replaceToken old new l ↔
  (x = new ∧ (old ∈ l ∨ new ∈ l)) ∨ (x ∈ l ∧ x ≠ old ∧ x ≠ new).
Proof.
  induction l as [|y l IH]; simpl.
  - split; [by intros ?%elem_of_nil |].
    intros [[_ [?%elem_of_nil | ?%elem_of_nil]] | [?%elem_of_nil _]]; done.
  - case_decide as Hy.
    + rewrite elem_of_cons, list_elem_of_filter, !elem_of_cons. split.
      * intros [-> | [[? ?] ?]]; [left | right; auto].
        split; [done |]. destruct Hy as [-> | ->]; auto.
      * intros [[-> _] | [[-> | ?] [? ?]]]; auto.
        destruct Hy; congruence.
    + rewrite !elem_of_cons, IH. split.
      * intros [-> | [[-> H'] | (? & ? & ?)]].
        -- right. split; [by left |]. split; intros ->; apply Hy; auto.
        -- left. split; [done |]. destruct H'; auto.
        -- right. auto.
      * intros [[-> [[-> | ?] | [-> | ?]]] | [[-> | ?] [? ?]]]; auto;
          exfalso; apply Hy; auto.
Qed.

Lemma replaceToken_NoDup old new l : NoDup l → NoDup (replaceToken old new l).
Proof.
  induction 1 as [|y l Hy Hl IH]; simpl; [constructor |].
  case_decide as Hd.
  - constructor; [| by apply NoDup_filter].
    rewrite list_elem_of_filter. by intros [[_ ?] _].
  - constructor; [| done].
    rewrite replaceToken_elem. intros [[-> _] | [? _]]; [| done].
    apply Hd. auto.
Qed.

Lemma replaceToken_back old new l :
  NoDup l → old ∈ l → new ∉ l → old ≠ new →
  replaceToken new old (replaceToken old new l) = l.
Proof.
  intros Hl Ho Hn Hne. induction Hl as [|y l Hy Hl IH]; [by apply elem_of_nil in Ho |].
  apply not_elem_of_cons in Hn as [Hny Hn]. simpl.
  destruct (decide (y = old)) as [-> | Hyo].
  - rewrite decide_True by auto. simpl. rewrite decide_True by auto.
    rewrite filter_all.
    + rewrite filter_all; [done |].
      apply Forall_forall. intros z Hz. split; intros ->; done.
    + apply Forall_forall. intros z Hz. apply list_elem_of_filter in Hz as [_ Hz].
      split; intros ->; done.
  - apply elem_of_cons in Ho as [-> | Ho]; [done |].
    rewrite decide_False by (intros [? | ?]; congruence). simpl.
    rewrite decide_False by (intros [? | ?]; congruence).
    by rewrite IH.
Qed.

Lemma classList_replace_swap old new l :
  NoDup l → old ∈ l → new ∉ l → old ≠ new →
  NoDup (classList_replace old new l) ∧
  new ∈ classList_replace old new l ∧
  old ∉ classList_replace old new l.
Proof.
  intros Hl Ho Hn Hne. unfold classList_replace. rewrite decide_True by done.
  split; [by apply replaceToken_NoDup |]. rewrite !replaceToken_elem. split.
  - left. auto.
  - intros [[? _] | [_ [? _]]]; done.
Qed.

Lemma bars_times : js "fa-bars" ≠ js "fa-times".
Proof. intros H. vm_compute in H. discriminate. Qed.

Lemma active_not_in_removed l : js "active" ∉ classList_remove (js "active") l.
Proof. unfold classList_remove. rewrite list_elem_of_filter. by intros [? _]. Qed.

Lemma closeMobileMenu_consistent m : menuConsistent m → menuConsistent (closeMobileMenu m).
Proof.
  intros (Hnd & Hopen & Hclosed). unfold closeMobileMenu. case_decide as Ha; [| done].
  destruct (Hopen Ha) as (Ht & Hb & _).
  destruct (classList_replace_swap (js "fa-times") (js "fa-bars") _ Hnd Ht Hb) as (? & ? & ?).
  { intros H'. by apply bars_times. }
  split; [done |]. split; simpl.
  - intros H'. by apply active_not_in_removed in H'.
  - done.
Qed.

Lemma toggleMobileMenu_consistent m : menuConsistent m → menuConsistent (toggleMobileMenu m).
Proof.
  intros (Hnd & Hopen & Hclosed). unfold toggleMobileMenu, classList_toggle.
  destruct (decide (js "active" ∈ navMenu m)) as [Ha | Ha].
  - rewrite decide_False by apply active_not_in_removed.
    destruct (Hopen Ha) as (Ht & Hb & _).
    destruct (classList_replace_swap (js "fa-times") (js "fa-bars") _ Hnd Ht Hb) as (? & ? & ?).
    { intros H'. by apply bars_times. }
    split; [done |]. split; simpl.
    + intros H'. by apply active_not_in_removed in H'.
    + done.
  - assert (Hin : js "active" ∈ navMenu m ++ [js "active"]).
    { apply elem_of_app. right. by apply list_elem_of_singleton. }
    rewrite decide_True by done.
    destruct (Hclosed Ha) as (Hb & Ht & _).
    destruct (classList_replace_swap (js "fa-bars") (js "fa-times") _ Hnd Hb Ht bars_times)
      as (? & ? & ?).
    split; [done |]. split; simpl; done.
Qed.

Lemma menu_handle_consistent e m : menuConsistent m → menuConsistent (menu_handle e m).
Proof.
  intros Hm. destruct e as [| inToggle inMenu |]; simpl.
  - by apply toggleMobileMenu_consistent.
  - destruct (negb inToggle && negb inMenu); [by apply closeMobileMenu_consistent | done].
  - by apply closeMobileMenu_consistent.
Qed.

(** X12 (initMobileMenu, toggleMobileMenu, closeMobileMenu; script.js lines
    114-155): the icon of the toggle always tells the state of the menu.
    If the icon's classes are distinct and it shows the cross, turned by
    180 degrees, exactly when the menu carries [active] (the bars, not
    turned, otherwise), then the same holds after any sequence of clicks on
    the toggle, clicks elsewhere and Escape keys. *)
Theorem menu_icon_tells_state (es : list menuEvent) (m : menu) :
  menuConsistent m → menuConsistent (menu_run es m).
Proof.
  revert m. induction es as [|e es IH]; intros m Hm; [done |].
  apply IH. by apply menu_handle_consistent.
Qed.

Lemma sampleMenu_consistent : menuConsistent sampleMenu.
Proof.
  split; [| split].
  - simpl. apply NoDup_cons. split.
    + intros H. apply list_elem_of_singleton in H. vm_compute in H. discriminate.
    + apply NoDup_singleton.
  - intros H. exfalso. simpl in H. apply list_elem_of_singleton in H.
    vm_compute in H. discriminate.
  - intros _. simpl. split; [| split; [| done]].
    + apply elem_of_cons. right. by apply list_elem_of_singleton.
    + intros H. apply elem_of_cons in H as [H | H].
      * vm_compute in H. discriminate.
      * apply list_elem_of_singleton in H. vm_compute in H. discriminate.
Qed.

Lemma menu_icon_tells_state_witness :
  menuConsistent (menu_run [ToggleClick; DocumentClick true false; EscapeKey; ToggleClick] sampleMenu).
Proof. apply (menu_icon_tells_state _ sampleMenu). exact sampleMenu_consistent. Defined.

(** X13 (closeMobileMenu, script.js lines 146-155): closing is idempotent
    and leaves the menu without [active], whatever the classes were; a
    menu without [active] is not touched at all, so neither is its icon. *)
Theorem closeMobileMenu_closes (m : menu) :
  (js "active" ∉ navMenu (closeMobileMenu m)) ∧
  closeMobileMenu (closeMobileMenu m) = closeMobileMenu m ∧
  ((js "active" ∉ navMenu m) ↔ closeMobileMenu m = m).
Proof.
  assert (Hc : js "active" ∉ navMenu (closeMobileMenu m)).
  { unfold closeMobileMenu. case_decide; [apply active_not_in_removed | done]. }
  split; [done |]. split.
  - unfold closeMobileMenu at 1. by rewrite decide_False.
  - split.
    + intros Ha. unfold closeMobileMenu. by rewrite decide_False.
    + intros He. by rewrite <- He.
Qed.

Lemma toggleMobileMenu_open m :
  js "active" ∈ navMenu m →
  toggleMobileMenu m =
  Menu (classList_remove (js "active") (navMenu m))
    (classList_replace (js "fa-times") (js "fa-bars") (toggleIcon m)) 0.
Proof.
  intros Ha. unfold toggleMobileMenu, classList_toggle. rewrite (decide_True _ _ Ha).
  by rewrite decide_False by apply active_not_in_removed.
Qed.

Lemma toggleMobileMenu_closed m :
  js "active" ∉ navMenu m →
  toggleMobileMenu m =
  Menu (navMenu m ++ [js "active"])
    (classList_replace (js "fa-bars") (js "fa-times") (toggleIcon m)) 180.
Proof.
  intros Ha. unfold toggleMobileMenu, classList_toggle. rewrite (decide_False _ _ Ha).
  rewrite decide_True; [done |].
  apply elem_of_app. right. by apply list_elem_of_singleton.
Qed.

(** X14 (toggleMobileMenu, script.js lines 130-144): two clicks on the
    toggle bring a consistent menu back: the icon has the very same class
    list and rotation as before, and the menu the same classes ([active],
    when it was there, has moved to the end). *)
Theorem toggleMobileMenu_twice (m : menu) :
  menuConsistent m → NoDup (navMenu m) →
  toggleIcon (toggleMobileMenu (toggleMobileMenu m)) = toggleIcon m ∧
  iconRotation (toggleMobileMenu (toggleMobileMenu m)) = iconRotation m ∧
  navMenu (toggleMobileMenu (toggleMobileMenu m)) ≡ₚ navMenu m.
Proof.
  intros (Hnd & Hopen & Hclosed) Hn.
  assert (Hne : js "fa-times" ≠ js "fa-bars") by (intros H'; by apply bars_times).
  destruct (decide (js "active" ∈ navMenu m)) as [Ha | Ha].
  - rewrite (toggleMobileMenu_open m Ha).
    rewrite toggleMobileMenu_closed by apply active_not_in_removed.
    cbn [navMenu toggleIcon iconRotation].
    destruct (Hopen Ha) as (Ht & Hb & Hr).
    destruct (classList_replace_swap (js "fa-times") (js "fa-bars") _ Hnd Ht Hb Hne)
      as (_ & Hb' & _).
    split; [| split; [done |]].
    + unfold classList_replace at 1. rewrite decide_True by done.
      unfold classList_replace. rewrite decide_True by done.
      by apply replaceToken_back.
    + unfold classList_remove. rewrite <- Permutation_cons_append.
      clear -Hn Ha. induction Hn as [|x l Hx Hl IH]; [by apply elem_of_nil in Ha |].
      rewrite filter_cons. apply elem_of_cons in Ha as [<- | Ha].
      * rewrite decide_False by (intros H'; by apply H').
        rewrite filter_all; [done |].
        apply Forall_forall. by intros z Hz ->.
      * rewrite decide_True by (by intros ->).
        rewrite <- (IH Ha) at 2. apply Permutation_swap.
  - rewrite (toggleMobileMenu_closed m Ha).
    rewrite toggleMobileMenu_open
      by (apply elem_of_app; right; by apply list_elem_of_singleton).
    cbn [navMenu toggleIcon iconRotation].
    destruct (Hclosed Ha) as (Hb & Ht & Hr).
    destruct (classList_replace_swap (js "fa-bars") (js "fa-times") _ Hnd Hb Ht bars_times)
      as (_ & Ht' & _).
    split; [| split; [done |]].
    + unfold classList_replace at 1. rewrite decide_True by done.
      unfold classList_replace. rewrite decide_True by done.
      by apply replaceToken_back.
    + unfold classList_remove. rewrite filter_app, filter_cons.
      rewrite decide_False by (intros H'; by apply H').
      rewrite filter_nil, app_nil_r, filter_all; [done |].
      apply Forall_forall. by intros z Hz ->.
Qed.

Lemma toggleMobileMenu_twice_witness :
  toggleIcon (toggleMobileMenu (toggleMobileMenu sampleMenu)) = toggleIcon sampleMenu ∧
  iconRotation (toggleMobileMenu (toggleMobileMenu sampleMenu)) = iconRotation sampleMenu ∧
  navMenu (toggleMobileMenu (toggleMobileMenu sampleMenu)) ≡ₚ navMenu sampleMenu.
Proof.
  apply (toggleMobileMenu_twice sampleMenu); [exact sampleMenu_consistent |].
  simpl. apply NoDup_singleton.
Defined.


(** ** Navigation links *)

Lemma makeActive_length i links : length (makeActive i links) = length links.
Proof. unfold makeActive. by rewrite length_alter, length_map. Qed.

Lemma makeActive_href i links :
  map nl_href (makeActive i links) = map nl_href links.
Proof.
  unfold makeActive. apply list_eq. intros j.
  rewrite !list_lookup_fmap. destruct (decide (i = j)) as [-> | Hij].
  - rewrite list_lookup_alter_eq, list_lookup_fmap. by destruct (links !! j).
  - rewrite list_lookup_alter_ne by done. rewrite list_lookup_fmap.
    by destruct (links !! j).
Qed.

Lemma makeActive_lookup i links j l' :
  (i < length links)%nat → makeActive i links !! j = Some l' →
  (isActive l' = true ↔ j = i).
Proof.
  intros Hi Hj. unfold makeActive in Hj. unfold isActive.
  rewrite bool_decide_eq_true. destruct (decide (i = j)) as [-> | Hij].
  - rewrite list_lookup_alter_eq, list_lookup_fmap in Hj.
    destruct (links !! j) as [l |]; [| done]. simpl in Hj.
    apply (inj Some) in Hj as <-. simpl. split; [done | intros _].
    unfold classList_add. case_decide; [done |].
    apply elem_of_app. right. by apply list_elem_of_singleton.
  - rewrite list_lookup_alter_ne, list_lookup_fmap in Hj by done.
    destruct (links !! j) as [l |]; [| done]. simpl in Hj.
    apply (inj Some) in Hj as <-. simpl. split; [| by intros ->].
    intros H'. by apply active_not_in_removed in H'.
Qed.

Lemma makeActive_classes i links j l l' c :
  c ≠ js "active" → links !! j = Some l → makeActive i links !! j = Some l' →
  (c ∈ nl_classList l' ↔ c ∈ nl_classList l).
Proof.
  intros Hc Hl Hj. unfold makeActive in Hj.
  assert (Hr : c ∈ classList_remove (js "active") (nl_classList l) ↔ c ∈ nl_classList l).
  { unfold classList_remove. rewrite list_elem_of_filter. tauto. }
  destruct (decide (i = j)) as [-> | Hij].
  - rewrite list_lookup_alter_eq, list_lookup_fmap, Hl in Hj. simpl in Hj.
    apply (inj Some) in Hj as <-. simpl. rewrite <- Hr.
    unfold classList_add. case_decide; [done |].
    rewrite elem_of_app, list_elem_of_singleton. tauto.
  - rewrite list_lookup_alter_ne, list_lookup_fmap, Hl in Hj by done. simpl in Hj.
    by apply (inj Some) in Hj as <-.
Qed.

Lemma filter_none {A} (P : A → Prop) `{∀ x, Decision (P x)} (l : list A) :
  Forall (λ x, ¬ P x) l → filter P l = [].
Proof.
  induction 1 as [|x l Hx _ IH]; [done |].
  by rewrite filter_cons, decide_False, IH.
Qed.

Lemma filter_at_most_one {A} (P : A → Prop) `{∀ x, Decision (P x)} (l : list A) (i : nat) :
  (∀ j x, l !! j = Some x → P x → j = i) → (length (filter P l) ≤ 1)%nat.
Proof.
  revert i. induction l as [|x l IH]; intros i Hl; [simpl; lia |].
  rewrite filter_cons. case_decide as Hx.
  - rewrite (filter_none P l); [simpl; lia |].
    apply Forall_forall. intros y Hy Py.
    apply list_elem_of_lookup in Hy as [j Hj].
    pose proof (Hl 0%nat x eq_refl Hx). pose proof (Hl (S j) y Hj Py). lia.
  - apply (IH (pred i)). intros j y Hj Py.
    pose proof (Hl (S j) y Hj Py). lia.
Qed.

Lemma makeActive_one i links :
  (i < length links)%nat → (length (activeLinks (makeActive i links)) ≤ 1)%nat.
Proof.
  intros Hi. unfold activeLinks. apply (filter_at_most_one _ _ i).
  intros j x Hj Px. by apply (makeActive_lookup i links j x Hi Hj).
Qed.

Lemma linkTo_lt id links i : linkTo id links = Some i → (i < length links)%nat.
Proof.
  unfold linkTo. intros H.
  destruct (list_find _ links) as [[j x] |] eqn:Hf; [| done].
  simpl in H. apply (inj Some) in H as <-.
  apply list_find_Some in Hf as (Hj & _). by apply lookup_lt_Some in Hj.
Qed.

Lemma linkTo_href id links links' :
  map nl_href links = map nl_href links' → linkTo id links = linkTo id links'.
Proof.
  unfold linkTo. revert links'. induction links as [|x l IH]; intros [|x' l'] He; try done.
  injection He as Hx Hl. cbn [list_find]. rewrite <- Hx.
  destruct (decide (nl_href x = js "#" ++ id)); [done |].
  specialize (IH l' Hl).
  destruct (list_find _ l) as [[? ?] |], (list_find _ l') as [[? ?] |]; simpl in *;
    congruence.
Qed.

Lemma navObserveEntry_href s entry :
  map nl_href (navLinks (navObserveEntry s entry)) = map nl_href (navLinks s).
Proof.
  destruct entry as [id [|]]; simpl; [| done].
  destruct (linkTo id (navLinks s)); [| done]. simpl. apply makeActive_href.
Qed.

Lemma navObserve_href entries s :
  map nl_href (navLinks (navObserve entries s)) = map nl_href (navLinks s).
Proof.
  revert s. induction entries as [|e es IH]; intros s; [done |].
  simpl. unfold navObserve in IH. by rewrite IH, navObserveEntry_href.
Qed.

Lemma navObserveEntry_one s entry :
  (length (activeLinks (navLinks s)) ≤ 1)%nat →
  (length (activeLinks (navLinks (navObserveEntry s entry))) ≤ 1)%nat.
Proof.
  intros Hs. destruct entry as [id [|]]; simpl; [| done].
  destruct (linkTo id (navLinks s)) as [i |] eqn:Hi; [| done]. simpl.
  apply makeActive_one. by apply linkTo_lt in Hi.
Qed.

Lemma navObserve_one entries s :
  (length (activeLinks (navLinks s)) ≤ 1)%nat →
  (length (activeLinks (navLinks (navObserve entries s))) ≤ 1)%nat.
Proof.
  revert s. induction entries as [|e es IH]; intros s Hs; [done |].
  simpl. apply IH. by apply navObserveEntry_one.
Qed.

Lemma navObserve_no_hit links entries s :
  map nl_href (navLinks s) = map nl_href links →
  forallb (λ e, negb (hits links e)) entries = true → navObserve entries s = s.
Proof.
  intros He. induction entries as [|[id b] es IH]; [done |].
  cbn [forallb]. intros [Hh Hes]%andb_true_iff.
  unfold navObserve. cbn [fold_left].
  assert (Hstep : navObserveEntry s (id, b) = s).
  { unfold hits in Hh. cbn [fst snd] in Hh. cbn [navObserveEntry].
    destruct b; [| done]. rewrite andb_true_l in Hh.
    rewrite (linkTo_href id _ _ He).
    apply negb_true_iff, bool_decide_eq_false in Hh.
    destruct (linkTo id links); [| done]. exfalso. by apply Hh. }
  rewrite Hstep. by apply IH.
Qed.

(** X15 (initNavigation, the links' click listener; script.js lines 69-91):
    a click on a link whose href selects an element leaves that link, and
    no other, with the class [active], scrolls to the element and leaves
    the mobile menu closed; every other class of every link stays as it
    was. A click on a link whose href selects nothing changes nothing. *)
Theorem navLinkClick_effect (i : nat) (s : navigation) (link : navLink) :
  navLinks s !! i = Some link →
  (nl_href link ∈ nav_targets s →
   (∀ j l', navLinks (navLinkClick i s) !! j = Some l' → (isActive l' = true ↔ j = i)) ∧
   (∀ j l l' c, c ≠ js "active" → navLinks s !! j = Some l →
      navLinks (navLinkClick i s) !! j = Some l' →
      nl_href l' = nl_href l ∧ (c ∈ nl_classList l' ↔ c ∈ nl_classList l)) ∧
   length (navLinks (navLinkClick i s)) = length (navLinks s) ∧
   nav_scrolledTo (navLinkClick i s) = Some (nl_href link) ∧
   (js "active" ∉ navMenu (nav_menu (navLinkClick i s)))) ∧
  (nl_href link ∉ nav_targets s → navLinkClick i s = s).
Proof.
  intros Hi. unfold navLinkClick. rewrite Hi. split.
  - intros Ht. rewrite bool_decide_eq_true_2 by done. cbn [navLinks nav_scrolledTo nav_menu].
    pose proof (lookup_lt_Some _ _ _ Hi) as Hlt.
    split; [| split; [| split; [| split]]].
    + intros j l'. by apply makeActive_lookup.
    + intros j l l' c Hc Hl Hl'. split; [| by apply (makeActive_classes i (navLinks s) j)].
      pose proof (makeActive_href i (navLinks s)) as He.
      apply (f_equal (λ x, x !! j)) in He. rewrite !list_lookup_fmap, Hl, Hl' in He.
      simpl in He. by apply (inj Some) in He.
    + apply makeActive_length.
    + done.
    + unfold closeMobileMenu. case_decide; [apply active_not_in_removed | done].
  - intros Ht. by rewrite bool_decide_eq_false_2.
Qed.

Lemma navLinkClick_effect_witness :
  navLinkClick 2 sampleNavigation = sampleNavigation.
Proof.
  refine (proj2 (navLinkClick_effect 2 sampleNavigation
                   (NavLink (js "#blog") [js "nav-link"]) _) _).
  - reflexivity.
  - intros H. vm_compute in H.
    apply elem_of_cons in H as [H | H]; [discriminate |].
    apply elem_of_cons in H as [H | H]; [discriminate |].
    by apply elem_of_nil in H.
Defined.

(** X16 (initNavigation, script.js lines 65-112, with closeMobileMenu and
    the menu's listeners): if at most one link is marked [active] when the
    page is set up, then at most one is after any sequence of clicks on
    links, observer callbacks and menu events; the links and their hrefs
    never change. *)
Theorem one_active_link (es : list navEvent) (s : navigation) :
  (length (activeLinks (navLinks s)) ≤ 1)%nat →
  (length (activeLinks (navLinks (nav_run es s))) ≤ 1)%nat ∧
  map nl_href (navLinks (nav_run es s)) = map nl_href (navLinks s).
Proof.
  revert s. induction es as [|e es IH]; intros s Hs; [done |].
  simpl.
  assert (Hstep : (length (activeLinks (navLinks (nav_handle e s))) ≤ 1)%nat ∧
                  map nl_href (navLinks (nav_handle e s)) = map nl_href (navLinks s)).
  { destruct e as [i | entries | e]; simpl.
    - unfold navLinkClick. destruct (navLinks s !! i) as [link |] eqn:Hi; [| done].
      case_bool_decide; [| done]. simpl. split; [| apply makeActive_href].
      apply makeActive_one. by apply lookup_lt_Some in Hi.
    - split; [by apply navObserve_one | apply navObserve_href].
    - done. }
  destruct Hstep as [H1 H2]. destruct (IH _ H1) as [H3 H4].
  unfold nav_run in *. split; [done | congruence].
Qed.

Lemma one_active_link_witness :
  (length (activeLinks (navLinks (nav_run
    [LinkClick 1; Intersections [(js "home", true); (js "about", false)];
     MenuEvent ToggleClick; LinkClick 0] sampleNavigation))) ≤ 1)%nat.
Proof.
  apply (one_active_link _ sampleNavigation). vm_compute. lia.
Defined.

(** X17 (initNavigation, the observer's callback; script.js lines 99-109):
    of the entries of one callback the last one that is intersecting and
    has a link decides: afterwards that link, and no other, is [active].
    A callback without such an entry changes nothing. *)
Theorem observer_last_hit_wins (entries : list (jsstring * bool)) (s : navigation) :
  (forallb (λ e, negb (hits (navLinks s) e)) entries = true →
   navObserve entries s = s) ∧
  (∀ pre id post i,
     entries = pre ++ (id, true) :: post →
     linkTo id (navLinks s) = Some i →
     forallb (λ e, negb (hits (navLinks s) e)) post = true →
     ∀ j l', navLinks (navObserve entries s) !! j = Some l' →
       (isActive l' = true ↔ j = i)).
Proof.
  split; [by apply navObserve_no_hit |].
  intros pre id post i -> Hi Hpost j l'.
  unfold navObserve. rewrite fold_left_app. cbn [fold_left].
  fold (navObserve pre s). set (s1 := navObserve pre s).
  assert (H1 : map nl_href (navLinks s1) = map nl_href (navLinks s))
    by apply navObserve_href.
  set (s2 := navObserveEntry s1 (id, true)).
  assert (H2 : map nl_href (navLinks s2) = map nl_href (navLinks s)).
  { unfold s2. by rewrite navObserveEntry_href. }
  fold (navObserve post s2). rewrite (navObserve_no_hit (navLinks s) post s2 H2 Hpost).
  unfold s2. cbn [navObserveEntry]. rewrite (linkTo_href id _ _ H1), Hi.
  cbn [navLinks]. apply makeActive_lookup.
  apply linkTo_lt in Hi. apply (f_equal length) in H1. rewrite !length_map in H1. lia.
Qed.

Lemma observer_last_hit_wins_witness :
  navObserve [(js "contact", true); (js "home", false)] sampleNavigation = sampleNavigation.
Proof.
  apply (proj1 (observer_last_hit_wins [(js "contact", true); (js "home", false)]
                  sampleNavigation)).
  vm_compute. reflexivity.
Defined.


(** ** The tooltip *)

Ltac tip_cmp :=
  repeat match goal with
  | |- context [?a <? ?b] =>
      first [rewrite (proj2 (N.ltb_lt a b)) by lia | rewrite (proj2 (N.ltb_ge a b)) by lia]
  | |- context [?a <=? ?b] =>
      first [rewrite (proj2 (N.leb_le a b)) by lia | rewrite (proj2 (N.leb_gt a b)) by lia]
  end.

Lemma filter_fresh (e : nat) (l : list nat) :
  Forall (λ i, (i < e)%nat) l → filter (λ x, x ≠ e) (l ++ [e]) = l.
Proof.
  intros Hl. rewrite filter_app, filter_cons, decide_False by (intros H; by apply H).
  rewrite filter_nil, app_nil_r. apply filter_all.
  eapply Forall_impl; [exact Hl |]. simpl. lia.
Qed.

(** X18 (showTooltip, hideTooltip; script.js lines 864-915): the round
    trip. With no tooltip around, showing a non-empty text puts one new
    element at the end of the body, which is fully visible once 10 ms have
    passed; hiding it then, and letting 300 ms pass, gives back the body as
    it was, with [tooltipElement] null again, no timer pending and no
    error. *)
Theorem tooltip_round_trip (st : tipState) (element : nat) (text : jsstring) (t1 t2 : N) :
  tip_idle st → truthy text = true →
  tip_now st + 10 ≤ t1 → N.max (tip_now st) t1 + 300 ≤ t2 →
  let shown := tip_advanceTo t1 (showTooltip element (Some text) st) in
  let hidden := tip_advanceTo t2 (hideTooltip shown) in
  tooltipElement shown = Some (tip_nextId st) ∧
  tip_body shown = tip_body st ++ [tip_nextId st] ∧
  tip_elements shown !! tip_nextId st =
    Some (Tip text element (js "1") (js "translateY(0)")) ∧
  tip_timers shown = [] ∧
  tooltipElement hidden = None ∧
  tip_body hidden = tip_body st ∧
  tip_timers hidden = [] ∧
  tip_errors hidden = tip_errors st.
Proof.
  intros (Hn & Ht & Hb) Htext H1 H2. destruct st as [te els body timers now next errs].
  simpl in Hn, Ht, Hb, H1, H2. subst te timers. cbv zeta.
  assert (Hle : (now + 10 <=? t1) = true) by (apply N.leb_le; lia).
  assert (Hle2 : (N.max (N.max now (now + 10)) t1 + 300 <=? t2) = true)
    by (apply N.leb_le; lia).
  assert (Hs : tip_advanceTo t1 (showTooltip element (Some text)
                 (TipState None els body [] now next errs)) =
    TipState (Some next)
      (alter (restyle (js "1") (js "translateY(0)")) next
         (<[next := Tip text element (js "0") (js "translateY(-10px)")]> els))
      (body ++ [next]) [] (N.max (N.max now (now + 10)) t1) (S next) errs).
  { unfold showTooltip, hideTooltip. rewrite Htext.
    cbn [negb tooltipElement tip_timers tip_nextId tip_elements tip_body tip_now tip_errors
         app].
    unfold tip_advanceTo. cbn [tip_timers length tip_runFuel popDue fst snd].
    by rewrite Hle. }
  rewrite Hs.
  assert (Hh : tip_advanceTo t2 (hideTooltip
      (TipState (Some next)
        (alter (restyle (js "1") (js "translateY(0)")) next
           (<[next := Tip text element (js "0") (js "translateY(-10px)")]> els))
        (body ++ [next]) [] (N.max (N.max now (now + 10)) t1) (S next) errs)) =
    TipState None
      (alter (restyle (js "0") (js "translateY(-10px)")) next
        (alter (restyle (js "1") (js "translateY(0)")) next
           (<[next := Tip text element (js "0") (js "translateY(-10px)")]> els)))
      (filter (λ x, x ≠ next) (body ++ [next])) []
      (N.max (N.max (N.max (N.max now (now + 10)) t1)
                (N.max (N.max now (now + 10)) t1 + 300)) t2) (S next) errs).
  { unfold hideTooltip, tip_advanceTo.
    cbn [tooltipElement tip_timers tip_nextId tip_elements tip_body tip_now tip_errors app
         length tip_runFuel popDue fst snd].
    by rewrite Hle2. }
  rewrite Hh. cbn [tooltipElement tip_timers tip_nextId tip_elements tip_body tip_errors].
  split; [done |]. split; [done |]. split.
  { rewrite lookup_alter_eq, lookup_insert_eq. done. }
  split; [done |]. split; [done |]. split; [| done].
  by apply filter_fresh.
Qed.

Lemma tooltip_round_trip_witness :
  tip_body (tip_advanceTo 500
    (hideTooltip (tip_advanceTo 10 (showTooltip 7 (Some (js "React")) tip_init)))) = [].
Proof.
  apply (tooltip_round_trip tip_init 7 (js "React") 10 500).
  - split; [done |]. split; [done |]. apply Forall_nil_2.
  - reflexivity.
  - simpl. lia.
  - simpl. lia.
Defined.


Ltac tip_unfold :=
  cbn [negb tooltipElement tip_timers tip_nextId tip_elements tip_body tip_now tip_errors
       app length tip_runFuel popDue fst snd runTip tip_set_now tip_set_timers].

(** X19 (showTooltip, hideTooltip; script.js lines 864-915): a tooltip
    shown while another one is showing. The call hides the old one and
    queues its removal, but the removal, 300 ms later, reads the variable,
    which by then holds the new element: the new tooltip is removed, the
    old one stays in the body with opacity 0, and the variable is null. *)
Theorem tooltip_over_another (st : tipState) (a element : nat) (text : jsstring) (t : N) :
  tip_showing a st → truthy text = true → tip_now st + 300 ≤ t →
  let st' := tip_advanceTo t (showTooltip element (Some text) st) in
  tooltipElement st' = None ∧
  tip_body st' = tip_body st ∧
  a ∈ tip_body st' ∧
  (tip_nextId st ∉ tip_body st') ∧
  tip_elements st' !! a =
    restyle (js "0") (js "translateY(-10px)") <$> tip_elements st !! a ∧
  tip_timers st' = [] ∧
  tip_errors st' = tip_errors st.
Proof.
  intros (Hte & Ht & Ha & Hb) Htext H1. destruct st as [te els body timers now next errs].
  simpl in Hte, Ht, Ha, Hb, H1. subst te timers. cbv zeta.
  assert (Hlt : (a < next)%nat).
  { rewrite Forall_forall in Hb. by apply Hb. }
  unfold showTooltip, hideTooltip. rewrite Htext. tip_unfold.
  unfold tip_advanceTo. tip_unfold. tip_cmp. tip_unfold. tip_cmp. tip_unfold.
  rewrite (filter_fresh next body Hb).
  split; [done |]. split; [done |]. split; [done |]. split.
  { intros Hin. rewrite Forall_forall in Hb. apply Hb in Hin. lia. }
  split; [| done].
  rewrite lookup_alter_ne by lia. rewrite lookup_insert_ne by lia.
  by rewrite lookup_alter_eq.
Qed.

Lemma tip_sample_showing : tip_showing 0 tip_sample.
Proof.
  split; [done |]. split; [done |]. split.
  - vm_compute. by apply list_elem_of_singleton.
  - vm_compute. apply Forall_singleton. lia.
Qed.

Lemma tooltip_over_another_witness :
  tooltipElement (tip_advanceTo 400 (showTooltip 8 (Some (js "Vue")) tip_sample)) = None.
Proof.
  apply (tooltip_over_another tip_sample 0 8 (js "Vue") 400).
  - exact tip_sample_showing.
  - reflexivity.
  - vm_compute. discriminate.
Defined.

(** X20 (showTooltip, hideTooltip; script.js lines 864-915): the pointer
    leaves an icon whose tooltip is showing and enters another one between
    290 and 300 ms later. The removal queued on leaving runs first and
    takes the new element away; the show callback, 10 ms after entering,
    then finds [tooltipElement] null and throws; the first tooltip is
    still in the body. *)
Theorem tooltip_show_after_removal_throws
    (st : tipState) (a element : nat) (text : jsstring) (t1 t2 : N) :
  tip_showing a st → truthy text = true →
  tip_now st + 290 ≤ t1 → t1 < tip_now st + 300 → t1 + 300 ≤ t2 →
  let st' :=
    tip_advanceTo t2 (showTooltip element (Some text) (tip_advanceTo t1 (hideTooltip st))) in
  tip_errors st' = S (tip_errors st) ∧
  tooltipElement st' = None ∧
  tip_body st' = tip_body st ∧
  tip_timers st' = [].
Proof.
  intros (Hte & Ht & Ha & Hb) Htext H1 H2 H3. destruct st as [te els body timers now next errs].
  simpl in Hte, Ht, Ha, Hb, H1, H2, H3. subst te timers. cbv zeta.
  unfold hideTooltip at 2. tip_unfold.
  unfold tip_advanceTo at 2. tip_unfold. tip_cmp. tip_unfold.
  unfold showTooltip, hideTooltip. rewrite Htext. tip_unfold.
  unfold tip_advanceTo. tip_unfold. repeat (progress (tip_cmp; tip_unfold)).
  rewrite (filter_fresh next body Hb). done.
Qed.

Lemma tooltip_show_after_removal_throws_witness :
  tip_errors (tip_advanceTo 700
    (showTooltip 8 (Some (js "Vue")) (tip_advanceTo 305 (hideTooltip tip_sample)))) = 1%nat.
Proof.
  apply (tooltip_show_after_removal_throws tip_sample 0 8 (js "Vue") 305 700).
  - exact tip_sample_showing.
  - reflexivity.
  - vm_compute. discriminate.
  - vm_compute. reflexivity.
  - vm_compute. discriminate.
Defined.

Lemma hideTooltip_orphan a st : tip_orphan a st → tip_orphan a (hideTooltip st).
Proof.
  intros (Ha & Hte & Hlt). unfold hideTooltip.
  destruct (tooltipElement st) as [e |] eqn:He.
  - split; [done |]. split; done.
  - split; [done |]. split; [by rewrite He | done].
Qed.

Lemma showTooltip_orphan a element title st :
  tip_orphan a st → tip_orphan a (showTooltip element title st).
Proof.
  intros Ho. unfold showTooltip. destruct title as [text |]; [| done].
  destruct (truthy text); [| done]. cbn [negb].
  apply hideTooltip_orphan in Ho as (Ha & Hte & Hlt).
  split; [| split]; cbn [tip_body tooltipElement tip_nextId].
  - apply elem_of_app. by left.
  - intros H. apply (inj Some) in H. lia.
  - lia.
Qed.

Lemma runTip_orphan a k st : tip_orphan a st → tip_orphan a (runTip k st).
Proof.
  intros (Ha & Hte & Hlt). destruct k; unfold runTip.
  - destruct (tooltipElement st) as [e |] eqn:He; (split; [done |]; split; done).
  - split; [| split; done]. cbn [tip_body].
    destruct (tooltipElement st) as [e |]; [| done].
    apply list_elem_of_filter. split; [| done]. intros ->. by apply Hte.
Qed.

Lemma tip_runFuel_orphan a fuel t st :
  tip_orphan a st → tip_orphan a (tip_runFuel fuel t st).
Proof.
  revert st. induction fuel as [|fuel IH]; intros st Ho; simpl; [done |].
  destruct (popDue (tip_timers st)) as [[[d k] rest] |]; [| done].
  destruct (d <=? t); [| done].
  apply IH, runTip_orphan. done.
Qed.

(** X21 (showTooltip, hideTooltip and their timer callbacks; script.js
    lines 862-915): a tooltip element that is in the body while the
    variable [tooltipElement] does not hold it is never removed, whatever
    the pointer, the Escape key and the clock do afterwards. *)
Theorem orphan_tooltip_stays (es : list tipEvent) (a : nat) (st : tipState) :
  tip_orphan a st → tip_orphan a (tip_run es st).
Proof.
  revert st. induction es as [|e es IH]; intros st Ho; [done |].
  simpl. apply IH. destruct e as [element title | | | t]; simpl.
  - by apply showTooltip_orphan.
  - by apply hideTooltip_orphan.
  - by apply hideTooltip_orphan.
  - by apply tip_runFuel_orphan.
Qed.

Lemma orphan_tooltip_stays_witness :
  tip_orphan 0 (tip_run [TipEnter 9 (Some (js "Go")); TipLeave; TipElapse 2000]
    (tip_advanceTo 400 (showTooltip 8 (Some (js "Vue")) tip_sample))).
Proof.
  apply (orphan_tooltip_stays _ 0). split; [| split].
  - vm_compute. by apply list_elem_of_singleton.
  - vm_compute. discriminate.
  - vm_compute. lia.
Defined.


(** ** Loading the projects *)

Lemma appendCards_ok entries grid :
  forallb (λ e, match e with
                | Some p => match p_tools p with Some _ => true | None => false end
                | None => false
                end) entries = true →
  appendCards entries grid =
  (grid ++ omap (λ e, CardChild <$> createProjectCard (Some e)) (omap id entries), true).
Proof.
  revert grid. induction entries as [|[p |] es IH]; intros grid H.
  - simpl. by rewrite app_nil_r.
  - cbn [forallb] in H. apply andb_true_iff in H as [Hp Hes].
    cbn [appendCards createProjectCard]. cbn [omap list_omap id].
    destruct (p_tools p) as [tools |]; [| done].
    rewrite (IH _ Hes). cbn [fmap option_fmap option_map].
    by rewrite <- app_assoc.
  - done.
Qed.

Lemma appendCards_fail entries grid :
  forallb (λ e, match e with
                | Some p => match p_tools p with Some _ => true | None => false end
                | None => false
                end) entries = false →
  snd (appendCards entries grid) = false.
Proof.
  revert grid. induction entries as [|[p |] es IH]; intros grid H.
  - done.
  - cbn [forallb] in H. cbn [appendCards createProjectCard].
    destruct (p_tools p) as [tools |]; [| done].
    apply IH. by rewrite andb_true_l in H.
  - done.
Qed.

Lemma cards_of_entries entries :
  forallb (λ e, match e with
                | Some p => match p_tools p with Some _ => true | None => false end
                | None => false
                end) entries = true →
  ∃ cards,
    omap (λ e, CardChild <$> createProjectCard (Some e)) (omap id entries) =
      CardChild <$> cards ∧
    card_project <$> cards = omap id entries ∧
    Forall (λ c, card_ariaLabel c =
                 js "View project: " ++ interpolate (p_title (card_project c))) cards.
Proof.
  induction entries as [|[p |] es IH]; intros H.
  - exists []. done.
  - cbn [forallb] in H. apply andb_true_iff in H as [Hp Hes].
    destruct (IH Hes) as (cards & H1 & H2 & H3).
    cbn [omap list_omap id createProjectCard].
    destruct (p_tools p) as [tools |] eqn:Ht; [| done].
    cbn [fmap option_fmap option_map].
    eexists (_ :: cards). split; [| split].
    + cbn [fmap list_fmap]. by rewrite <- H1.
    + cbn [fmap list_fmap card_project]. by rewrite <- H2.
    + by constructor.
  - done.
Qed.

(** X22 (loadProjects, createProjectCard, showProjectsError; script.js
    lines 348-455): all or nothing, whatever the grid held before. When the
    fetch gives an array whose entries all are objects with a tools array,
    the grid ends up with exactly one card per entry, in order, each
    labelled with its project's title; in every other case (the fetch or
    the parse fails, the status is not ok, an entry is null or lacks the
    array, even after cards for earlier entries were appended) the grid
    ends up with the error block alone. *)
Theorem loadProjects_all_or_nothing (r : fetched) (grid : list gridChild) :
  match loadable r with
  | Some projects =>
      ∃ cards,
        loadProjects r grid = CardChild <$> cards ∧
        card_project <$> cards = projects ∧
        Forall (λ c, card_ariaLabel c =
                     js "View project: " ++ interpolate (p_title (card_project c))) cards
  | None => loadProjects r grid = [Markup projectsErrorHTML]
  end.
Proof.
  destruct r as [| [|] [| | entries]]; try done.
  unfold loadable.
  destruct (forallb _ entries) eqn:Hall.
  - unfold loadProjects. cbn [negb]. rewrite (appendCards_ok _ _ Hall). cbn [app].
    by apply cards_of_entries.
  - unfold loadProjects. cbn [negb].
    pose proof (appendCards_fail entries [] Hall) as Hf.
    destruct (appendCards entries []) as [g b]. simpl in Hf. by subst b.
Qed.


(** ** scrollToContact *)

(** X23 (scrollToContact, script.js lines 725-750): with a contact section
    on the page, afterwards a link is [active] exactly if it is the first
    link to [#contact] (so none is when there is no such link), the page
    has scrolled to the section, and the mobile menu is as it was. Without
    a contact section nothing changes. *)
Theorem scrollToContact_effect (s : navigation) :
  (js "#contact" ∈ nav_targets s →
   (∀ j l', navLinks (scrollToContact s) !! j = Some l' →
      (isActive l' = true ↔ linkTo (js "contact") (navLinks s) = Some j)) ∧
   map nl_href (navLinks (scrollToContact s)) = map nl_href (navLinks s) ∧
   nav_scrolledTo (scrollToContact s) = Some (js "#contact") ∧
   nav_menu (scrollToContact s) = nav_menu s) ∧
  (js "#contact" ∉ nav_targets s → scrollToContact s = s).
Proof.
  unfold scrollToContact. split.
  - intros Hc. rewrite bool_decide_eq_true_2 by done.
    cbn [navLinks nav_scrolledTo nav_menu].
    destruct (linkTo (js "contact") (navLinks s)) as [i |] eqn:Hi.
    + fold (makeActive i (navLinks s)). split; [| split; [| done]].
      * intros j l' Hj. rewrite (makeActive_lookup i (navLinks s) j l'); [| | done].
        -- split; [by intros -> | by intros [= ->]].
        -- by apply linkTo_lt in Hi.
      * apply makeActive_href.
    + split; [| split; [| done]].
      * intros j l' Hj. split; [| done]. unfold isActive. rewrite bool_decide_eq_true.
        intros Ha. exfalso. change (map ?f ?l) with (f <$> l) in Hj.
        rewrite list_lookup_fmap in Hj.
        destruct (navLinks s !! j) as [l |]; [| done]. simpl in Hj.
        apply (inj Some) in Hj as <-. simpl in Ha. by apply active_not_in_removed in Ha.
      * rewrite map_map. done.
  - intros Hc. by rewrite bool_decide_eq_false_2.
Qed.

Lemma scrollToContact_effect_witness : scrollToContact sampleNavigation = sampleNavigation.
Proof.
  apply (proj2 (scrollToContact_effect sampleNavigation)).
  intros H. vm_compute in H.
  apply elem_of_cons in H as [H | H]; [discriminate |].
  apply elem_of_cons in H as [H | H]; [discriminate |].
  by apply elem_of_nil in H.
Defined.

(** ** Scroll monitoring *)

Lemma sm_run_snoc es e m : sm_run (es ++ [e]) m = sm_handle e (sm_run es m).
Proof. unfold sm_run. by rewrite fold_left_app. Qed.

(** X24 (initPerformanceMonitoring, script.js lines 998-1025): the scroll
    listener never has more than one frame callback queued, and [ticking]
    is true exactly while one is; whenever none is queued and the window
    has scrolled at all, the navbar (if there is one) has been updated
    from the current scroll position, so the last position of a burst of
    scroll events is never lost. *)
Theorem scroll_updates_throttled (es : list smEvent) (navbar : bool) (y0 : Z) :
  (frameRequests (sm_run es (sm_init navbar y0)) ≤ 1)%nat ∧
  (ticking (sm_run es (sm_init navbar y0)) = true ↔
   frameRequests (sm_run es (sm_init navbar y0)) = 1%nat) ∧
  (ticking (sm_run es (sm_init navbar y0)) = false →
   existsb isScroll es = true → navbar = true →
   navbarFrom (sm_run es (sm_init navbar y0)) =
     Some (sm_scrollY (sm_run es (sm_init navbar y0)))) ∧
  sm_navbar (sm_run es (sm_init navbar y0)) = navbar.
Proof.
  assert (H : frameRequests (sm_run es (sm_init navbar y0)) =
                (if ticking (sm_run es (sm_init navbar y0)) then 1 else 0)%nat ∧
              (ticking (sm_run es (sm_init navbar y0)) = false →
               existsb isScroll es = true → navbar = true →
               navbarFrom (sm_run es (sm_init navbar y0)) =
                 Some (sm_scrollY (sm_run es (sm_init navbar y0)))) ∧
              sm_navbar (sm_run es (sm_init navbar y0)) = navbar).
  { induction es as [|e es IH] using rev_ind; [done |].
    rewrite sm_run_snoc. destruct IH as (I1 & I2 & I3).
    destruct (sm_run es (sm_init navbar y0)) as [tk fr y nb from].
    cbn [frameRequests ticking navbarFrom sm_scrollY sm_navbar] in I1, I2, I3. subst nb.
    rewrite existsb_app. destruct e as [y' |]; cbn [sm_handle].
    - unfold onScroll. cbn [ticking]. destruct tk; cbn [negb]; subst fr; done.
    - unfold onFrame. cbn [frameRequests ticking navbarFrom sm_scrollY sm_navbar].
      destruct tk; subst fr; cbn [Nat.iter updateOnScroll frameRequests ticking navbarFrom
                                  sm_scrollY sm_navbar].
      + split; [done |]. split; [| done]. by intros _ _ ->.
      + split; [done |]. split; [| done]. intros _ Hs Hn. apply I2; [done | | done].
        cbn [existsb isScroll] in Hs. by rewrite !orb_false_r in Hs. }
  destruct H as (H1 & H2 & H3). split; [| split; [| split]]; [| | done | done].
  - rewrite H1. destruct (ticking _); lia.
  - rewrite H1. destruct (ticking _); split; done.
Qed.

Lemma scroll_updates_throttled_witness :
  navbarFrom (sm_run [SmScroll 10; SmScroll 250; SmFrame] (sm_init true 0)) =
  Some (sm_scrollY (sm_run [SmScroll 10; SmScroll 250; SmFrame] (sm_init true 0))).
Proof.
  apply (scroll_updates_throttled [SmScroll 10; SmScroll 250; SmFrame] true 0);
    reflexivity.
Defined.
